(** * Normalisation-Tool: the relational-normalisation engine of
    [normalization.py], embedded in Rocq.

    Attributes are Python [str]; attribute sets are Python [set]s of them and
    are modelled as [gset string] (set equality is Leibniz equality there, as
    [==] on Python sets is extensional).  A functional dependency is the tuple
    [(lhs, rhs)]; the FD list keeps its declaration order.

    Loops are folds or structural recursions over the list they iterate on.
    The three loops that are not ([while changed], [while queue and
    iterations < 50], the cuts of [str.split]) recurse on a bound, and for
    each a lemma shows that the bound used is never what stops it.  A call
    that can raise returns a sum, the exception on the left. *)

From Stdlib Require Import Ascii.
From stdpp Require Import gmap strings list sorting.

#[local] Set Warnings "-clear-no-such-hyp".

(** ** Data model *)

(** [(lhs, rhs)] as built by [parse_fds]. *)
Definition fd : Type := gset string * gset string.

(** ** Closure engine: [attribute_closure] *)

(** One execution of the [for lhs, rhs in fds] body chain (lines 60-64): the
    state is the pair [(closure, changed)]. *)
Fixpoint closure_scan (fds : list fd) (closure : gset string) (changed : bool)
  : gset string * bool :=
  match fds with
  | [] => (closure, changed)
  | (lhs, rhs) :: rest =>
      if bool_decide (lhs ⊆ closure) then
        if negb (bool_decide (rhs ⊆ closure)) then
          closure_scan rest (closure ∪ rhs) true
        else closure_scan rest closure changed
      else closure_scan rest closure changed
  end.

(** The [while changed] loop (lines 57-64).  [passes] bounds the number of
    executions of the loop body; [closure_while_converges] below shows that
    the bound chosen in [attribute_closure] is never the reason the loop
    stops. *)
Fixpoint closure_while (passes : nat) (fds : list fd) (closure : gset string)
  : gset string :=
  match passes with
  | 0 => closure
  | S n =>
      let '(closure', changed) := closure_scan fds closure false in
      if changed then closure_while n fds closure' else closure'
  end.

Definition attribute_closure (attributes : gset string) (fds : list fd)
  : gset string :=
  closure_while (S (length fds)) fds attributes.

(** ** Key finder: [find_candidate_keys] *)

(** Lines 73-75: the union of every dependent. *)
Definition rhs_union (fds : list fd) : gset string :=
  fold_left (λ acc (d : fd), acc ∪ d.2) fds ∅.

(** [itertools.combinations(l, r)]: the [r]-element subsequences of [l], in
    lexicographic order of their positions. *)
Fixpoint combinations {A} (l : list A) (r : nat) : list (list A) :=
  match r, l with
  | 0, _ => [[]]
  | S _, [] => []
  | S k, x :: t => map (cons x) (combinations t k) ++ combinations t r
  end.

(** The nested function of lines 80-84. *)
Definition is_superkey_of_existing
    (candidate_keys : list (gset string)) (candidate : gset string) : bool :=
  existsb (λ key, bool_decide (key ⊆ candidate)) candidate_keys.

(** Body of the inner [for combination in ...] loop (lines 89-95); the state
    is the list [candidate_keys]. *)
Definition key_search_step (all_attrs : gset string) (fds : list fd)
    (essential_attrs : gset string)
    (candidate_keys : list (gset string)) (combination : list string)
  : list (gset string) :=
  let candidate := essential_attrs ∪ list_to_set combination in
  if is_superkey_of_existing candidate_keys candidate then candidate_keys
  else if bool_decide (attribute_closure candidate fds = all_attrs)
       then candidate_keys ++ [candidate]
       else candidate_keys.

(** The two nested loops of lines 87-95, for a given enumeration
    [remaining_attrs] of the set [all_attrs - essential_attrs]. *)
Definition key_search (all_attrs : gset string) (fds : list fd)
    (essential_attrs : gset string) (remaining_attrs : list string)
  : list (gset string) :=
  fold_left
    (λ candidate_keys r,
       fold_left (key_search_step all_attrs fds essential_attrs)
                 (combinations remaining_attrs r) candidate_keys)
    (seq 0 (length remaining_attrs + 1)) [].

(** Lines 97-102. *)
Definition key_fallback (all_attrs : gset string) (fds : list fd)
    (candidate_keys : list (gset string)) : list (gset string) :=
  match candidate_keys with
  | [] =>
      if bool_decide (attribute_closure all_attrs fds = all_attrs)
      then [all_attrs] else []
  | _ :: _ => candidate_keys
  end.

(** [find_candidate_keys] with the order of [list(all_attrs - essential_attrs)]
    made a parameter: Python does not specify the iteration order of a set. *)
Definition find_candidate_keys_ordered (remaining_attrs : list string)
    (all_attrs : gset string) (fds : list fd) : list (gset string) :=
  let essential_attrs := all_attrs ∖ rhs_union fds in
  key_fallback all_attrs fds
    (key_search all_attrs fds essential_attrs remaining_attrs).

Definition find_candidate_keys (all_attrs : gset string) (fds : list fd)
  : list (gset string) :=
  let essential_attrs := all_attrs ∖ rhs_union fds in
  find_candidate_keys_ordered (elements (all_attrs ∖ essential_attrs))
    all_attrs fds.

(** ** Normal-form classifier: [determine_normal_form] *)

(** A violation tuple [(lhs, rhs, reason)]. *)
Definition violation : Type := gset string * gset string * string.

(** Lines 109-111. *)
Definition prime_attributes_of (candidate_keys : list (gset string))
  : gset string :=
  fold_left (λ acc key, acc ∪ key) candidate_keys ∅.

(** The three accumulators of lines 113-115. *)
Record nf_lists := NfLists {
  violations_2nf : list violation;
  violations_3nf : list violation;
  violations_bcnf : list violation
}.

(** Lines 136-140: the inner [for key in candidate_keys] loop with its
    [break]. *)
Definition is_proper_subset_of_key
    (lhs : gset string) (candidate_keys : list (gset string)) : bool :=
  existsb (λ key, bool_decide (lhs ⊆ key) && negb (bool_decide (lhs = key)))
          candidate_keys.

(** Body of the [for lhs, rhs in fds] loop (lines 117-150). *)
Definition nf_step (relation_attrs : gset string) (fds : list fd)
    (candidate_keys : list (gset string)) (prime_attributes : gset string)
    (acc : nf_lists) (d : fd) : nf_lists :=
  let '(lhs, rhs) := d in
  if negb (bool_decide (lhs ⊆ relation_attrs))
     || negb (bool_decide (rhs ⊆ relation_attrs)) then acc
  else
    let clean_rhs := rhs ∖ lhs in
    if bool_decide (clean_rhs = ∅) then acc
    else
      let lhs_closure := attribute_closure lhs fds in
      let is_superkey := bool_decide (relation_attrs ⊆ lhs_closure) in
      if negb is_superkey then
        let bcnf' :=
          violations_bcnf acc ++ [(lhs, clean_rhs, "LHS is not a superkey")] in
        let proper := is_proper_subset_of_key lhs candidate_keys in
        let non_prime_rhs := clean_rhs ∖ prime_attributes in
        let v2' :=
          if proper && negb (bool_decide (non_prime_rhs = ∅))
          then violations_2nf acc ++ [(lhs, non_prime_rhs, "Partial dependency")]
          else violations_2nf acc in
        let v3' :=
          if negb proper then
            if negb (bool_decide (non_prime_rhs = ∅))
            then violations_3nf acc
                   ++ [(lhs, non_prime_rhs, "Transitive dependency")]
            else violations_3nf acc
          else violations_3nf acc in
        NfLists v2' v3' bcnf'
      else acc.

(** The violation lists as they stand when the loop of lines 117-150 ends. *)
Definition nf_violations (relation_attrs : gset string) (fds : list fd)
    (candidate_keys : list (gset string)) : nf_lists :=
  fold_left
    (nf_step relation_attrs fds candidate_keys
             (prime_attributes_of candidate_keys))
    fds (NfLists [] [] []).

(** Truthiness of a Python list. *)
Definition nonempty {A} (l : list A) : bool :=
  match l with [] => false | _ :: _ => true end.

Definition determine_normal_form (relation_attrs : gset string)
    (fds : list fd) (candidate_keys : list (gset string))
  : string * string * list violation :=
  let v := nf_violations relation_attrs fds candidate_keys in
  if nonempty (violations_2nf v) then
    ("1NF", "Violates 2NF (Partial Dependencies detected).", violations_2nf v)
  else if nonempty (violations_3nf v) then
    ("2NF", "Violates 3NF (Transitive Dependencies detected).",
     violations_3nf v)
  else if nonempty (violations_bcnf v) then
    ("3NF",
     "Violates BCNF (Dependencies where LHS is not a superkey detected).",
     violations_bcnf v)
  else ("BCNF", "Satisfies BCNF (All determinants are superkeys).", []).

(** ** BCNF decomposer: [decompose_to_bcnf] *)

(** The dict [{'name': ..., 'attrs': ...}]. *)
Record relation_schema := Schema { name : string; attrs : gset string }.

(** One entry of [steps].  The source stores the violating dependency
    [(X, Y)] as the text [f"{set(X)} -> {set(Y)}"] and adds an ['explanation']
    sentence built from [name], [X] and [Y] only; the model keeps the pair
    itself, of which both texts are renderings. *)
Record step := Step {
  current_relation : relation_schema;
  violating_fd : gset string * gset string;
  new_relations : list relation_schema
}.

(** Lines 187-209: the search for the first violating dependency, with its
    [continue]s and its [break]. [pending] is the part of [fds] still to be
    visited; closures are always taken over the whole list [fds]. *)
Fixpoint find_violation (pending fds : list fd) (attrs : gset string)
  : option (gset string * gset string) :=
  match pending with
  | [] => None
  | (lhs, rhs) :: rest =>
      if negb (bool_decide (lhs ⊆ attrs)) then find_violation rest fds attrs
      else
        let full_closure := attribute_closure lhs fds in
        let local_closure := full_closure ∩ attrs in
        let determined_in_relation := local_closure ∖ lhs in
        if bool_decide (determined_in_relation = ∅)
        then find_violation rest fds attrs
        else if negb (bool_decide (attrs ⊆ local_closure))
             then Some (lhs, determined_in_relation)
             else find_violation rest fds attrs
  end.

(** The variables the [while] loop of lines 173-236 works on. *)
Record decomp_state := DecompState {
  steps : list step;
  final_schemas : list relation_schema;
  queue : list relation_schema;
  iterations : nat
}.

(** Lines 174-236: one execution of the loop body on the popped [schema]. *)
Definition decompose_body (fds : list fd) (st : decomp_state)
    (schema : relation_schema) (rest : list relation_schema) : decomp_state :=
  let attrs := attrs schema in
  let name := name schema in
  match find_violation fds fds attrs with
  | Some (X, Y) =>
      let attrs1 := X ∪ Y in
      let name1 := name +:+ "_1" in
      let attrs2 := attrs ∖ (Y ∖ X) in
      let name2 := name +:+ "_2" in
      let schema1 := Schema name1 attrs1 in
      let schema2 := Schema name2 attrs2 in
      DecompState
        (steps st ++ [Step schema (X, Y) [schema1; schema2]])
        (final_schemas st)
        (rest ++ [schema1] ++ [schema2])
        (iterations st + 1)
  | None =>
      DecompState (steps st) (final_schemas st ++ [schema]) rest
                  (iterations st + 1)
  end.

(** The hard-coded bound of line 173. *)
Definition iteration_cap : nat := 50.

(** [while queue and iterations < 50] (line 173).  [turns] bounds the number
    of executions of the body; [decompose_exit] allows [iteration_cap] of
    them, and [decompose_while_inv] below shows that the loop is then left
    only because its own test fails. *)
Fixpoint decompose_while (turns : nat) (fds : list fd) (st : decomp_state)
  : decomp_state :=
  match turns with
  | 0 => st
  | S turns' =>
      match queue st with
      | [] => st
      | schema :: rest =>
          if iterations st <? iteration_cap
          then decompose_while turns' fds (decompose_body fds st schema rest)
          else st
      end
  end.

(** The state in which the loop is left. *)
Definition decompose_exit (relation_name : string)
    (relation_attrs : gset string) (fds : list fd) : decomp_state :=
  decompose_while iteration_cap fds
    (DecompState [] [] [Schema relation_name relation_attrs] 0).

Definition decompose_to_bcnf (relation_name : string)
    (relation_attrs : gset string) (fds : list fd)
  : list step * list relation_schema :=
  let st := decompose_exit relation_name relation_attrs fds in
  (steps st, final_schemas st).

(** ** Text input: [parse_fds]

    A Python [str] is held as the [string] of its UTF-8 bytes.  UTF-8 is
    self-synchronising, so searching and cutting at an encoded separator is
    searching and cutting at the separator's code points. *)

Definition byte_in (lo hi : nat) (c : ascii) : bool :=
  (lo <=? nat_of_ascii c) && (nat_of_ascii c <=? hi).

(** [str.isspace] for one character, by the length of its encoding:
    U+0009-000D, U+001C-0020; U+0085, U+00A0; U+1680, U+2000-200A, U+2028,
    U+2029, U+202F, U+205F, U+3000. *)
Definition is_space1 (c : ascii) : bool :=
  byte_in 9 13 c || byte_in 28 32 c.

Definition is_space2 (c c1 : ascii) : bool :=
  byte_in 194 194 c && (byte_in 133 133 c1 || byte_in 160 160 c1).

Definition is_space3 (c c1 c2 : ascii) : bool :=
  byte_in 225 225 c && byte_in 154 154 c1 && byte_in 128 128 c2
  || byte_in 226 226 c && byte_in 128 128 c1
     && (byte_in 128 138 c2 || byte_in 168 169 c2 || byte_in 175 175 c2)
  || byte_in 226 226 c && byte_in 129 129 c1 && byte_in 159 159 c2
  || byte_in 227 227 c && byte_in 128 128 c1 && byte_in 128 128 c2.

(** Drops the white space at the front of [s].  With [back] set, [s] is read
    as a reversed text, each character's bytes in reverse order. *)
Fixpoint strip_front (back : bool) (s : string) : string :=
  match s with
  | String c s1 =>
      if is_space1 c then strip_front back s1
      else
        match s1 with
        | String c1 s2 =>
            if (if back then is_space2 c1 c else is_space2 c c1)
            then strip_front back s2
            else
              match s2 with
              | String c2 s3 =>
                  if (if back then is_space3 c2 c1 c else is_space3 c c1 c2)
                  then strip_front back s3
                  else s
              | EmptyString => s
              end
        | EmptyString => s
        end
  | EmptyString => s
  end.

(** [s.strip()]. *)
Definition strip (s : string) : string :=
  String.rev (strip_front true (String.rev (strip_front false s))).

Fixpoint drop_chars (n : nat) (s : string) : string :=
  match n, s with
  | 0, _ => s
  | S k, String _ t => drop_chars k t
  | S _, EmptyString => EmptyString
  end.

(** The leftmost occurrence of [sep] in [s]: the text before it and the text
    after it, as [s.partition(sep)] finds them. *)
Fixpoint find_sep (sep s : string) {struct s} : option (string * string) :=
  if String.prefix sep s
  then Some (EmptyString, drop_chars (String.length sep) s)
  else
    match s with
    | EmptyString => None
    | String c t =>
        match find_sep sep t with
        | Some (before, after) => Some (String c before, after)
        | None => None
        end
    end.

(** [sep in s]. *)
Definition contains (sep s : string) : bool :=
  match find_sep sep s with Some _ => true | None => false end.

(** [s.split(sep)] for a non-empty [sep] (every separator of the source is a
    non-empty literal): cut at the leftmost occurrence, go on behind it.
    [cuts] bounds the number of cuts; [split] allows one per character. *)
Fixpoint split_upto (cuts : nat) (sep s : string) : list string :=
  match cuts with
  | 0 => [s]
  | S n =>
      match find_sep sep s with
      | None => [s]
      | Some (before, after) => before :: split_upto n sep after
      end
  end.

Definition split (sep s : string) : list string :=
  split_upto (String.length s) sep s.

Definition newline : string := String (ascii_of_nat 10) EmptyString.

(** What a call leaves behind: a value, or the exception it raised. *)
Inductive py_exception := ValueError.

(** [set(attr.strip() for attr in side.split(","))]. *)
Definition attr_set (side : string) : gset string :=
  list_to_set (map strip (split "," side)).

(** Lines 41-43. *)
Definition select_arrow (line : string) : string :=
  if contains "→" line then "→" else "->".

(** Body of the [for line in lines] loop (lines 37-49); the tuple assignment
    of line 46 raises [ValueError] unless the split has exactly two parts. *)
Definition parse_fd_line (fds : list fd) (raw : string)
  : py_exception + list fd :=
  let line := strip raw in
  if bool_decide (line = "") then inr fds
  else
    let arrow := select_arrow line in
    if contains arrow line then
      match split arrow line with
      | [lhs_str; rhs_str] =>
          let lhs := attr_set lhs_str in
          let rhs := attr_set rhs_str in
          inr (fds ++ [(lhs, rhs)])
      | _ => inl ValueError
      end
    else inr fds.

Fixpoint parse_fd_lines (fds : list fd) (lines : list string)
  : py_exception + list fd :=
  match lines with
  | [] => inr fds
  | line :: rest =>
      match parse_fd_line fds line with
      | inl e => inl e
      | inr fds' => parse_fd_lines fds' rest
      end
  end.

Definition parse_fds (fd_str : string) : py_exception + list fd :=
  parse_fd_lines [] (split newline (strip fd_str)).

(** [parse_relation] (lines 4-27).  [re_search] stands for the call of
    [re.search] of line 10: [None] when the pattern matches nowhere in the
    text, else the groups 1 and 2 of the match.  [split(":", 1)] cuts at the
    first colon only. *)
Definition parse_relation (re_search : string → option (string * string))
    (input_str : string) : py_exception + (string * gset string) :=
  let input_str := strip input_str in
  match re_search input_str with
  | None =>
      let parts :=
        map strip (filter (λ p, strip p ≠ "") (split "," input_str)) in
      if negb (contains "(" input_str) && negb (contains ")" input_str)
         && nonempty parts
      then inr ("R", list_to_set parts)
      else if contains ":" input_str then
        match split_upto 1 ":" input_str with
        | [name; attrs] => inr (strip name, attr_set attrs)
        | _ => inl ValueError
        end
      else inl ValueError
  | Some (name, attrs_str) => inr (name, attr_set attrs_str)
  end.

(** ** Notions used to state the properties *)

(** [Z] is closed under the dependencies of [fds]. *)
Definition closed_under (fds : list fd) (Z : gset string) : Prop :=
  Forall (λ d : fd, d.1 ⊆ Z → d.2 ⊆ Z) fds.

(** Dependencies of [fds] whose dependent is not yet inside [c]: the measure
    that a changing scan decreases. *)
Definition unsatisfied (fds : list fd) (c : gset string) : nat :=
  length (filter (λ d : fd, ¬ d.2 ⊆ c) fds).

(** Both sides of [d] mention attributes of [U] only. *)
Definition fd_within (U : gset string) (d : fd) : Prop :=
  d.1 ⊆ U ∧ d.2 ⊆ U.

(** What lines 91-95 do with one candidate set. *)
Definition key_accept (all_attrs : gset string) (fds : list fd)
    (candidate_keys : list (gset string)) (candidate : gset string)
  : list (gset string) :=
  if is_superkey_of_existing candidate_keys candidate then candidate_keys
  else if bool_decide (attribute_closure candidate fds = all_attrs)
       then candidate_keys ++ [candidate]
       else candidate_keys.

(** The candidate sets in the order in which lines 87-89 produce them. *)
Definition key_candidates (essential_attrs : gset string)
    (remaining_attrs : list string) : list (gset string) :=
  concat (map (λ r, map (λ combination : list string,
                           essential_attrs ∪ list_to_set combination)
                        (combinations remaining_attrs r))
              (seq 0 (length remaining_attrs + 1))).

(** No key of the list, at any position, is inside a key at another one. *)
Definition antichain (keys : list (gset string)) : Prop :=
  ∀ i j ki kj, keys !! i = Some ki → keys !! j = Some kj → i ≠ j → ¬ ki ⊆ kj.

Definition size_le (a b : gset string) : Prop := size a ≤ size b.

(** The two children of a recorded step cover the schema that was split and
    share the determinant of the violating dependency. *)
Definition step_splits (fds : list fd) (s : step) : Prop :=
  ∃ schema1 schema2,
    new_relations s = [schema1; schema2]
    ∧ attrs schema1 ∪ attrs schema2 = attrs (current_relation s)
    ∧ attrs schema1 ∩ attrs schema2 = (violating_fd s).1
    ∧ ∃ rhs, ((violating_fd s).1, rhs) ∈ fds.

(** What the loop keeps true of its variables: each turn handles one schema,
    and every schema ever created is decomposed, final or still queued. *)
Definition decomp_inv (st : decomp_state) : Prop :=
  iterations st = length (steps st) + length (final_schemas st)
  ∧ length (final_schemas st) + length (queue st) = length (steps st) + 1.

#[global] Instance fd_within_dec U d : Decision (fd_within U d).
Proof. unfold fd_within. apply _. Defined.

#[global] Instance py_exception_eq_dec : EqDecision py_exception.
Proof. solve_decision. Defined.

#[global] Instance relation_schema_eq_dec : EqDecision relation_schema.
Proof. solve_decision. Defined.

#[global] Instance step_eq_dec : EqDecision step.
Proof. solve_decision. Defined.

(** ** Notions used in the further properties *)

(** The dependency [d] lies inside the relation [R], is not trivial, and its
    determinant is not a superkey of [R]: the test of lines 119-132. *)
Definition bcnf_violating (R : gset string) (fds : list fd) (d : fd) : Prop :=
  d.1 ⊆ R ∧ d.2 ⊆ R ∧ d.2 ∖ d.1 ≠ ∅ ∧ ¬ R ⊆ attribute_closure d.1 fds.

#[global] Instance bcnf_violating_dec R fds d : Decision (bcnf_violating R fds d).
Proof. unfold bcnf_violating. apply _. Defined.

(** What one dependency adds to the three violation lists. *)
Definition nf_contribution (relation_attrs : gset string) (fds : list fd)
    (candidate_keys : list (gset string)) (d : fd) : nf_lists :=
  nf_step relation_attrs fds candidate_keys
          (prime_attributes_of candidate_keys) (NfLists [] [] []) d.

Definition nf_append (a b : nf_lists) : nf_lists :=
  NfLists (violations_2nf a ++ violations_2nf b)
          (violations_3nf a ++ violations_3nf b)
          (violations_bcnf a ++ violations_bcnf b).

(** A recorded step cut its schema at the closure of the violating
    determinant: both children are non-empty proper parts of the schema,
    named after it. *)
Definition step_shrinks (fds : list fd) (s : step) : Prop :=
  ∃ schema1 schema2,
    new_relations s = [schema1; schema2]
    ∧ name schema1 = name (current_relation s) +:+ "_1"
    ∧ name schema2 = name (current_relation s) +:+ "_2"
    ∧ attrs schema1
      = attribute_closure (violating_fd s).1 fds ∩ attrs (current_relation s)
    ∧ attrs schema2 = attrs (current_relation s) ∖ (violating_fd s).2
    ∧ (violating_fd s).2
      = attribute_closure (violating_fd s).1 fds ∩ attrs (current_relation s)
        ∖ (violating_fd s).1
    ∧ attrs schema1 ⊂ attrs (current_relation s)
    ∧ attrs schema2 ⊂ attrs (current_relation s)
    ∧ attrs schema1 ≠ ∅ ∧ attrs schema2 ≠ ∅.

(** The schemas the loop still has to look at or has finished. *)
Definition live_schemas (st : decomp_state) : list relation_schema :=
  final_schemas st ++ queue st.

(** A bound on the turns of the loop that a schema can cause: one for itself
    and those of two children with fewer attributes. *)
Definition schema_weight (s : relation_schema) : nat :=
  Nat.max 1 (2 ^ size (attrs s) - 1).

Definition queue_weight (q : list relation_schema) : nat :=
  foldr (λ s n, schema_weight s + n) 0 q.

(** [a] is a front part of [b]. *)
Definition is_prefix (a b : string) : Prop := ∃ r, b = a +:+ r.

(** No text of the list is a front part of a text at another position. *)
Fixpoint prefix_free (l : list string) : Prop :=
  match l with
  | [] => True
  | a :: rest =>
      Forall (λ b, ¬ is_prefix a b ∧ ¬ is_prefix b a) rest ∧ prefix_free rest
  end.

(** [s] does not begin with a white-space character ([back]: as read by
    [strip_front back]). *)
Definition front_clean (back : bool) (s : string) : Prop :=
  match s with
  | String c s1 =>
      is_space1 c = false
      ∧ match s1 with
        | String c1 s2 =>
            (if back then is_space2 c1 c else is_space2 c c1) = false
            ∧ match s2 with
              | String c2 _ =>
                  (if back then is_space3 c2 c1 c else is_space3 c c1 c2)
                  = false
              | EmptyString => True
              end
        | EmptyString => True
        end
  | EmptyString => True
  end.

(** The byte [x] occurs in [s]. *)
Fixpoint has_char (x : ascii) (s : string) : bool :=
  match s with
  | EmptyString => false
  | String c t => Ascii.eqb x c || has_char x t
  end.

(** The byte of a printable ASCII character other than the blank. *)
Definition printable (x : ascii) : Prop :=
  33 ≤ nat_of_ascii x ∧ nat_of_ascii x ≤ 126.

(** ** Inputs of the examples

    The relation and the dependencies of [test_logic.py]; the text has a
    blank line and a line without separator added. *)

Definition ex_text : string :=
  newline +:+ "GigID -> ClientID, FreelancerID, Title, Budget" +:+ newline
  +:+ "MilestoneID → GigID, Amount " +:+ newline +:+ newline
  +:+ "just a remark" +:+ newline.
Definition ex_fds : list fd :=
  [({["GigID"]}, {["ClientID"; "FreelancerID"; "Title"; "Budget"]});
   ({["MilestoneID"]}, {["GigID"; "Amount"]})].
Definition ex_attrs : gset string :=
  {["GigID"; "ClientID"; "FreelancerID"; "Title"; "Budget"; "MilestoneID"; "Amount"]}.

(** The [Gigs] relation of the example loader of [app.py]. *)
Definition gigs_attrs : gset string :=
  {["GigID"; "ClientID"; "FreelancerID"; "Title"; "Description"; "Budget";
    "Status"]}.
Definition gigs_fds : list fd :=
  [({["GigID"]},
    {["ClientID"; "FreelancerID"; "Title"; "Description"; "Budget"; "Status"]})].

(** The default relation of [app.py], [R(A, B, C, D, E)] with [A -> B, C]
    and [C -> D]. *)
Definition r5_attrs : gset string := {["A"; "B"; "C"; "D"; "E"]}.
Definition r5_fds : list fd :=
  [({["A"]}, {["B"; "C"]}); ({["C"]}, {["D"]})].

(** The one step of the decomposition of the relation of [test_logic.py]. *)
Definition ex_step : step :=
  Step (Schema "GigMix" ex_attrs)
       ({["GigID"]}, {["ClientID"; "FreelancerID"; "Title"; "Budget"]})
       [Schema "GigMix_1"
          {["GigID"; "ClientID"; "FreelancerID"; "Title"; "Budget"]};
        Schema "GigMix_2" {["GigID"; "MilestoneID"; "Amount"]}].

(** Twenty-five independent dependencies [Ai -> Bi] over fifty attributes:
    every split peels one pair off, so the decomposition needs 51 turns of
    the loop. *)
Definition cap_indices : list string :=
  ["01"; "02"; "03"; "04"; "05"; "06"; "07"; "08"; "09"; "10"; "11"; "12";
   "13"; "14"; "15"; "16"; "17"; "18"; "19"; "20"; "21"; "22"; "23"; "24";
   "25"].
Definition cap_fds : list fd :=
  map (λ i, ({["A" +:+ i]}, {["B" +:+ i]})) cap_indices.
Definition cap_determinants : gset string :=
  list_to_set (map (λ i, "A" +:+ i) cap_indices).
Definition cap_attrs : gset string :=
  cap_determinants ∪ list_to_set (map (λ i, "B" +:+ i) cap_indices).
Definition cap_pending : relation_schema :=
  Schema (fold_left (λ n _, n +:+ "_2") cap_indices "R") cap_determinants.

(** The loop was left at the cap with [cap_pending] still queued, and
    [cap_pending] is lost: it is not final, it was not decomposed, and no
    final schema holds its attributes. *)
Definition cap_truncated (st : decomp_state) : Prop :=
  iterations st = iteration_cap
  ∧ queue st = [cap_pending]
  ∧ (cap_pending ∉ final_schemas st)
  ∧ Forall (λ s, ¬ attrs cap_pending ⊆ attrs s) (final_schemas st)
  ∧ Forall (λ s : step, current_relation s ≠ cap_pending) (steps st).

#[global] Instance cap_truncated_dec st : Decision (cap_truncated st).
Proof. unfold cap_truncated. apply _. Defined.

(** * Checks on the repository's own examples *)

Example parse_fds_test_logic : parse_fds ex_text = inr ex_fds.
Proof. compute_done. Qed.

Example closure_test_logic :
  attribute_closure {["GigID"]} ex_fds
  = {["GigID"; "ClientID"; "FreelancerID"; "Title"; "Budget"]}.
Proof. compute_done. Qed.

Example keys_test_logic :
  find_candidate_keys ex_attrs ex_fds = [ {["MilestoneID"]} ].
Proof. compute_done. Qed.

Example normal_form_test_logic :
  determine_normal_form ex_attrs ex_fds [ {["MilestoneID"]} ]
  = ("2NF", "Violates 3NF (Transitive Dependencies detected).",
     [({["GigID"]}, {["ClientID"; "FreelancerID"; "Title"; "Budget"]},
       "Transitive dependency")]).
Proof. compute_done. Qed.

Example decompose_test_logic :
  decompose_to_bcnf "GigMix" ex_attrs ex_fds
  = ([ex_step], new_relations ex_step).
Proof. compute_done. Qed.

Example gigs_is_bcnf :
  parse_fds
    "GigID -> ClientID, FreelancerID, Title, Description, Budget, Status"
  = inr gigs_fds
  ∧ find_candidate_keys gigs_attrs gigs_fds = [ {["GigID"]} ]
  ∧ determine_normal_form gigs_attrs gigs_fds [ {["GigID"]} ]
    = ("BCNF", "Satisfies BCNF (All determinants are superkeys).", [])
  ∧ decompose_to_bcnf "Gigs" gigs_attrs gigs_fds
    = ([], [Schema "Gigs" gigs_attrs]).
Proof. repeat split; compute_done. Qed.


(** * The closure engine *)

Section closure_facts.

Implicit Types (fds : list fd) (c X Y Z : gset string).

Lemma closure_scan_cons lhs rhs rest c ch :
  closure_scan ((lhs, rhs) :: rest) c ch
  = if decide (lhs ⊆ c ∧ ¬ rhs ⊆ c)
    then closure_scan rest (c ∪ rhs) true
    else closure_scan rest c ch.
Proof.
  simpl. destruct (decide _) as [[Hl Hr]|Hno].
  - by rewrite bool_decide_true, bool_decide_false.
  - destruct (decide (lhs ⊆ c)) as [Hl|Hl].
    + rewrite bool_decide_true by done.
      rewrite bool_decide_true; [done|].
      destruct (decide (rhs ⊆ c)); [done|]. exfalso. by apply Hno.
    + by rewrite bool_decide_false.
Qed.

Lemma closure_scan_grows fds c ch : c ⊆ (closure_scan fds c ch).1.
Proof.
  revert c ch. induction fds as [|[lhs rhs] rest IH]; intros c ch.
  - done.
  - rewrite closure_scan_cons. destruct (decide _); [|apply IH].
    etrans; [|apply IH]. set_solver.
Qed.

Lemma closure_scan_flag fds c : (closure_scan fds c true).2 = true.
Proof.
  revert c. induction fds as [|[lhs rhs] rest IH]; intros c; [done|].
  rewrite closure_scan_cons. destruct (decide _); apply IH.
Qed.

Lemma closure_scan_below fds c ch Z :
  c ⊆ Z → closed_under fds Z → (closure_scan fds c ch).1 ⊆ Z.
Proof.
  revert c ch. induction fds as [|[lhs rhs] rest IH]; intros c ch Hc Hcl.
  - done.
  - apply Forall_cons in Hcl as [Hd Hrest]. simpl in Hd.
    rewrite closure_scan_cons. destruct (decide _) as [[Hl Hr]|Hno].
    + apply IH; [|done]. assert (rhs ⊆ Z) by (apply Hd; set_solver).
      set_solver.
    + by apply IH.
Qed.

Lemma closure_scan_quiet fds c ch c' :
  closure_scan fds c ch = (c', false) →
  ch = false ∧ c' = c ∧ closed_under fds c.
Proof.
  revert c ch. induction fds as [|[lhs rhs] rest IH]; intros c ch.
  - intros [= -> ->]. repeat split. constructor.
  - rewrite closure_scan_cons. destruct (decide _) as [[Hl Hr]|Hno].
    + intros Hscan. pose proof (closure_scan_flag rest (c ∪ rhs)) as Hflag.
      rewrite Hscan in Hflag. discriminate.
    + intros Hscan. destruct (IH _ _ Hscan) as (-> & -> & Hcl).
      repeat split. constructor; [|done]. simpl. intros Hl.
      destruct (decide (rhs ⊆ c)); [done|]. exfalso. by apply Hno.
Qed.

Lemma unsatisfied_cons lhs rhs rest c :
  unsatisfied ((lhs, rhs) :: rest) c
  = (if decide (rhs ⊆ c) then 0 else 1) + unsatisfied rest c.
Proof.
  unfold unsatisfied. rewrite filter_cons. simpl.
  destruct (decide (rhs ⊆ c)) as [Hy|Hn].
  - by rewrite decide_False by (intros Hn; by apply Hn).
  - by rewrite decide_True.
Qed.

Lemma unsatisfied_antitone fds c c' :
  c ⊆ c' → unsatisfied fds c' ≤ unsatisfied fds c.
Proof.
  intros Hsub. induction fds as [|[lhs rhs] rest IH]; [done|].
  rewrite !unsatisfied_cons.
  destruct (decide (rhs ⊆ c')) as [Hy'|Hn'];
    destruct (decide (rhs ⊆ c)) as [Hy|Hn]; try lia.
  exfalso. apply Hn'. set_solver.
Qed.

Lemma unsatisfied_le_length fds c : unsatisfied fds c ≤ length fds.
Proof. unfold unsatisfied. apply length_filter. Qed.

Lemma closure_scan_progress fds c ch c' ch' :
  closure_scan fds c ch = (c', ch') →
  unsatisfied fds c' ≤ unsatisfied fds c ∧
  (ch = false → ch' = true → unsatisfied fds c' < unsatisfied fds c).
Proof.
  revert c ch. induction fds as [|[lhs rhs] rest IH]; intros c ch.
  - intros [= -> ->]. split; [done|]. intros ->. discriminate.
  - rewrite closure_scan_cons, !unsatisfied_cons. intros Hscan.
    assert (c ⊆ c') as Hcc'.
    { pose proof (closure_scan_grows ((lhs, rhs) :: rest) c ch) as Hg.
      by rewrite closure_scan_cons, Hscan in Hg. }
    pose proof (unsatisfied_antitone rest c c' Hcc') as Hanti.
    destruct (decide (lhs ⊆ c ∧ ¬ rhs ⊆ c)) as [[Hl Hr]|Hno].
    + pose proof (closure_scan_grows rest (c ∪ rhs) true) as Hg.
      rewrite Hscan in Hg. simpl in Hg.
      rewrite (decide_True (P := rhs ⊆ c')) by set_solver.
      rewrite (decide_False (P := rhs ⊆ c)) by done. lia.
    + destruct (IH _ _ Hscan) as [Hle Hlt].
      destruct (decide (rhs ⊆ c')) as [Hy'|Hn'];
        destruct (decide (rhs ⊆ c)) as [Hy|Hn].
      * split; [lia|]. intros. specialize (Hlt ltac:(done) ltac:(done)). lia.
      * split; [lia|]. intros. lia.
      * exfalso. apply Hn'. set_solver.
      * split; [lia|]. intros. specialize (Hlt ltac:(done) ltac:(done)). lia.
Qed.

(** The loop always stops because a scan changed nothing: with more passes
    allowed than there are unsatisfied dependencies, the result is a fixed
    point of the scan. *)
Lemma closure_while_converges n fds c :
  unsatisfied fds c < n →
  closure_scan fds (closure_while n fds c) false = (closure_while n fds c, false).
Proof.
  revert c. induction n as [|n IH]; intros c Hn; [lia|]. simpl.
  destruct (closure_scan fds c false) as [c' ch'] eqn:Hscan.
  destruct ch'.
  - apply IH. apply closure_scan_progress in Hscan as [_ Hlt].
    specialize (Hlt eq_refl eq_refl). lia.
  - apply closure_scan_quiet in Hscan as Hq. destruct Hq as (_ & -> & _).
    done.
Qed.

(** Allowing more passes changes nothing. *)
Lemma closure_while_enough n m fds c :
  unsatisfied fds c < n → unsatisfied fds c < m →
  closure_while n fds c = closure_while m fds c.
Proof.
  revert m c. induction n as [|n IH]; intros m c Hn Hm; [lia|].
  destruct m as [|m]; [lia|]. simpl.
  destruct (closure_scan fds c false) as [c' ch'] eqn:Hscan.
  destruct ch'; [|done].
  apply closure_scan_progress in Hscan as [_ Hlt].
  specialize (Hlt eq_refl eq_refl). apply IH; lia.
Qed.

Lemma closure_while_grows n fds c : c ⊆ closure_while n fds c.
Proof.
  revert c. induction n as [|n IH]; intros c; simpl; [done|].
  pose proof (closure_scan_grows fds c false) as Hg.
  destruct (closure_scan fds c false) as [c' ch']. simpl in Hg.
  destruct ch'; [|done]. etrans; [exact Hg|apply IH].
Qed.

Lemma closure_while_below n fds c Z :
  c ⊆ Z → closed_under fds Z → closure_while n fds c ⊆ Z.
Proof.
  revert c. induction n as [|n IH]; intros c Hc Hcl; simpl; [done|].
  pose proof (closure_scan_below fds c false Z Hc Hcl) as Hb.
  destruct (closure_scan fds c false) as [c' ch']. simpl in Hb.
  destruct ch'; [|done]. by apply IH.
Qed.

Lemma closed_under_alt fds Z :
  closed_under fds Z ↔ ∀ d : fd, d ∈ fds → d.1 ⊆ Z → d.2 ⊆ Z.
Proof. unfold closed_under. apply Forall_forall. Qed.

Lemma closed_under_elem fds Z (d : fd) :
  closed_under fds Z → d ∈ fds → d.1 ⊆ Z → d.2 ⊆ Z.
Proof. intros Hcl. by apply closed_under_alt. Qed.

Lemma attribute_closure_fixed X fds :
  closure_scan fds (attribute_closure X fds) false
  = (attribute_closure X fds, false).
Proof.
  apply closure_while_converges.
  pose proof (unsatisfied_le_length fds X). lia.
Qed.

Lemma attribute_closure_extensive X fds : X ⊆ attribute_closure X fds.
Proof. apply closure_while_grows. Qed.

Lemma attribute_closure_closed X fds :
  closed_under fds (attribute_closure X fds).
Proof.
  pose proof (attribute_closure_fixed X fds) as Hfix.
  by apply closure_scan_quiet in Hfix as (_ & _ & Hcl).
Qed.

Lemma attribute_closure_least X fds Z :
  X ⊆ Z → closed_under fds Z → attribute_closure X fds ⊆ Z.
Proof. apply closure_while_below. Qed.

Lemma attribute_closure_mono X Y fds :
  X ⊆ Y → attribute_closure X fds ⊆ attribute_closure Y fds.
Proof.
  intros HXY. apply attribute_closure_least.
  - etrans; [exact HXY|apply attribute_closure_extensive].
  - apply attribute_closure_closed.
Qed.

Lemma attribute_closure_idem X fds :
  attribute_closure (attribute_closure X fds) fds = attribute_closure X fds.
Proof.
  apply (anti_symm (⊆)).
  - apply attribute_closure_least; [done|apply attribute_closure_closed].
  - apply attribute_closure_extensive.
Qed.

End closure_facts.

(** C7. [attribute_closure] is monotonic in its attribute set, and extensive:
    [X ⊆ Y] gives [attribute_closure X fds ⊆ attribute_closure Y fds], and
    [X ⊆ attribute_closure X fds] for every [X]. *)
Theorem attribute_closure_monotonic_extensive (X Y : gset string) (fds : list fd) :
  X ⊆ Y →
  attribute_closure X fds ⊆ attribute_closure Y fds
  ∧ X ⊆ attribute_closure X fds.
Proof.
  intros HXY. split.
  - by apply attribute_closure_mono.
  - apply attribute_closure_extensive.
Qed.

Lemma attribute_closure_monotonic_extensive_witness :
  ({["MilestoneID"]} : gset string) ⊆ {["MilestoneID"; "GigID"]}
  ∧ attribute_closure {["MilestoneID"]} ex_fds
      ⊆ attribute_closure {["MilestoneID"; "GigID"]} ex_fds
  ∧ ({["MilestoneID"]} : gset string) ⊆ attribute_closure {["MilestoneID"]} ex_fds.
Proof.
  split; [compute_done|].
  apply (attribute_closure_monotonic_extensive
           {["MilestoneID"]} {["MilestoneID"; "GigID"]} ex_fds).
  compute_done.
Defined.

(** C8. [attribute_closure] is idempotent: closing a closure under the same
    dependencies returns it unchanged. *)
Theorem attribute_closure_idempotent (X : gset string) (fds : list fd) :
  attribute_closure (attribute_closure X fds) fds = attribute_closure X fds.
Proof.
  pose proof (attribute_closure_fixed X fds) as Hfix.
  unfold attribute_closure at 1. simpl.
  by rewrite Hfix.
Qed.

(** C6, as the source has it.  A dependency is applied as written whenever
    its determinant is inside the current closure, whatever its dependent
    is.  For [X ⊆ U], dropping the dependencies that mention an attribute
    outside the universe [U] leaves the closure unchanged exactly when the
    closure stays inside [U], and that is exactly when no dependency whose
    determinant lies inside the closure has a dependent attribute outside
    [U]; it is so in particular when no dependency with its determinant
    inside [U] has a dependent leaving [U]. *)
Theorem closure_inert_outside_universe (U X : gset string) (fds : list fd) :
  X ⊆ U →
  (attribute_closure X (filter (fd_within U) fds) = attribute_closure X fds
   ↔ ∀ d : fd, d ∈ fds → d.1 ⊆ attribute_closure X fds → d.2 ⊆ U)
  ∧ (attribute_closure X fds ⊆ U
     ↔ ∀ d : fd, d ∈ fds → d.1 ⊆ attribute_closure X fds → d.2 ⊆ U)
  ∧ (∀ d : fd, d ∈ fds → d.1 ⊆ attribute_closure X fds →
       d.2 ⊆ attribute_closure X fds)
  ∧ ((∀ d : fd, d ∈ fds → d.1 ⊆ U → d.2 ⊆ U) →
     ∀ d : fd, d ∈ fds → d.1 ⊆ attribute_closure X fds → d.2 ⊆ U).
Proof.
  intros HXU.
  pose proof (attribute_closure_extensive X fds) as Hext.
  assert (∀ d : fd, d ∈ fds → d.1 ⊆ attribute_closure X fds →
            d.2 ⊆ attribute_closure X fds) as Hcl.
  { intros d Hd.
    apply (closed_under_elem fds _ d (attribute_closure_closed X fds) Hd). }
  assert (attribute_closure X (filter (fd_within U) fds)
          ⊆ attribute_closure X fds) as Hsub.
  { apply attribute_closure_least; [done|].
    apply closed_under_alt. intros d [_ Hd]%list_elem_of_filter.
    by apply Hcl. }
  assert (attribute_closure X fds ⊆ U →
          ∀ d : fd, d ∈ fds → d.1 ⊆ attribute_closure X fds → d.2 ⊆ U) as Hin.
  { intros HC d Hd Hlhs. etrans; [by apply Hcl|done]. }
  assert ((∀ d : fd, d ∈ fds → d.1 ⊆ attribute_closure X fds → d.2 ⊆ U) →
          attribute_closure X fds ⊆ U) as Hout.
  { intros Hinert.
    assert (attribute_closure X fds ⊆ attribute_closure X fds ∩ U) as Hboth.
    { apply attribute_closure_least.
      - apply intersection_greatest; done.
      - apply closed_under_alt. intros d Hd Hlhs.
        assert (d.1 ⊆ attribute_closure X fds) as Hlhs'.
        { etrans; [exact Hlhs|]. apply intersection_subseteq_l. }
        apply intersection_greatest; [by apply Hcl|by apply Hinert]. }
    etrans; [exact Hboth|]. apply intersection_subseteq_r. }
  assert (attribute_closure X fds ⊆ U →
          attribute_closure X (filter (fd_within U) fds)
          = attribute_closure X fds) as Heq.
  { intros HC. apply (anti_symm (⊆)); [done|].
    apply attribute_closure_least; [apply attribute_closure_extensive|].
    apply closed_under_alt. intros d Hd Hlhs.
    assert (d.1 ⊆ attribute_closure X fds) as Hlhs' by (etrans; done).
    apply (closed_under_elem (filter (fd_within U) fds) _ d
             (attribute_closure_closed X _)); [|done].
    apply list_elem_of_filter. split; [|done]. split.
    - etrans; done.
    - etrans; [by apply Hcl|done]. }
  split; [|split; [|split]].
  - split.
    + intros Hsame. apply Hin. rewrite <- Hsame.
      apply attribute_closure_least; [done|].
      apply closed_under_alt. intros d [Hw _]%list_elem_of_filter _. apply Hw.
    + intros Hinert. by apply Heq, Hout.
  - split; [apply Hin|apply Hout].
  - exact Hcl.
  - intros Hstay. apply Hin.
    apply attribute_closure_least; [done|]. by apply closed_under_alt.
Qed.

Lemma closure_inert_outside_universe_witness :
  (attribute_closure {["A"]} (filter (fd_within {["A"; "B"; "C"]})
      [({["A"]}, {["B"]}); ({["Z"]}, {["A"]}); ({["C"]}, {["Z"]})])
   = attribute_closure {["A"]}
       [({["A"]}, {["B"]}); ({["Z"]}, {["A"]}); ({["C"]}, {["Z"]})]
   ↔ ∀ d : fd,
       d ∈ [({["A"]}, {["B"]}); ({["Z"]}, {["A"]}); ({["C"]}, {["Z"]})] →
       d.1 ⊆ attribute_closure {["A"]}
               [({["A"]}, {["B"]}); ({["Z"]}, {["A"]}); ({["C"]}, {["Z"]})] →
       d.2 ⊆ {["A"; "B"; "C"]})
  ∧ (attribute_closure {["A"]}
       [({["A"]}, {["B"]}); ({["Z"]}, {["A"]}); ({["C"]}, {["Z"]})]
     ⊆ {["A"; "B"; "C"]}
     ↔ ∀ d : fd,
         d ∈ [({["A"]}, {["B"]}); ({["Z"]}, {["A"]}); ({["C"]}, {["Z"]})] →
         d.1 ⊆ attribute_closure {["A"]}
                 [({["A"]}, {["B"]}); ({["Z"]}, {["A"]}); ({["C"]}, {["Z"]})] →
         d.2 ⊆ {["A"; "B"; "C"]})
  ∧ (∀ d : fd,
       d ∈ [({["A"]}, {["B"]}); ({["Z"]}, {["A"]}); ({["C"]}, {["Z"]})] →
       d.1 ⊆ attribute_closure {["A"]}
               [({["A"]}, {["B"]}); ({["Z"]}, {["A"]}); ({["C"]}, {["Z"]})] →
       d.2 ⊆ attribute_closure {["A"]}
               [({["A"]}, {["B"]}); ({["Z"]}, {["A"]}); ({["C"]}, {["Z"]})])
  ∧ ((∀ d : fd,
        d ∈ [({["A"]}, {["B"]}); ({["Z"]}, {["A"]}); ({["C"]}, {["Z"]})] →
        d.1 ⊆ {["A"; "B"; "C"]} → d.2 ⊆ {["A"; "B"; "C"]}) →
     ∀ d : fd,
       d ∈ [({["A"]}, {["B"]}); ({["Z"]}, {["A"]}); ({["C"]}, {["Z"]})] →
       d.1 ⊆ attribute_closure {["A"]}
               [({["A"]}, {["B"]}); ({["Z"]}, {["A"]}); ({["C"]}, {["Z"]})] →
       d.2 ⊆ {["A"; "B"; "C"]}).
Proof.
  apply (closure_inert_outside_universe {["A"; "B"; "C"]} {["A"]}
           [({["A"]}, {["B"]}); ({["Z"]}, {["A"]}); ({["C"]}, {["Z"]})]).
  compute_done.
Defined.

(** C6 as claimed fails: with universe [{A}] the dependency [A -> B] mentions
    [B], which is outside, yet it fires on [{A}]; dropping it changes the
    closure, and the closure leaves the universe. *)
Lemma closure_outside_universe_not_inert :
  ({["A"]} : gset string) ⊆ {["A"]}
  ∧ attribute_closure {["A"]} (filter (fd_within {["A"]}) [({["A"]}, {["B"]})])
    ≠ attribute_closure {["A"]} [({["A"]}, {["B"]})]
  ∧ ¬ attribute_closure {["A"]} [({["A"]}, {["B"]})] ⊆ {["A"]}.
Proof. repeat split; compute_done. Qed.

(** * The key finder *)

Lemma rhs_union_fold (fds : list fd) (acc : gset string) (x : string) :
  x ∈ fold_left (λ acc (d : fd), acc ∪ d.2) fds acc
  ↔ x ∈ acc ∨ ∃ d : fd, d ∈ fds ∧ x ∈ d.2.
Proof.
  revert acc. induction fds as [|d rest IH]; intros acc; simpl.
  - split; [auto|]. intros [?|(d & Hd & _)]; [done|]. by apply elem_of_nil in Hd.
  - rewrite IH. split.
    + intros [[?|?]%elem_of_union|(d' & Hd' & ?)]; [auto|right..].
      * exists d. split; [left|done].
      * exists d'. split; [by right|done].
    + intros [?|(d' & [->|Hd']%elem_of_cons & ?)].
      * left. set_solver.
      * left. set_solver.
      * right. eauto.
Qed.

Lemma elem_of_rhs_union (fds : list fd) (x : string) :
  x ∈ rhs_union fds ↔ ∃ d : fd, d ∈ fds ∧ x ∈ d.2.
Proof.
  unfold rhs_union. rewrite rhs_union_fold. split; [|auto].
  intros [[]%not_elem_of_empty|?]. done.
Qed.

(** A closure adds dependents only. *)
Lemma attribute_closure_within (X : gset string) (fds : list fd) :
  attribute_closure X fds ⊆ X ∪ rhs_union fds.
Proof.
  apply attribute_closure_least; [set_solver|].
  apply closed_under_alt. intros d Hd _ x Hx.
  apply elem_of_union. right. apply elem_of_rhs_union. eauto.
Qed.

Lemma combinations_length {A} (l : list A) r c :
  c ∈ combinations l r → length c = r.
Proof.
  revert r c. induction l as [|x t IH]; intros [|k] c; simpl.
  - by intros ->%list_elem_of_singleton.
  - by intros ?%elem_of_nil.
  - by intros ->%list_elem_of_singleton.
  - rewrite elem_of_app, list_elem_of_In, in_map_iff.
    intros [(c' & <- & Hc')|Hc]; simpl.
    + f_equal. apply IH. by apply list_elem_of_In.
    + by apply IH.
Qed.

Lemma combinations_sublist {A} (l : list A) r c :
  c ∈ combinations l r → c `sublist_of` l.
Proof.
  revert r c. induction l as [|x t IH]; intros [|k] c; simpl.
  - by intros ->%list_elem_of_singleton.
  - by intros ?%elem_of_nil.
  - intros ->%list_elem_of_singleton. apply sublist_nil_l.
  - rewrite elem_of_app, list_elem_of_In, in_map_iff.
    intros [(c' & <- & Hc')|Hc]; simpl.
    + apply sublist_skip. eapply IH. by apply list_elem_of_In.
    + apply sublist_cons. by eapply IH.
Qed.

(** Every selection of elements of [l] is one of its combinations. *)
Lemma filter_in_combinations {A} (P : A → Prop) `{!∀ x, Decision (P x)}
    (l : list A) :
  filter P l ∈ combinations l (length (filter P l)).
Proof.
  induction l as [|x t IH]; simpl.
  - apply list_elem_of_singleton. done.
  - rewrite filter_cons. destruct (decide (P x)) as [HP|HP]; simpl.
    + apply elem_of_app. left. apply list_elem_of_In, in_map_iff.
      exists (filter P t). split; [done|]. by apply list_elem_of_In.
    + destruct (length (filter P t)) as [|k] eqn:Hlen.
      * apply nil_length_inv in Hlen as ->. apply list_elem_of_singleton. done.
      * apply elem_of_app. right. done.
Qed.

Section key_facts.

Variables (all_attrs : gset string) (fds : list fd).

Abbreviation accept := (key_accept all_attrs fds).
Abbreviation is_superkey s := (attribute_closure s fds = all_attrs).

Lemma is_superkey_of_existing_true keys c :
  is_superkey_of_existing keys c = true ↔ ∃ k, k ∈ keys ∧ k ⊆ c.
Proof.
  unfold is_superkey_of_existing. rewrite existsb_exists. split.
  - intros (k & Hk & Hsub). exists k. split; [by apply list_elem_of_In|].
    by apply bool_decide_eq_true in Hsub.
  - intros (k & Hk & Hsub). exists k. split; [by apply list_elem_of_In|].
    by apply bool_decide_eq_true.
Qed.

Lemma antichain_nil : antichain [].
Proof. intros i j ki kj Hi. by rewrite lookup_nil in Hi. Qed.

Lemma antichain_snoc keys c :
  antichain keys → (∀ k, k ∈ keys → ¬ k ⊆ c ∧ ¬ c ⊆ k) →
  antichain (keys ++ [c]).
Proof.
  intros Hanti Hnew i j ki kj Hi Hj Hij.
  apply lookup_snoc_Some in Hi as [[Hilt Hi]|[-> <-]];
    apply lookup_snoc_Some in Hj as [[Hjlt Hj]|[-> <-]].
  - by eapply Hanti.
  - apply Hnew. by eapply list_elem_of_lookup_2.
  - apply Hnew. by eapply list_elem_of_lookup_2.
  - done.
Qed.

Lemma key_accept_cases keys c :
  (accept keys c = keys ∧
     ((∃ k, k ∈ keys ∧ k ⊆ c) ∨ ¬ is_superkey c))
  ∨ (accept keys c = keys ++ [c] ∧ is_superkey c ∧ ∀ k, k ∈ keys → ¬ k ⊆ c).
Proof.
  unfold key_accept.
  destruct (is_superkey_of_existing keys c) eqn:Hex.
  - left. split; [done|]. left. by apply is_superkey_of_existing_true.
  - case_bool_decide as Hsk.
    + right. repeat split; [done|]. intros k Hk Hsub.
      assert (is_superkey_of_existing keys c = true) as Ht
        by (apply is_superkey_of_existing_true; eauto).
      congruence.
    + left. split; [done|]. by right.
Qed.

(** The search over a list of candidates in non-decreasing size. *)
Lemma key_accept_fold cs keys :
  antichain keys →
  (∀ k c, k ∈ keys → c ∈ cs → size k ≤ size c) →
  StronglySorted size_le cs →
  antichain (fold_left accept cs keys)
  ∧ (∀ k, k ∈ keys → k ∈ fold_left accept cs keys)
  ∧ (∀ k, k ∈ fold_left accept cs keys →
          k ∈ keys ∨ (k ∈ cs ∧ is_superkey k))
  ∧ (∀ c, c ∈ cs → is_superkey c →
          ∃ k, k ∈ fold_left accept cs keys ∧ k ⊆ c).
Proof.
  revert keys. induction cs as [|c cs IH]; intros keys Hanti Hsize Hsorted.
  { simpl. repeat split; auto. intros c Hc. by apply elem_of_nil in Hc. }
  apply StronglySorted_cons in Hsorted as [Hc_le Hsorted].
  rewrite Forall_forall in Hc_le. simpl.
  assert (antichain (accept keys c)
          ∧ (∀ k c', k ∈ accept keys c → c' ∈ cs → size k ≤ size c')
          ∧ (∀ k, k ∈ keys → k ∈ accept keys c)
          ∧ (∀ k, k ∈ accept keys c → k ∈ keys ∨ (k = c ∧ is_superkey c))
          ∧ (is_superkey c → ∃ k, k ∈ accept keys c ∧ k ⊆ c))
    as (Hanti' & Hsize' & Hkeep & Hfrom & Hcover).
  { destruct (key_accept_cases keys c) as [[-> Hwhy]|(-> & Hsk & Hfresh)].
    - repeat split; auto.
      + intros k c' Hk Hc'. apply Hsize; [done|by right].
      + intros Hsk. destruct Hwhy as [?|?]; done.
    - repeat split.
      + apply antichain_snoc; [done|]. intros k Hk. split; [by apply Hfresh|].
        intros Hck. apply (Hfresh k Hk).
        assert (size k ≤ size c) by (apply Hsize; [done|by left]).
        by rewrite (set_subseteq_size_eq c k Hck).
      + intros k c' [Hk| ->%list_elem_of_singleton]%elem_of_app Hc'.
        * apply Hsize; [done|by right].
        * by apply Hc_le.
      + intros k Hk. apply elem_of_app. by left.
      + intros k [Hk| ->%list_elem_of_singleton]%elem_of_app; auto.
      + intros _. exists c. split; [|done]. apply elem_of_app. right. by left. }
  destruct (IH (accept keys c) Hanti' Hsize' Hsorted)
    as (Hanti'' & Hkeep' & Hfrom' & Hcover').
  repeat split.
  - done.
  - intros k Hk. by apply Hkeep', Hkeep.
  - intros k Hk. destruct (Hfrom' k Hk) as [Hk'|[Hk' Hsk]].
    + destruct (Hfrom k Hk') as [?|[-> ?]]; [by left|]. right. split; [by left|done].
    + right. split; [by right|done].
  - intros c' [->|Hc']%elem_of_cons Hsk.
    + destruct (Hcover Hsk) as (k & Hk & Hsub). exists k. split; [|done].
      by apply Hkeep'.
    + by apply Hcover'.
Qed.

Variables (essential_attrs : gset string) (remaining_attrs : list string).

Abbreviation candidate_of :=
  (λ combination : list string, essential_attrs ∪ list_to_set combination).

Lemma key_search_inner combs keys :
  fold_left (key_search_step all_attrs fds essential_attrs) combs keys
  = fold_left accept (map candidate_of combs) keys.
Proof. revert keys. induction combs as [|c combs IH]; intros keys; simpl; auto. Qed.

Lemma key_search_outer rs keys :
  fold_left
    (λ candidate_keys r,
       fold_left (key_search_step all_attrs fds essential_attrs)
                 (combinations remaining_attrs r) candidate_keys) rs keys
  = fold_left accept
      (concat (map (λ r, map candidate_of (combinations remaining_attrs r)) rs))
      keys.
Proof.
  revert keys. induction rs as [|r rs IH]; intros keys; simpl; [done|].
  by rewrite fold_left_app, IH, key_search_inner.
Qed.

(** The nested loops are one pass over [key_candidates]. *)
Lemma key_search_flat :
  key_search all_attrs fds essential_attrs remaining_attrs
  = fold_left accept (key_candidates essential_attrs remaining_attrs) [].
Proof. apply key_search_outer. Qed.

Hypothesis remaining_NoDup : NoDup remaining_attrs.
Hypothesis remaining_fresh : ∀ x, x ∈ remaining_attrs → x ∉ essential_attrs.

Lemma candidate_size r c :
  c ∈ combinations remaining_attrs r →
  size (candidate_of c) = size essential_attrs + r.
Proof.
  intros Hc. pose proof (combinations_sublist _ _ _ Hc) as Hsub.
  cbv beta. rewrite size_union.
  - rewrite size_list_to_set by by eapply sublist_NoDup.
    by rewrite (combinations_length _ _ _ Hc).
  - intros x Hx Hx'%elem_of_list_to_set.
    eapply remaining_fresh; [|exact Hx]. by eapply elem_of_sublist.
Qed.

Lemma key_blocks_sorted len start :
  let block := λ r, map candidate_of (combinations remaining_attrs r) in
  StronglySorted size_le (concat (map block (seq start len)))
  ∧ ∀ k, k ∈ concat (map block (seq start len)) →
         size essential_attrs + start ≤ size k.
Proof.
  intros block. revert start. induction len as [|len IH]; intros start; simpl.
  { split; [constructor|]. intros k Hk. by apply elem_of_nil in Hk. }
  destruct (IH (S start)) as [Hsorted Hlow].
  assert (∀ k, k ∈ block start → size k = size essential_attrs + start) as Hblock.
  { intros k (c & <- & Hc)%list_elem_of_In%in_map_iff.
    by apply candidate_size, list_elem_of_In. }
  split.
  - apply StronglySorted_app_2; [| |done].
    + intros k1 k2 Hk1 Hk2. unfold size_le.
      rewrite (Hblock k1 Hk1). specialize (Hlow k2 Hk2). lia.
    + generalize Hblock. generalize (block start). intros l Hl.
      induction l as [|k l IHl]; [constructor|].
      constructor.
      * apply IHl. intros k' Hk'. apply Hl. by right.
      * apply Forall_forall. intros k' Hk'. unfold size_le.
        rewrite (Hl k) by by left. rewrite (Hl k') by by right. done.
  - intros k [Hk|Hk]%elem_of_app.
    + rewrite (Hblock k Hk). lia.
    + specialize (Hlow k Hk). lia.
Qed.

Lemma key_candidates_sorted :
  StronglySorted size_le (key_candidates essential_attrs remaining_attrs).
Proof. apply key_blocks_sorted. Qed.

Lemma elem_of_key_candidates k :
  k ∈ key_candidates essential_attrs remaining_attrs
  ↔ ∃ c r, c ∈ combinations remaining_attrs r ∧ k = candidate_of c.
Proof.
  unfold key_candidates. rewrite list_elem_of_In, in_concat. split.
  - intros (block & (r & <- & Hr)%in_map_iff & (c & <- & Hc)%in_map_iff).
    exists c, r. split; [by apply list_elem_of_In|done].
  - intros (c & r & Hc & ->).
    exists (map candidate_of (combinations remaining_attrs r)). split.
    + apply in_map_iff. exists r. split; [done|]. apply in_seq.
      pose proof (combinations_length _ _ _ Hc) as Hlen.
      pose proof (sublist_length _ _ (combinations_sublist _ _ _ Hc)).
      lia.
    + apply in_map_iff. exists c. split; [done|by apply list_elem_of_In].
Qed.

Lemma key_candidates_within k x :
  k ∈ key_candidates essential_attrs remaining_attrs → x ∈ k →
  x ∈ essential_attrs ∨ x ∈ remaining_attrs.
Proof.
  intros (c & r & Hc & ->)%elem_of_key_candidates
         [?|Hx%elem_of_list_to_set]%elem_of_union; [by left|right].
  eapply elem_of_sublist; [done|by eapply combinations_sublist].
Qed.

(** Every set between [essential_attrs] and the whole is enumerated. *)
Lemma key_candidates_complete S :
  essential_attrs ⊆ S →
  (∀ x, x ∈ S → x ∈ essential_attrs ∨ x ∈ remaining_attrs) →
  S ∈ key_candidates essential_attrs remaining_attrs.
Proof.
  intros Hess Hin. apply elem_of_key_candidates.
  exists (filter (λ x, x ∈ S) remaining_attrs).
  eexists. split; [apply filter_in_combinations|].
  apply set_eq. intros x.
  rewrite elem_of_union, elem_of_list_to_set, list_elem_of_filter. split.
  - intros Hx. destruct (Hin x Hx); auto.
  - intros [Hx|[Hx _]]; auto.
Qed.

Lemma key_search_spec :
  let keys := key_search all_attrs fds essential_attrs remaining_attrs in
  antichain keys
  ∧ (∀ k, k ∈ keys →
       k ∈ key_candidates essential_attrs remaining_attrs ∧ is_superkey k)
  ∧ (∀ c, c ∈ key_candidates essential_attrs remaining_attrs →
       is_superkey c → ∃ k, k ∈ keys ∧ k ⊆ c).
Proof.
  intros keys. unfold keys. rewrite key_search_flat.
  destruct (key_accept_fold
              (key_candidates essential_attrs remaining_attrs) [])
    as (Hanti & _ & Hfrom & Hcover).
  - apply antichain_nil.
  - intros k c Hk. by apply elem_of_nil in Hk.
  - apply key_candidates_sorted.
  - split; [done|]. split; [|done].
    intros k Hk. by destruct (Hfrom k Hk) as [?%elem_of_nil|[? ?]].
Qed.

End key_facts.

Section find_candidate_keys_facts.

Variables (all_attrs : gset string) (fds : list fd).
Variable remaining_attrs : list string.

Hypothesis remaining_NoDup : NoDup remaining_attrs.
Hypothesis remaining_elems :
  ∀ x, x ∈ remaining_attrs ↔ x ∈ all_attrs ∖ (all_attrs ∖ rhs_union fds).

Abbreviation essential := (all_attrs ∖ rhs_union fds).
Abbreviation searched :=
  (key_search all_attrs fds essential remaining_attrs).

Lemma remaining_fresh x : x ∈ remaining_attrs → x ∉ essential.
Proof. rewrite remaining_elems. set_solver. Qed.

Lemma candidate_within k :
  k ∈ key_candidates essential remaining_attrs → k ⊆ all_attrs.
Proof.
  intros Hk x Hx.
  destruct (key_candidates_within _ _ _ _ Hk Hx) as [Hx'|Hx'].
  - set_solver.
  - apply remaining_elems in Hx'. set_solver.
Qed.

Lemma superkey_enumerated S :
  S ⊆ all_attrs → attribute_closure S fds = all_attrs →
  S ∈ key_candidates essential remaining_attrs.
Proof.
  intros Hsub Hsk. apply key_candidates_complete.
  - intros x [Hx Hnx]%elem_of_difference.
    pose proof (attribute_closure_within S fds) as Hin.
    rewrite Hsk in Hin. specialize (Hin x Hx). set_solver.
  - intros x Hx. destruct (decide (x ∈ rhs_union fds)) as [Hr|Hr].
    + right. apply remaining_elems. set_solver.
    + left. set_solver.
Qed.

Lemma searched_spec :
  antichain searched
  ∧ (∀ k, k ∈ searched → k ⊆ all_attrs ∧ attribute_closure k fds = all_attrs)
  ∧ (∀ S, S ⊆ all_attrs → attribute_closure S fds = all_attrs →
          ∃ k, k ∈ searched ∧ k ⊆ S).
Proof.
  destruct (key_search_spec all_attrs fds essential remaining_attrs
              remaining_NoDup remaining_fresh) as (Hanti & Hfrom & Hcover).
  split; [done|]. split.
  - intros k Hk. destruct (Hfrom k Hk) as [Hc Hsk]. split; [|done].
    by apply candidate_within.
  - intros S Hsub Hsk. apply Hcover; [|done]. by apply superkey_enumerated.
Qed.

(** The guard of line 99 never holds when the search has found no key: the
    last candidate tried is the whole of [all_attrs]. *)
Lemma key_fallback_idle :
  find_candidate_keys_ordered remaining_attrs all_attrs fds = searched.
Proof.
  unfold find_candidate_keys_ordered, key_fallback.
  destruct searched as [|k ks] eqn:Hs; [|done].
  case_bool_decide as Hall; [|done]. exfalso.
  destruct searched_spec as (_ & _ & Hcover).
  destruct (Hcover all_attrs) as (k & Hk & _); [done..|].
  rewrite Hs in Hk. by apply elem_of_nil in Hk.
Qed.

Lemma ordered_keys_minimal K S :
  K ∈ find_candidate_keys_ordered remaining_attrs all_attrs fds →
  S ⊂ K → attribute_closure S fds ≠ all_attrs.
Proof.
  rewrite key_fallback_idle. intros HK HSK Hsk.
  destruct searched_spec as (Hanti & Hfrom & Hcover).
  destruct (Hfrom K HK) as [HKall _].
  destruct (Hcover S) as (k & Hk & HkS); [set_solver|done|].
  apply list_elem_of_lookup_1 in Hk as [i Hi].
  apply list_elem_of_lookup_1 in HK as [j Hj].
  apply (Hanti i j k K Hi Hj); [|set_solver].
  intros ->. assert (k = K) by congruence. set_solver.
Qed.

Lemma ordered_keys_nonempty :
  find_candidate_keys_ordered remaining_attrs all_attrs fds ≠ []
  ↔ attribute_closure all_attrs fds = all_attrs.
Proof.
  rewrite key_fallback_idle.
  destruct searched_spec as (_ & Hfrom & Hcover). split.
  - destruct searched as [|k ks]; [done|]. intros _.
    destruct (Hfrom k) as [Hsub Hsk]; [by left|].
    rewrite <- Hsk at 1. rewrite attribute_closure_idem. done.
  - intros Hall. destruct (Hcover all_attrs) as (k & Hk & _); [done..|].
    intros Hnil. rewrite Hnil in Hk. by apply elem_of_nil in Hk.
Qed.

End find_candidate_keys_facts.

(** The keys found are minimal superkeys in whatever order Python lists the
    set [all_attrs - essential_attrs]. *)
Lemma find_candidate_keys_any_order
    (all_attrs : gset string) (fds : list fd) (remaining_attrs : list string)
    (K : gset string) :
  NoDup remaining_attrs →
  (∀ x, x ∈ remaining_attrs ↔ x ∈ all_attrs ∖ (all_attrs ∖ rhs_union fds)) →
  K ∈ find_candidate_keys_ordered remaining_attrs all_attrs fds →
  attribute_closure K fds = all_attrs
  ∧ (∀ S, S ⊂ K → attribute_closure S fds ≠ all_attrs)
  ∧ antichain (find_candidate_keys_ordered remaining_attrs all_attrs fds).
Proof.
  intros Hnd Hel HK. split; [|split].
  - rewrite key_fallback_idle in HK by done.
    destruct (searched_spec all_attrs fds _ Hnd Hel) as (_ & Hfrom & _).
    by apply Hfrom.
  - intros S. by apply (ordered_keys_minimal all_attrs fds _ Hnd Hel).
  - rewrite key_fallback_idle by done.
    by destruct (searched_spec all_attrs fds _ Hnd Hel) as (? & _).
Qed.

Lemma find_candidate_keys_order (all_attrs : gset string) (fds : list fd) :
  let remaining := elements (all_attrs ∖ (all_attrs ∖ rhs_union fds)) in
  NoDup remaining
  ∧ ∀ x, x ∈ remaining ↔ x ∈ all_attrs ∖ (all_attrs ∖ rhs_union fds).
Proof. split; [apply NoDup_elements|]. intros x. apply elem_of_elements. Qed.

(** C1. Every key returned by [find_candidate_keys] is a superkey of the
    universe, none of its proper subsets is one, and no returned key is a
    subset of a key returned at another position. *)
Theorem find_candidate_keys_minimal_superkeys
    (attributes : gset string) (fds : list fd) (K : gset string) :
  K ∈ find_candidate_keys attributes fds →
  attribute_closure K fds = attributes
  ∧ (∀ S, S ⊂ K → attribute_closure S fds ≠ attributes)
  ∧ antichain (find_candidate_keys attributes fds).
Proof.
  destruct (find_candidate_keys_order attributes fds) as [Hnd Hel].
  by apply find_candidate_keys_any_order.
Qed.

Lemma find_candidate_keys_minimal_superkeys_witness :
  attribute_closure {["A"; "E"]} [({["A"]}, {["B"; "C"]}); ({["C"]}, {["D"]})]
  = {["A"; "B"; "C"; "D"; "E"]}
  ∧ (∀ S : gset string, S ⊂ {["A"; "E"]} →
       attribute_closure S [({["A"]}, {["B"; "C"]}); ({["C"]}, {["D"]})]
       ≠ {["A"; "B"; "C"; "D"; "E"]})
  ∧ antichain (find_candidate_keys {["A"; "B"; "C"; "D"; "E"]}
                 [({["A"]}, {["B"; "C"]}); ({["C"]}, {["D"]})]).
Proof.
  apply (find_candidate_keys_minimal_superkeys
           {["A"; "B"; "C"; "D"; "E"]}
           [({["A"]}, {["B"; "C"]}); ({["C"]}, {["D"]})] {["A"; "E"]}).
  compute_done.
Defined.

(** C5, as the source has it.  [find_candidate_keys] returns at least one key
    exactly when the universe is closed under the dependencies
    ([attribute_closure attributes fds = attributes]).  When the combination
    search accepts no candidate the guard of the fallback fails as well, and
    the function returns the empty list. *)
Theorem find_candidate_keys_nonempty_iff
    (attributes : gset string) (fds : list fd) :
  (find_candidate_keys attributes fds ≠ []
   ↔ attribute_closure attributes fds = attributes)
  ∧ (key_search attributes fds (attributes ∖ rhs_union fds)
       (elements (attributes ∖ (attributes ∖ rhs_union fds))) = []
     ↔ find_candidate_keys attributes fds = []).
Proof.
  destruct (find_candidate_keys_order attributes fds) as [Hnd Hel].
  unfold find_candidate_keys. split.
  - by apply ordered_keys_nonempty.
  - by rewrite key_fallback_idle.
Qed.

(** C5 as claimed fails: on the universe [{A}] with [A -> B] the search
    accepts nothing and the function returns no key at all. *)
Lemma find_candidate_keys_can_be_empty :
  key_search {["A"]} [({["A"]}, {["B"]})] ({["A"]} ∖ rhs_union [({["A"]}, {["B"]})])
    (elements ({["A"]} ∖ ({["A"]} ∖ rhs_union [({["A"]}, {["B"]})]))) = []
  ∧ find_candidate_keys {["A"]} [({["A"]}, {["B"]})] = []
  ∧ ({["A"]} : gset string) ∉ find_candidate_keys {["A"]} [({["A"]}, {["B"]})].
Proof. repeat split; compute_done. Qed.

(** * The classifier *)

Lemma nonempty_true {A} (l : list A) : nonempty l = true ↔ l ≠ [].
Proof. destruct l; simpl; split; congruence. Qed.

Lemma nonempty_false {A} (l : list A) : nonempty l = false ↔ l = [].
Proof. destruct l; simpl; split; congruence. Qed.

(** C2. The verdict follows the violation lists in strict precedence: a
    non-empty 2NF list gives ["1NF"]; otherwise a non-empty 3NF list gives
    ["2NF"]; otherwise a non-empty BCNF list gives ["3NF"]; otherwise the
    verdict is ["BCNF"] with no violations.  Each verdict reports the list
    that decided it, and with a 2NF violation the verdict is none of
    ["2NF"], ["3NF"], ["BCNF"]. *)
Theorem determine_normal_form_precedence
    (relation_attrs : gset string) (fds : list fd)
    (candidate_keys : list (gset string)) :
  let v := nf_violations relation_attrs fds candidate_keys in
  let result := determine_normal_form relation_attrs fds candidate_keys in
  (violations_2nf v ≠ [] →
     result.1.1 = "1NF" ∧ result.2 = violations_2nf v)
  ∧ (violations_2nf v = [] → violations_3nf v ≠ [] →
     result.1.1 = "2NF" ∧ result.2 = violations_3nf v)
  ∧ (violations_2nf v = [] → violations_3nf v = [] → violations_bcnf v ≠ [] →
     result.1.1 = "3NF" ∧ result.2 = violations_bcnf v)
  ∧ (violations_2nf v = [] → violations_3nf v = [] → violations_bcnf v = [] →
     result.1.1 = "BCNF" ∧ result.2 = [])
  ∧ (violations_2nf v ≠ [] →
     result.1.1 ≠ "2NF" ∧ result.1.1 ≠ "3NF" ∧ result.1.1 ≠ "BCNF").
Proof.
  intros v result. unfold result, determine_normal_form. fold v.
  destruct (nonempty (violations_2nf v)) eqn:H2;
    [apply nonempty_true in H2|apply nonempty_false in H2];
  (destruct (nonempty (violations_3nf v)) eqn:H3;
    [apply nonempty_true in H3|apply nonempty_false in H3]);
  (destruct (nonempty (violations_bcnf v)) eqn:Hb;
    [apply nonempty_true in Hb|apply nonempty_false in Hb]);
  simpl; repeat split; intros; try done.
Qed.

Lemma determine_normal_form_precedence_witness :
  (determine_normal_form {["A"; "B"; "C"; "D"; "E"]}
     [({["A"]}, {["B"; "C"]}); ({["C"]}, {["D"]})] [ {["A"; "E"]} ]).1.1
  = "1NF"
  ∧ (determine_normal_form ex_attrs ex_fds [ {["MilestoneID"]} ]).1.1 = "2NF".
Proof.
  split.
  - apply (determine_normal_form_precedence {["A"; "B"; "C"; "D"; "E"]}
             [({["A"]}, {["B"; "C"]}); ({["C"]}, {["D"]})] [ {["A"; "E"]} ]).
    compute_done.
  - apply (determine_normal_form_precedence ex_attrs ex_fds
             [ {["MilestoneID"]} ]); compute_done.
Defined.

(** * The decomposer *)

Lemma find_violation_spec (pending fds : list fd) (attrs X Y : gset string) :
  find_violation pending fds attrs = Some (X, Y) →
  (∃ rhs, (X, rhs) ∈ pending)
  ∧ X ⊆ attrs
  ∧ Y = (attribute_closure X fds ∩ attrs) ∖ X
  ∧ Y ≠ ∅
  ∧ ¬ attrs ⊆ attribute_closure X fds ∩ attrs.
Proof.
  induction pending as [|[lhs rhs] rest IH]; simpl; [done|].
  assert (find_violation rest fds attrs = Some (X, Y) →
          (∃ rhs0, (X, rhs0) ∈ (lhs, rhs) :: rest)
          ∧ X ⊆ attrs ∧ Y = (attribute_closure X fds ∩ attrs) ∖ X
          ∧ Y ≠ ∅ ∧ ¬ attrs ⊆ attribute_closure X fds ∩ attrs) as Hrest.
  { intros Hf. destruct (IH Hf) as ([rhs0 Hin] & ?). split; [|done].
    exists rhs0. by right. }
  case_bool_decide as Hlhs; simpl; [|done].
  case_bool_decide as Hdet; [done|].
  case_bool_decide as Hkey; simpl; [done|].
  intros [= <- <-]. split; [exists rhs; by left|done].
Qed.

Lemma decompose_body_steps fds st schema rest :
  Forall (step_splits fds) (steps st) →
  Forall (step_splits fds) (steps (decompose_body fds st schema rest)).
Proof.
  intros Hst. unfold decompose_body.
  destruct (find_violation fds fds (attrs schema)) as [[X Y]|] eqn:Hv;
    simpl; [|done].
  apply Forall_app. split; [done|]. apply Forall_singleton.
  apply find_violation_spec in Hv as (Hfd & HX & -> & _ & _).
  eexists _, _. split; [done|]. simpl. repeat split; [| |done].
  - clear Hfd Hst. apply set_eq. intros x.
    destruct (decide (x ∈ X));
      destruct (decide (x ∈ attribute_closure X fds)); set_solver.
  - clear Hfd Hst. set_solver.
Qed.

Lemma decompose_while_steps turns fds st :
  Forall (step_splits fds) (steps st) →
  Forall (step_splits fds) (steps (decompose_while turns fds st)).
Proof.
  revert st. induction turns as [|turns IH]; intros st Hst; simpl; [done|].
  destruct (queue st) as [|schema rest]; [done|].
  destruct (iterations st <? iteration_cap); [|done].
  by apply IH, decompose_body_steps.
Qed.

(** C3. For every step recorded by [decompose_to_bcnf] the two children
    together have exactly the attributes of the schema that was split, and
    they share exactly the determinant of the violating dependency (a
    determinant of the dependency list). *)
Theorem decompose_step_children
    (relation_name : string) (relation_attrs : gset string) (fds : list fd)
    (s : step) :
  s ∈ (decompose_to_bcnf relation_name relation_attrs fds).1 →
  ∃ schema1 schema2,
    new_relations s = [schema1; schema2]
    ∧ attrs schema1 ∪ attrs schema2 = attrs (current_relation s)
    ∧ attrs schema1 ∩ attrs schema2 = (violating_fd s).1
    ∧ ∃ rhs, ((violating_fd s).1, rhs) ∈ fds.
Proof.
  intros Hs. simpl in Hs.
  assert (Forall (step_splits fds)
            (steps (decompose_exit relation_name relation_attrs fds))) as Hall.
  { apply decompose_while_steps. simpl. constructor. }
  rewrite Forall_forall in Hall. by apply Hall.
Qed.

Lemma decompose_step_children_witness :
  ∃ schema1 schema2,
    new_relations ex_step = [schema1; schema2]
    ∧ attrs schema1 ∪ attrs schema2 = attrs (current_relation ex_step)
    ∧ attrs schema1 ∩ attrs schema2 = (violating_fd ex_step).1
    ∧ ∃ rhs, ((violating_fd ex_step).1, rhs) ∈ ex_fds.
Proof.
  apply (decompose_step_children "GigMix" ex_attrs ex_fds ex_step).
  compute_done.
Defined.

Lemma decompose_body_inv fds st schema rest :
  queue st = schema :: rest → decomp_inv st →
  decomp_inv (decompose_body fds st schema rest)
  ∧ iterations (decompose_body fds st schema rest) = iterations st + 1.
Proof.
  intros Hq [Hit Hlen]. rewrite Hq in Hlen. simpl in Hlen.
  unfold decompose_body, decomp_inv.
  destruct (find_violation fds fds (attrs schema)) as [[X Y]|]; simpl;
    rewrite ?length_app; simpl; lia.
Qed.

(** The loop is left with its test false, each turn having handled one
    schema. *)
Lemma decompose_while_inv turns fds st :
  decomp_inv st →
  iteration_cap ≤ iterations st + turns → iterations st ≤ iteration_cap →
  let st' := decompose_while turns fds st in
  decomp_inv st'
  ∧ iterations st' ≤ iteration_cap
  ∧ (queue st' = [] ∨ iterations st' = iteration_cap).
Proof.
  revert st. induction turns as [|turns IH]; intros st Hinv Hturns Hle; simpl.
  { split; [done|]. split; [done|]. right. lia. }
  destruct (queue st) as [|schema rest] eqn:Hq.
  { split; [done|]. split; [done|]. by left. }
  destruct (Nat.ltb_spec (iterations st) iteration_cap) as [Hlt|Hge].
  - destruct (decompose_body_inv fds st schema rest Hq Hinv) as [Hinv' Hit].
    apply IH; [done|lia|lia].
  - split; [done|]. split; [done|]. right. lia.
Qed.

(** C4 as claimed fails: on [cap_attrs] with [cap_fds] the loop stops at the
    cap with the schema of all determinants still queued, and the call
    returns an ordinary pair whose final schemas do not include that schema:
    no final schema holds its attributes. *)
Lemma decompose_cap_reached_unreported :
  decompose_to_bcnf "R" cap_attrs cap_fds
  = (steps (decompose_exit "R" cap_attrs cap_fds),
     final_schemas (decompose_exit "R" cap_attrs cap_fds))
  ∧ cap_truncated (decompose_exit "R" cap_attrs cap_fds).
Proof. split; [reflexivity|compute_done]. Qed.

(** * Text input *)

Section string_facts.

Implicit Types (s t u v w sep : string).

Lemma append_nil_l s : "" +:+ s = s.
Proof. reflexivity. Qed.

Lemma append_cons c s t : String c s +:+ t = String c (s +:+ t).
Proof. reflexivity. Qed.

Lemma append_nil_r s : s +:+ "" = s.
Proof. induction s as [|c s IH]; [done|]. by rewrite append_cons, IH. Qed.

Lemma append_assoc s t u : (s +:+ t) +:+ u = s +:+ t +:+ u.
Proof. induction s as [|c s IH]; [done|]. by rewrite !append_cons, IH. Qed.

Lemma length_append s t :
  String.length (s +:+ t) = String.length s + String.length t.
Proof. induction s as [|c s IH]; [done|]. rewrite append_cons. simpl. by rewrite IH. Qed.

(** Two ways of cutting one text: the shorter front is a front of the
    longer one. *)
Lemma append_split u v u' v' :
  u +:+ v = u' +:+ v' → String.length u ≤ String.length u' →
  ∃ w, u' = u +:+ w ∧ v = w +:+ v'.
Proof.
  revert u'. induction u as [|c u IH]; intros u' Heq Hlen.
  - exists u'. by rewrite append_nil_l in *.
  - destruct u' as [|c' u']; [simpl in Hlen; lia|].
    rewrite !append_cons in Heq. injection Heq as -> Heq.
    destruct (IH u' Heq) as (w & -> & ->); [simpl in Hlen; lia|].
    by exists w.
Qed.

Lemma prefix_append sep r : String.prefix sep (sep +:+ r) = true.
Proof.
  induction sep as [|c sep IH]; [by destruct r|].
  rewrite append_cons. simpl. by destruct (ascii_dec c c).
Qed.

Lemma drop_chars_append sep r : drop_chars (String.length sep) (sep +:+ r) = r.
Proof. induction sep as [|c sep IH]; [by destruct r|]. by rewrite append_cons. Qed.

Lemma prefix_true sep s :
  String.prefix sep s = true → ∃ r, s = sep +:+ r.
Proof.
  revert s. induction sep as [|c sep IH]; intros s; [by exists s|].
  destruct s as [|c' s]; simpl; [done|].
  destruct (ascii_dec c c') as [<-|]; [|done].
  intros (r & ->)%IH. by exists r.
Qed.

Lemma prefix_drop sep s :
  String.prefix sep s = true → s = sep +:+ drop_chars (String.length sep) s.
Proof. intros [r ->]%prefix_true. by rewrite drop_chars_append. Qed.

Lemma find_sep_unfold sep s :
  find_sep sep s
  = if String.prefix sep s
    then Some (EmptyString, drop_chars (String.length sep) s)
    else match s with
         | EmptyString => None
         | String c t =>
             match find_sep sep t with
             | Some (before, after) => Some (String c before, after)
             | None => None
             end
         end.
Proof. by destruct s. Qed.

(** [find_sep] cuts at an occurrence of [sep] ... *)
Lemma find_sep_Some sep s b a :
  find_sep sep s = Some (b, a) → s = b +:+ sep +:+ a.
Proof.
  revert b. induction s as [|c s IH]; intros b; rewrite find_sep_unfold.
  - destruct (String.prefix sep "") eqn:Hp; [|done].
    intros [= <- <-]. rewrite append_nil_l. by apply prefix_drop.
  - destruct (String.prefix sep (String c s)) eqn:Hp.
    + intros [= <- <-]. rewrite append_nil_l. by apply prefix_drop.
    + destruct (find_sep sep s) as [[b' a']|]; [|done].
      intros [= <- <-]. by rewrite append_cons, <- (IH b').
Qed.

(** ... and at the leftmost one. *)
Lemma find_sep_leftmost sep s b a :
  s = b +:+ sep +:+ a →
  ∃ b' a', find_sep sep s = Some (b', a')
           ∧ String.length b' ≤ String.length b.
Proof.
  revert s. induction b as [|c b IH]; intros s ->; rewrite find_sep_unfold.
  - rewrite append_nil_l, prefix_append. eauto.
  - destruct (String.prefix _ _); [eexists _, _; split; [done|simpl; lia]|].
    rewrite append_cons.
    destruct (IH _ eq_refl) as (b' & a' & -> & Hlen).
    eexists _, _. split; [done|]. simpl. lia.
Qed.

Lemma contains_true sep s :
  contains sep s = true ↔ ∃ b a, s = b +:+ sep +:+ a.
Proof.
  unfold contains. split.
  - destruct (find_sep sep s) as [[b a]|] eqn:Hf; [|done].
    intros _. exists b, a. by apply find_sep_Some.
  - intros (b & a & Hs).
    by destruct (find_sep_leftmost _ _ _ _ Hs) as (b' & a' & -> & _).
Qed.

Lemma find_sep_shorter sep s b a :
  sep ≠ "" → find_sep sep s = Some (b, a) →
  String.length a < String.length s.
Proof.
  intros Hsep ->%find_sep_Some. rewrite !length_append.
  destruct sep; [done|]. simpl. lia.
Qed.

Lemma find_sep_empty sep : sep ≠ "" → find_sep sep "" = None.
Proof. by destruct sep. Qed.

Lemma split_upto_S n sep s :
  split_upto (S n) sep s
  = match find_sep sep s with
    | None => [s]
    | Some (before, after) => before :: split_upto n sep after
    end.
Proof. reflexivity. Qed.

(** Allowing more cuts than [s] has characters changes nothing. *)
Lemma split_upto_enough n m sep s :
  sep ≠ "" → String.length s ≤ n → String.length s ≤ m →
  split_upto n sep s = split_upto m sep s.
Proof.
  intros Hsep. revert m s.
  induction n as [|n IH]; intros [|m] s Hn Hm; rewrite ?split_upto_S.
  - done.
  - destruct s; [|simpl in Hn; lia]. by rewrite find_sep_empty.
  - destruct s; [|simpl in Hm; lia]. by rewrite find_sep_empty.
  - destruct (find_sep sep s) as [[b a]|] eqn:Hf; [|done].
    pose proof (find_sep_shorter _ _ _ _ Hsep Hf). f_equal. apply IH; lia.
Qed.

Lemma split_unfold sep s :
  sep ≠ "" →
  split sep s = match find_sep sep s with
                | None => [s]
                | Some (before, after) => before :: split sep after
                end.
Proof.
  intros Hsep. unfold split. destruct s as [|c s].
  - rewrite find_sep_empty by done. done.
  - change (String.length (String c s)) with (S (String.length s)).
    rewrite split_upto_S.
    destruct (find_sep sep (String c s)) as [[b a]|] eqn:Hf; [|done].
    pose proof (find_sep_shorter _ _ _ _ Hsep Hf) as Hlt. simpl in Hlt.
    f_equal. apply split_upto_enough; [done|lia|lia].
Qed.

Lemma split_no_sep sep s : sep ≠ "" → contains sep s = false → split sep s = [s].
Proof.
  intros Hsep Hc. rewrite split_unfold by done. unfold contains in Hc.
  by destruct (find_sep sep s) as [[??]|].
Qed.

Lemma split_has_sep sep s :
  sep ≠ "" → contains sep s = true → 2 ≤ length (split sep s).
Proof.
  intros Hsep Hc. rewrite split_unfold by done. unfold contains in Hc.
  destruct (find_sep sep s) as [[b a]|]; [|done]. simpl.
  rewrite split_unfold by done. destruct (find_sep sep a) as [[??]|]; simpl; lia.
Qed.

(** Two occurrences of [sep], one after the other, give at least three
    parts. *)
Lemma split_two_occurrences sep s a b c :
  sep ≠ "" → s = a +:+ sep +:+ b +:+ sep +:+ c →
  3 ≤ length (split sep s).
Proof.
  intros Hsep Hs. rewrite split_unfold by done.
  destruct (find_sep_leftmost sep s a (b +:+ sep +:+ c) Hs)
    as (b1 & a1 & Hf & Hlen).
  rewrite Hf. simpl. apply find_sep_Some in Hf.
  assert (contains sep a1 = true) as Hc.
  { rewrite Hs in Hf.
    destruct (append_split b1 (sep +:+ a1) a (sep +:+ b +:+ sep +:+ c))
      as (w & -> & Hrest); [done|done|].
    rewrite <- append_assoc in Hrest.
    destruct (append_split sep a1 (w +:+ sep) (b +:+ sep +:+ c))
      as (w' & Hw' & ->); [done|rewrite length_append; lia|].
    apply contains_true. exists (w' +:+ b), c. by rewrite append_assoc. }
  pose proof (split_has_sep sep a1 Hsep Hc). lia.
Qed.

(** A text in which [sep] occurs at one place only is cut there. *)
Lemma split_unique_occurrence sep s l r :
  sep ≠ "" → s = l +:+ sep +:+ r →
  (∀ b a, s = b +:+ sep +:+ a → b = l) →
  split sep s = [l; r].
Proof.
  intros Hsep Hs Honce. rewrite split_unfold by done.
  destruct (find_sep_leftmost sep s l r Hs) as (b' & a' & Hf & _).
  rewrite Hf. apply find_sep_Some in Hf.
  assert (b' = l) as -> by by apply (Honce b' a').
  assert (a' = r) as ->.
  { rewrite Hs in Hf. by do 2 apply String.app_inj in Hf. }
  f_equal. apply split_no_sep; [done|].
  destruct (contains sep r) eqn:Hc; [|done]. exfalso.
  apply contains_true in Hc as (x & y & ->).
  assert (l +:+ sep +:+ x = l) as Hlen.
  { apply (Honce _ y). by rewrite Hs, !append_assoc. }
  apply (f_equal String.length) in Hlen. rewrite !length_append in Hlen.
  destruct sep; [done|]. simpl in Hlen. lia.
Qed.

End string_facts.

Section parse_facts.

Implicit Types (raw line fd_str : string) (fds : list fd).

Lemma select_arrow_nonempty line : select_arrow line ≠ "".
Proof. unfold select_arrow. by destruct (contains "→" line). Qed.

Lemma split_nil_text sep : split sep "" = [""].
Proof. reflexivity. Qed.

(** A line whose separator occurs twice makes the tuple assignment raise. *)
Lemma parse_fd_line_raises fds raw a b c :
  strip raw
  = a +:+ select_arrow (strip raw) +:+ b +:+ select_arrow (strip raw) +:+ c →
  parse_fd_line fds raw = inl ValueError.
Proof.
  intros Hline. unfold parse_fd_line.
  pose proof (select_arrow_nonempty (strip raw)) as Hsep.
  set (line := strip raw) in *. set (arrow := select_arrow line) in *.
  assert (line ≠ "") as Hne.
  { intros Hnil. rewrite Hnil in Hline.
    apply (f_equal String.length) in Hline. rewrite !length_append in Hline.
    destruct arrow; [done|]. simpl in Hline. lia. }
  rewrite bool_decide_false by done.
  assert (contains arrow line = true) as ->.
  { apply contains_true. eauto. }
  pose proof (split_two_occurrences arrow line a b c Hsep Hline) as Hlen.
  destruct (split arrow line) as [|p1 [|p2 [|p3 ps]]]; simpl in Hlen; try lia.
  done.
Qed.

(** A line without its separator is passed over. *)
Lemma parse_fd_line_skips fds raw :
  contains (select_arrow (strip raw)) (strip raw) = false →
  parse_fd_line fds raw = inr fds.
Proof. intros Hc. unfold parse_fd_line. rewrite Hc. by case_bool_decide. Qed.

(** A line that splits in two is parsed, whatever the two parts are. *)
Lemma parse_fd_line_two_parts fds raw lhs_str rhs_str :
  split (select_arrow (strip raw)) (strip raw) = [lhs_str; rhs_str] →
  parse_fd_line fds raw = inr (fds ++ [(attr_set lhs_str, attr_set rhs_str)]).
Proof.
  intros Hsplit. unfold parse_fd_line.
  pose proof (select_arrow_nonempty (strip raw)) as Hsep.
  set (line := strip raw) in *. set (arrow := select_arrow line) in *.
  case_bool_decide as Hnil.
  { rewrite Hnil, split_nil_text in Hsplit. done. }
  destruct (contains arrow line) eqn:Hc.
  - by rewrite Hsplit.
  - rewrite (split_no_sep arrow line Hsep Hc) in Hsplit. done.
Qed.

Lemma parse_fd_line_at_most_two fds raw :
  length (split (select_arrow (strip raw)) (strip raw)) ≤ 2 →
  parse_fd_line fds raw = inr fds
  ∨ ∃ d, parse_fd_line fds raw = inr (fds ++ [d]).
Proof.
  intros Hlen.
  pose proof (select_arrow_nonempty (strip raw)) as Hsep.
  destruct (contains (select_arrow (strip raw)) (strip raw)) eqn:Hc.
  - right. pose proof (split_has_sep _ _ Hsep Hc) as Hge.
    destruct (split (select_arrow (strip raw)) (strip raw))
      as [|p1 [|p2 [|p3 ps]]] eqn:Hs; simpl in Hlen, Hge; try lia.
    eexists. by apply parse_fd_line_two_parts.
  - left. by apply parse_fd_line_skips.
Qed.

Lemma parse_fd_lines_raises fds lines raw :
  raw ∈ lines → (∀ fds', parse_fd_line fds' raw = inl ValueError) →
  parse_fd_lines fds lines = inl ValueError.
Proof.
  intros Hin Hraise. revert fds.
  induction lines as [|l rest IH]; intros fds; [by apply elem_of_nil in Hin|].
  simpl. apply elem_of_cons in Hin as [<-|Hin].
  - by rewrite Hraise.
  - destruct (parse_fd_line fds l) as [[]|fds']; [done|]. by apply IH.
Qed.

Lemma parse_fd_lines_returns fds lines :
  (∀ raw, raw ∈ lines →
     length (split (select_arrow (strip raw)) (strip raw)) ≤ 2) →
  ∃ fds', parse_fd_lines fds lines = inr fds'
    ∧ (∀ d, d ∈ fds → d ∈ fds')
    ∧ ∀ raw d, raw ∈ lines →
        (∀ fds0, parse_fd_line fds0 raw = inr (fds0 ++ [d])) → d ∈ fds'.
Proof.
  revert fds. induction lines as [|l rest IH]; intros fds Hok; simpl.
  { exists fds. repeat split; [done|]. intros raw d Hin. by apply elem_of_nil in Hin. }
  assert (∀ raw, raw ∈ rest →
            length (split (select_arrow (strip raw)) (strip raw)) ≤ 2) as Hrest.
  { intros raw Hin. apply Hok. by right. }
  destruct (parse_fd_line_at_most_two fds l) as [Hl|[d0 Hl]];
    [apply Hok; by left|..]; rewrite Hl.
  - destruct (IH fds Hrest) as (fds' & Hres & Hkeep & Hnew).
    exists fds'. repeat split; [done..|].
    intros raw d [->|Hin]%elem_of_cons Hd; [|by eapply Hnew].
    rewrite Hd in Hl. injection Hl as Hl.
    apply (f_equal length) in Hl. rewrite length_app in Hl. simpl in Hl. lia.
  - destruct (IH (fds ++ [d0]) Hrest) as (fds' & Hres & Hkeep & Hnew).
    exists fds'. repeat split; [done| |].
    + intros d Hd. apply Hkeep, elem_of_app. by left.
    + intros raw d [->|Hin]%elem_of_cons Hd; [|by eapply Hnew].
      rewrite Hd in Hl. injection Hl as Hl. apply app_inv_head in Hl.
      injection Hl as ->. apply Hkeep, elem_of_app. right. by left.
Qed.

Lemma attr_set_empty_text : attr_set "" = {[""]}.
Proof. compute_done. Qed.

End parse_facts.

(** C9 as claimed fails: the line below contains ["->"] twice, and ["→"]
    once; it is cut at ["→"] and parsed into one dependency. *)
Lemma parse_fds_mixed_separators :
  "A -> B → C -> D" = "A " +:+ "->" +:+ " B → C " +:+ "->" +:+ " D"
  ∧ parse_fds "A -> B → C -> D" = inr [({["A -> B"]}, {["C -> D"]})].
Proof. split; compute_done. Qed.

Example parse_fds_empty_sides :
  parse_fds ("-> B" +:+ newline +:+ "A ->")
  = inr [({[""]}, {["B"]}); ({["A"]}, {[""]})].
Proof. compute_done. Qed.

(** * Further properties of the closure engine *)

(** X1. [attribute_closure X fds] is the least set that contains [X] and is
    closed under every dependency of [fds]. *)
Theorem attribute_closure_least_closed (X : gset string) (fds : list fd) :
  X ⊆ attribute_closure X fds
  ∧ (∀ lhs rhs, (lhs, rhs) ∈ fds →
       lhs ⊆ attribute_closure X fds → rhs ⊆ attribute_closure X fds)
  ∧ (∀ Z : gset string,
       X ⊆ Z → (∀ lhs rhs, (lhs, rhs) ∈ fds → lhs ⊆ Z → rhs ⊆ Z) →
       attribute_closure X fds ⊆ Z).
Proof.
  split; [apply closure_while_grows|]. split.
  - intros lhs rhs Hin.
    apply (closed_under_elem fds _ (lhs, rhs) (attribute_closure_closed X fds) Hin).
  - intros Z HXZ Hcl. apply closure_while_below; [done|].
    apply closed_under_alt. intros [lhs rhs] Hin. by apply Hcl.
Qed.

Lemma closed_under_same_members (fds fds' : list fd) (Z : gset string) :
  (∀ d, d ∈ fds' → d ∈ fds) → closed_under fds Z → closed_under fds' Z.
Proof.
  intros Hsub Hcl. apply closed_under_alt. intros d Hd.
  apply (closed_under_elem fds Z d Hcl). by apply Hsub.
Qed.

(** X2. The closure depends on the dependencies as a set only: two lists
    with the same members, in any order and with any repetitions, give the
    same closure. *)
Theorem attribute_closure_order_irrelevant
    (X : gset string) (fds fds' : list fd) :
  (∀ d, d ∈ fds ↔ d ∈ fds') →
  attribute_closure X fds = attribute_closure X fds'.
Proof.
  intros Hsame. apply (anti_symm (⊆)).
  - apply attribute_closure_least; [apply attribute_closure_extensive|].
    apply (closed_under_same_members fds'); [|apply attribute_closure_closed].
    intros d. apply Hsame.
  - apply attribute_closure_least; [apply attribute_closure_extensive|].
    apply (closed_under_same_members fds); [|apply attribute_closure_closed].
    intros d. apply Hsame.
Qed.

Lemma attribute_closure_order_irrelevant_witness :
  attribute_closure {["MilestoneID"]} ex_fds
  = attribute_closure {["MilestoneID"]} (reverse ex_fds ++ ex_fds).
Proof.
  apply (attribute_closure_order_irrelevant
           {["MilestoneID"]} ex_fds (reverse ex_fds ++ ex_fds)).
  intros d. rewrite elem_of_app, elem_of_reverse. tauto.
Defined.

(** X3. A closure adds dependents only, and it returns its argument
    unchanged exactly when the argument is already closed under the
    dependencies; so it does on an empty dependency list. *)
Theorem attribute_closure_unchanged_iff (X : gset string) (fds : list fd) :
  attribute_closure X fds ⊆ X ∪ rhs_union fds
  ∧ (attribute_closure X fds = X
     ↔ ∀ lhs rhs, (lhs, rhs) ∈ fds → lhs ⊆ X → rhs ⊆ X)
  ∧ attribute_closure X [] = X.
Proof.
  split; [apply attribute_closure_within|]. split; [|done]. split.
  - intros Heq lhs rhs Hin. rewrite <- Heq at 2. rewrite <- Heq at 1.
    apply (closed_under_elem fds _ (lhs, rhs) (attribute_closure_closed X fds) Hin).
  - intros Hcl. apply (anti_symm (⊆)); [|apply attribute_closure_extensive].
    apply attribute_closure_least; [done|].
    apply closed_under_alt. intros [lhs rhs] Hin. by apply Hcl.
Qed.

(** * Further properties of the key finder *)

Lemma antichain_NoDup (keys : list (gset string)) : antichain keys → NoDup keys.
Proof.
  intros Hanti. apply NoDup_alt. intros i j k Hi Hj.
  destruct (decide (i = j)) as [|Hne]; [done|].
  by destruct (Hanti i j k k Hi Hj Hne).
Qed.

Section key_order.

Variables (all_attrs : gset string) (fds : list fd).
Variable remaining_attrs : list string.

Hypothesis remaining_NoDup : NoDup remaining_attrs.
Hypothesis remaining_elems :
  ∀ x, x ∈ remaining_attrs ↔ x ∈ all_attrs ∖ (all_attrs ∖ rhs_union fds).

Abbreviation keys_found :=
  (find_candidate_keys_ordered remaining_attrs all_attrs fds).

(** The returned keys are exactly the minimal superkeys. *)
Lemma ordered_keys_exact K :
  K ∈ keys_found
  ↔ attribute_closure K fds = all_attrs
    ∧ ∀ S, S ⊂ K → attribute_closure S fds ≠ all_attrs.
Proof.
  split.
  - intros HK.
    destruct (find_candidate_keys_any_order all_attrs fds remaining_attrs K
                remaining_NoDup remaining_elems HK) as (Hsk & Hmin & _).
    done.
  - intros [Hsk Hmin]. rewrite key_fallback_idle by done.
    destruct (searched_spec all_attrs fds remaining_attrs
                remaining_NoDup remaining_elems) as (_ & Hfrom & Hcover).
    destruct (Hcover K) as (k & Hk & HkK); [|done|].
    { rewrite <- Hsk. apply attribute_closure_extensive. }
    destruct (decide (k = K)) as [->|Hne]; [done|].
    destruct (Hmin k); [|by apply Hfrom]. by apply strict_spec_alt.
Qed.

Lemma ordered_keys_NoDup : NoDup keys_found.
Proof.
  apply antichain_NoDup. rewrite key_fallback_idle by done.
  by destruct (searched_spec all_attrs fds remaining_attrs
                 remaining_NoDup remaining_elems) as (? & _).
Qed.

Lemma ordered_keys_bounds K :
  K ∈ keys_found → all_attrs ∖ rhs_union fds ⊆ K ∧ K ⊆ all_attrs.
Proof.
  intros [Hsk _]%ordered_keys_exact.
  pose proof (attribute_closure_within K fds) as Hin.
  pose proof (attribute_closure_extensive K fds) as Hext.
  rewrite Hsk in Hin, Hext. split; [|done].
  intros x [Hx Hnx]%elem_of_difference.
  specialize (Hin x Hx). set_solver.
Qed.

End key_order.

(** X4. [find_candidate_keys] finds all the minimal keys: every attribute
    set whose closure is the universe and none of whose proper subsets has
    that closure is in the returned list. *)
Theorem find_candidate_keys_complete
    (attributes : gset string) (fds : list fd) (K : gset string) :
  attribute_closure K fds = attributes →
  (∀ S, S ⊂ K → attribute_closure S fds ≠ attributes) →
  K ∈ find_candidate_keys attributes fds.
Proof.
  intros Hsk Hmin.
  destruct (find_candidate_keys_order attributes fds) as [Hnd Hel].
  unfold find_candidate_keys. by apply ordered_keys_exact.
Qed.

Lemma find_candidate_keys_complete_witness :
  ({["A"; "E"]} : gset string)
  ∈ find_candidate_keys {["A"; "B"; "C"; "D"; "E"]}
      [({["A"]}, {["B"; "C"]}); ({["C"]}, {["D"]})].
Proof.
  apply (find_candidate_keys_complete {["A"; "B"; "C"; "D"; "E"]}
           [({["A"]}, {["B"; "C"]}); ({["C"]}, {["D"]})] {["A"; "E"]}).
  - compute_done.
  - intros S HS.
    assert (S ∈ ([∅; {["A"]}; {["E"]}] : list (gset string))) as Hcases.
    { destruct (decide ("A" ∈ S)), (decide ("E" ∈ S)).
      - destruct HS as [_ HS]. destruct HS. set_solver.
      - apply elem_of_cons. right. apply elem_of_cons. left.
        apply set_eq. intros x. set_solver.
      - do 2 (apply elem_of_cons; right). apply elem_of_cons. left.
        apply set_eq. intros x. set_solver.
      - apply elem_of_cons. left. apply set_eq. intros x. set_solver. }
    repeat (apply elem_of_cons in Hcases as [->|Hcases]; [compute_done|]).
    by apply elem_of_nil in Hcases.
Defined.

(** X5. Every returned key lies inside the attribute set and contains every
    attribute that no dependency has as a dependent; the returned list has
    no repetition. *)
Theorem find_candidate_keys_bounds
    (attributes : gset string) (fds : list fd) :
  NoDup (find_candidate_keys attributes fds)
  ∧ ∀ K, K ∈ find_candidate_keys attributes fds →
         attributes ∖ rhs_union fds ⊆ K ∧ K ⊆ attributes.
Proof.
  destruct (find_candidate_keys_order attributes fds) as [Hnd Hel].
  unfold find_candidate_keys. split.
  - by apply ordered_keys_NoDup.
  - intros K. by apply ordered_keys_bounds.
Qed.

(** X6. The order in which Python lists the set [all_attrs - essential_attrs]
    changes the order of the returned keys at most: for every duplicate-free
    listing of that set the result is a permutation of the result for any
    other. *)
Theorem find_candidate_keys_order_irrelevant
    (attributes : gset string) (fds : list fd) (remaining_attrs : list string) :
  NoDup remaining_attrs →
  (∀ x, x ∈ remaining_attrs
        ↔ x ∈ attributes ∖ (attributes ∖ rhs_union fds)) →
  find_candidate_keys_ordered remaining_attrs attributes fds
  ≡ₚ find_candidate_keys attributes fds.
Proof.
  intros Hnd Hel.
  destruct (find_candidate_keys_order attributes fds) as [Hnd' Hel'].
  unfold find_candidate_keys. apply NoDup_Permutation.
  - by apply ordered_keys_NoDup.
  - by apply ordered_keys_NoDup.
  - intros K. by rewrite !ordered_keys_exact.
Qed.

Lemma find_candidate_keys_order_irrelevant_witness :
  find_candidate_keys_ordered ["C"; "B"; "A"] {["A"; "B"; "C"]}
    [({["A"]}, {["B"]}); ({["B"]}, {["A"]}); ({["A"]}, {["C"]});
     ({["C"]}, {["A"]})]
  ≡ₚ find_candidate_keys {["A"; "B"; "C"]}
       [({["A"]}, {["B"]}); ({["B"]}, {["A"]}); ({["A"]}, {["C"]});
        ({["C"]}, {["A"]})].
Proof.
  apply (find_candidate_keys_order_irrelevant {["A"; "B"; "C"]}
           [({["A"]}, {["B"]}); ({["B"]}, {["A"]}); ({["A"]}, {["C"]});
            ({["C"]}, {["A"]})] ["C"; "B"; "A"]).
  - compute_done.
  - intros x. split.
    + intros Hx. repeat (apply elem_of_cons in Hx as [->|Hx]; [compute_done|]).
      by apply elem_of_nil in Hx.
    + intros Hx.
      assert (x ∈ ({["A"; "B"; "C"]} : gset string)) as Hin by set_solver.
      clear Hx. set_solver.
Defined.

(** * Further properties of the classifier *)

Section classifier_facts.

Variables (R : gset string) (fds : list fd) (keys : list (gset string)).

Abbreviation prime := (prime_attributes_of keys).
Abbreviation contribution := (nf_contribution R fds keys).
Abbreviation lists := (nf_violations R fds keys).
Abbreviation verdict := ((determine_normal_form R fds keys).1.1).

Lemma prime_attributes_fold (l : list (gset string)) (acc : gset string) x :
  x ∈ fold_left (λ acc key, acc ∪ key) l acc
  ↔ x ∈ acc ∨ ∃ key, key ∈ l ∧ x ∈ key.
Proof.
  revert acc. induction l as [|k l IH]; intros acc; simpl.
  - split; [auto|]. intros [?|(k & Hk & _)]; [done|]. by apply elem_of_nil in Hk.
  - rewrite IH. split.
    + intros [[?|?]%elem_of_union|(k' & Hk' & ?)]; [auto|right..].
      * exists k. split; [by left|done].
      * exists k'. split; [by right|done].
    + intros [?|(k' & [->|Hk']%elem_of_cons & ?)].
      * left. set_solver.
      * left. set_solver.
      * right. eauto.
Qed.

Lemma elem_of_prime_attributes x :
  x ∈ prime ↔ ∃ key, key ∈ keys ∧ x ∈ key.
Proof.
  unfold prime_attributes_of. rewrite prime_attributes_fold. split; [|auto].
  intros [[]%not_elem_of_empty|?]. done.
Qed.

Lemma is_proper_subset_of_key_true lhs :
  is_proper_subset_of_key lhs keys = true ↔ ∃ key, key ∈ keys ∧ lhs ⊂ key.
Proof.
  unfold is_proper_subset_of_key. rewrite existsb_exists. split.
  - intros (key & Hkey & [Hsub Hne]%andb_prop). exists key.
    split; [by apply list_elem_of_In|].
    apply bool_decide_eq_true in Hsub. apply negb_true_iff in Hne.
    apply bool_decide_eq_false in Hne. by apply strict_spec_alt.
  - intros (key & Hkey & [Hsub Hne]%strict_spec_alt). exists key.
    split; [by apply list_elem_of_In|]. apply andb_true_intro. split.
    + by apply bool_decide_eq_true.
    + apply negb_true_iff. by apply bool_decide_eq_false.
Qed.

(** A dependency that is not violating adds nothing; a violating one adds
    itself to the BCNF list and, when some of its dependents are in no key,
    to the 2NF or to the 3NF list. *)
Lemma nf_contribution_cases (d : fd) :
  (¬ bcnf_violating R fds d ∧ contribution d = NfLists [] [] [])
  ∨ (bcnf_violating R fds d
     ∧ violations_bcnf (contribution d)
       = [(d.1, d.2 ∖ d.1, "LHS is not a superkey")]
     ∧ violations_2nf (contribution d)
       = (if is_proper_subset_of_key d.1 keys
             && negb (bool_decide (d.2 ∖ d.1 ∖ prime = ∅))
          then [(d.1, d.2 ∖ d.1 ∖ prime, "Partial dependency")] else [])
     ∧ violations_3nf (contribution d)
       = (if negb (is_proper_subset_of_key d.1 keys)
             && negb (bool_decide (d.2 ∖ d.1 ∖ prime = ∅))
          then [(d.1, d.2 ∖ d.1 ∖ prime, "Transitive dependency")] else [])).
Proof.
  destruct d as [lhs rhs]. unfold nf_contribution, nf_step, bcnf_violating.
  simpl.
  destruct (decide (lhs ⊆ R)) as [Hl|Hl];
    [rewrite (bool_decide_true (lhs ⊆ R)) by done
    |rewrite (bool_decide_false (lhs ⊆ R)) by done; simpl; left; tauto].
  destruct (decide (rhs ⊆ R)) as [Hr|Hr];
    [rewrite (bool_decide_true (rhs ⊆ R)) by done
    |rewrite (bool_decide_false (rhs ⊆ R)) by done; simpl; left; tauto].
  simpl. case_bool_decide as Hclean; [left; tauto|].
  case_bool_decide as Hkey; simpl; [left; tauto|].
  right. split; [done|]. split; [done|].
  destruct (is_proper_subset_of_key lhs keys); simpl;
    case_bool_decide; simpl; done.
Qed.

Lemma nf_step_append acc (d : fd) :
  nf_step R fds keys prime acc d = nf_append acc (contribution d).
Proof.
  destruct d as [lhs rhs]. unfold nf_contribution, nf_append, nf_step.
  destruct acc as [v2 v3 vb]. simpl.
  destruct (negb (bool_decide (lhs ⊆ R)) || negb (bool_decide (rhs ⊆ R)));
    simpl; [by rewrite !app_nil_r|].
  case_bool_decide; simpl; [by rewrite !app_nil_r|].
  case_bool_decide; simpl; [by rewrite !app_nil_r|].
  destruct (is_proper_subset_of_key lhs keys); simpl;
    case_bool_decide; simpl; by rewrite ?app_nil_r.
Qed.

Lemma nf_fold_elem (proj : nf_lists → list violation) (l : list fd) acc v :
  (∀ a b, proj (nf_append a b) = proj a ++ proj b) →
  v ∈ proj (fold_left (nf_step R fds keys prime) l acc)
  ↔ v ∈ proj acc ∨ ∃ d, d ∈ l ∧ v ∈ proj (contribution d).
Proof.
  intros Hproj. revert acc. induction l as [|d l IH]; intros acc; simpl.
  - split; [auto|]. intros [?|(d & Hd & _)]; [done|]. by apply elem_of_nil in Hd.
  - rewrite IH, nf_step_append, Hproj, elem_of_app. split.
    + intros [[?|?]|(d' & Hd' & ?)]; [by left|right..].
      * exists d. split; [by left|done].
      * exists d'. split; [by right|done].
    + intros [?|(d' & [->|Hd']%elem_of_cons & ?)]; [by left; left|by left; right|].
      right. eauto.
Qed.

Lemma elem_of_violations_bcnf v :
  v ∈ violations_bcnf lists
  ↔ ∃ d, d ∈ fds ∧ bcnf_violating R fds d
         ∧ v = (d.1, d.2 ∖ d.1, "LHS is not a superkey").
Proof.
  unfold nf_violations. rewrite (nf_fold_elem violations_bcnf) by done. simpl.
  split.
  - intros [?%elem_of_nil|(d & Hd & Hv)]; [done|]. exists d. split; [done|].
    destruct (nf_contribution_cases d) as [[_ Hc]|(Hviol & Hc & _)];
      rewrite Hc in Hv.
    + by apply elem_of_nil in Hv.
    + by apply list_elem_of_singleton in Hv.
  - intros (d & Hd & Hviol & ->). right. exists d. split; [done|].
    destruct (nf_contribution_cases d) as [[Hno _]|(_ & -> & _)]; [done|].
    by apply list_elem_of_singleton.
Qed.

Lemma elem_of_violations_2nf v :
  v ∈ violations_2nf lists
  ↔ ∃ d, d ∈ fds ∧ bcnf_violating R fds d
         ∧ (∃ key, key ∈ keys ∧ d.1 ⊂ key)
         ∧ d.2 ∖ d.1 ∖ prime ≠ ∅
         ∧ v = (d.1, d.2 ∖ d.1 ∖ prime, "Partial dependency").
Proof.
  unfold nf_violations. rewrite (nf_fold_elem violations_2nf) by done. simpl.
  split.
  - intros [?%elem_of_nil|(d & Hd & Hv)]; [done|]. exists d. split; [done|].
    destruct (nf_contribution_cases d) as [[_ Hc]|(Hviol & _ & Hc & _)];
      rewrite Hc in Hv; [by apply elem_of_nil in Hv|].
    destruct (is_proper_subset_of_key d.1 keys) eqn:Hp; simpl in Hv;
      [|by apply elem_of_nil in Hv].
    case_bool_decide as Hnp; simpl in Hv; [by apply elem_of_nil in Hv|].
    apply list_elem_of_singleton in Hv.
    by apply is_proper_subset_of_key_true in Hp.
  - intros (d & Hd & Hviol & Hp & Hnp & ->). right. exists d. split; [done|].
    destruct (nf_contribution_cases d) as [[Hno _]|(_ & _ & -> & _)]; [done|].
    apply is_proper_subset_of_key_true in Hp. rewrite Hp.
    rewrite bool_decide_false by done. simpl. by apply list_elem_of_singleton.
Qed.

Lemma elem_of_violations_3nf v :
  v ∈ violations_3nf lists
  ↔ ∃ d, d ∈ fds ∧ bcnf_violating R fds d
         ∧ (∀ key, key ∈ keys → ¬ d.1 ⊂ key)
         ∧ d.2 ∖ d.1 ∖ prime ≠ ∅
         ∧ v = (d.1, d.2 ∖ d.1 ∖ prime, "Transitive dependency").
Proof.
  unfold nf_violations. rewrite (nf_fold_elem violations_3nf) by done. simpl.
  split.
  - intros [?%elem_of_nil|(d & Hd & Hv)]; [done|]. exists d. split; [done|].
    destruct (nf_contribution_cases d) as [[_ Hc]|(Hviol & _ & _ & Hc)];
      rewrite Hc in Hv; [by apply elem_of_nil in Hv|].
    destruct (is_proper_subset_of_key d.1 keys) eqn:Hp; simpl in Hv;
      [by apply elem_of_nil in Hv|].
    case_bool_decide as Hnp; simpl in Hv; [by apply elem_of_nil in Hv|].
    apply list_elem_of_singleton in Hv. split; [done|]. split; [|by split].
    intros key Hkey Hsub.
    assert (is_proper_subset_of_key d.1 keys = true) as Ht
      by (apply is_proper_subset_of_key_true; eauto).
    congruence.
  - intros (d & Hd & Hviol & Hp & Hnp & ->). right. exists d. split; [done|].
    destruct (nf_contribution_cases d) as [[Hno _]|(_ & _ & _ & ->)]; [done|].
    destruct (is_proper_subset_of_key d.1 keys) eqn:Ht.
    + apply is_proper_subset_of_key_true in Ht as (key & Hkey & Hsub).
      by destruct (Hp key Hkey).
    + rewrite bool_decide_false by done. simpl. by apply list_elem_of_singleton.
Qed.

Lemma list_empty_iff {A} (l : list A) : l = [] ↔ ∀ x, x ∉ l.
Proof.
  split; [intros -> x; apply not_elem_of_nil|].
  destruct l as [|a l]; [done|]. intros H. destruct (H a). by left.
Qed.

Lemma verdict_cases :
  (verdict = "1NF" ∧ violations_2nf lists ≠ []
   ∧ (determine_normal_form R fds keys).2 = violations_2nf lists)
  ∨ (verdict = "2NF" ∧ violations_2nf lists = [] ∧ violations_3nf lists ≠ []
     ∧ (determine_normal_form R fds keys).2 = violations_3nf lists)
  ∨ (verdict = "3NF" ∧ violations_2nf lists = [] ∧ violations_3nf lists = []
     ∧ violations_bcnf lists ≠ []
     ∧ (determine_normal_form R fds keys).2 = violations_bcnf lists)
  ∨ (verdict = "BCNF" ∧ violations_2nf lists = [] ∧ violations_3nf lists = []
     ∧ violations_bcnf lists = []
     ∧ (determine_normal_form R fds keys).2 = []).
Proof.
  unfold determine_normal_form.
  destruct (violations_2nf lists); simpl; [|by left].
  destruct (violations_3nf lists); simpl; [|by right; left].
  destruct (violations_bcnf lists); simpl; [|by right; right; left].
  by right; right; right.
Qed.

(** No 2NF and no 3NF violation: every violating dependency has all its
    proper dependents inside some key. *)
Lemma no_2nf_violation_iff :
  violations_2nf lists = []
  ↔ ∀ d, d ∈ fds → bcnf_violating R fds d →
         (∃ key, key ∈ keys ∧ d.1 ⊂ key) → d.2 ∖ d.1 ⊆ prime.
Proof.
  rewrite list_empty_iff. split.
  - intros Hnone d Hd Hviol Hp a Ha.
    destruct (decide (a ∈ prime)) as [|Hna]; [done|].
    destruct (Hnone (d.1, d.2 ∖ d.1 ∖ prime, "Partial dependency")).
    apply elem_of_violations_2nf. exists d.
    split; [done|]. split; [done|]. split; [done|]. split; [|done].
    intros Hempty. assert (a ∈ d.2 ∖ d.1 ∖ prime) as Hin by set_solver.
    rewrite Hempty in Hin. by apply not_elem_of_empty in Hin.
  - intros Hall v (d & Hd & Hviol & Hp & Hnp & _)%elem_of_violations_2nf.
    apply Hnp. specialize (Hall d Hd Hviol Hp). set_solver.
Qed.

Lemma no_3nf_violation_iff :
  violations_3nf lists = []
  ↔ ∀ d, d ∈ fds → bcnf_violating R fds d →
         (∀ key, key ∈ keys → ¬ d.1 ⊂ key) → d.2 ∖ d.1 ⊆ prime.
Proof.
  rewrite list_empty_iff. split.
  - intros Hnone d Hd Hviol Hp a Ha.
    destruct (decide (a ∈ prime)) as [|Hna]; [done|].
    destruct (Hnone (d.1, d.2 ∖ d.1 ∖ prime, "Transitive dependency")).
    apply elem_of_violations_3nf. exists d.
    split; [done|]. split; [done|]. split; [done|]. split; [|done].
    intros Hempty. assert (a ∈ d.2 ∖ d.1 ∖ prime) as Hin by set_solver.
    rewrite Hempty in Hin. by apply not_elem_of_empty in Hin.
  - intros Hall v (d & Hd & Hviol & Hp & Hnp & _)%elem_of_violations_3nf.
    apply Hnp. specialize (Hall d Hd Hviol Hp). set_solver.
Qed.

Lemma no_bcnf_violation_iff :
  violations_bcnf lists = [] ↔ ∀ d, d ∈ fds → ¬ bcnf_violating R fds d.
Proof.
  rewrite list_empty_iff. split.
  - intros Hnone d Hd Hviol.
    destruct (Hnone (d.1, d.2 ∖ d.1, "LHS is not a superkey")).
    apply elem_of_violations_bcnf. by exists d.
  - intros Hall v (d & Hd & Hviol & _)%elem_of_violations_bcnf.
    by apply (Hall d).
Qed.

Lemma proper_part_dec (lhs : gset string) :
  (∃ key, key ∈ keys ∧ lhs ⊂ key) ∨ (∀ key, key ∈ keys → ¬ lhs ⊂ key).
Proof.
  destruct (is_proper_subset_of_key lhs keys) eqn:Hp.
  - left. by apply is_proper_subset_of_key_true.
  - right. intros key Hkey Hsub.
    assert (is_proper_subset_of_key lhs keys = true) as Ht
      by (apply is_proper_subset_of_key_true; eauto).
    congruence.
Qed.

End classifier_facts.

Lemma bcnf_violating_alt (R : gset string) (fds : list fd) (lhs rhs : gset string) :
  bcnf_violating R fds (lhs, rhs)
  ↔ lhs ⊆ R ∧ rhs ⊆ R ∧ ¬ rhs ⊆ lhs ∧ ¬ R ⊆ attribute_closure lhs fds.
Proof.
  unfold bcnf_violating. simpl. split.
  - intros (? & ? & Hne & ?). repeat split; try done.
    intros Hsub. apply Hne. set_solver.
  - intros (? & ? & Hns & ?). repeat split; try done.
    intros Hempty. apply Hns. intros x Hx.
    destruct (decide (x ∈ lhs)) as [|Hnx]; [done|].
    assert (x ∈ rhs ∖ lhs) as Hin by set_solver.
    rewrite Hempty in Hin. by apply not_elem_of_empty in Hin.
Qed.

Lemma verdict_bcnf_iff (R : gset string) (fds : list fd)
    (keys : list (gset string)) :
  (determine_normal_form R fds keys).1.1 = "BCNF"
  ↔ ∀ d, d ∈ fds → ¬ bcnf_violating R fds d.
Proof.
  pose proof (no_bcnf_violation_iff R fds keys) as Hb. split.
  - intros Hv.
    destruct (verdict_cases R fds keys)
      as [[Hv' _]|[[Hv' _]|[[Hv' _]|(_ & _ & _ & Hnone & _)]]];
      try (rewrite Hv in Hv'; discriminate).
    by apply Hb.
  - intros Hno.
    destruct (verdict_cases R fds keys)
      as [(_ & Hne & _)|[(_ & _ & Hne & _)|[(_ & _ & _ & Hne & _)|[Hv _]]]];
      [exfalso..|done].
    + apply Hne, list_empty_iff.
      intros v (d & Hd & Hviol & _)%elem_of_violations_2nf. by apply (Hno d).
    + apply Hne, list_empty_iff.
      intros v (d & Hd & Hviol & _)%elem_of_violations_3nf. by apply (Hno d).
    + by apply Hne, Hb.
Qed.

(** X7. The verdict is ["BCNF"] exactly when every dependency that lies
    inside the relation and is not trivial has a determinant whose closure
    covers the relation; the candidate keys passed in play no part. *)
Theorem determine_normal_form_bcnf_iff
    (relation_attrs : gset string) (fds : list fd)
    (candidate_keys : list (gset string)) :
  (determine_normal_form relation_attrs fds candidate_keys).1.1 = "BCNF"
  ↔ ∀ lhs rhs, (lhs, rhs) ∈ fds →
      lhs ⊆ relation_attrs → rhs ⊆ relation_attrs → ¬ rhs ⊆ lhs →
      relation_attrs ⊆ attribute_closure lhs fds.
Proof.
  rewrite verdict_bcnf_iff. split.
  - intros Hno lhs rhs Hin Hl Hr Hnt.
    destruct (decide (relation_attrs ⊆ attribute_closure lhs fds)) as [|Hns];
      [done|].
    destruct (Hno (lhs, rhs) Hin). by apply bcnf_violating_alt.
  - intros Hall [lhs rhs] Hin (Hl & Hr & Hnt & Hns)%bcnf_violating_alt.
    apply Hns. by apply (Hall lhs rhs).
Qed.

(** X8. The verdict is ["3NF"] or ["BCNF"] exactly when every dependency
    inside the relation has a determinant whose closure covers the relation
    or has all its dependents outside the determinant in some candidate
    key. *)
Theorem determine_normal_form_3nf_iff
    (relation_attrs : gset string) (fds : list fd)
    (candidate_keys : list (gset string)) :
  ((determine_normal_form relation_attrs fds candidate_keys).1.1 = "3NF"
   ∨ (determine_normal_form relation_attrs fds candidate_keys).1.1 = "BCNF")
  ↔ ∀ lhs rhs, (lhs, rhs) ∈ fds →
      lhs ⊆ relation_attrs → rhs ⊆ relation_attrs →
      relation_attrs ⊆ attribute_closure lhs fds
      ∨ ∀ a, a ∈ rhs → a ∉ lhs → ∃ key, key ∈ candidate_keys ∧ a ∈ key.
Proof.
  pose proof (no_2nf_violation_iff relation_attrs fds candidate_keys) as H2.
  pose proof (no_3nf_violation_iff relation_attrs fds candidate_keys) as H3.
  split.
  - intros Hv lhs rhs Hin Hl Hr.
    destruct (decide (relation_attrs ⊆ attribute_closure lhs fds)) as [|Hns];
      [by left|right].
    intros a Ha Hna. apply elem_of_prime_attributes.
    assert (bcnf_violating relation_attrs fds (lhs, rhs)) as Hviol.
    { apply bcnf_violating_alt. repeat split; try done. intros Hsub.
      by apply Hna, Hsub. }
    assert (violations_2nf (nf_violations relation_attrs fds candidate_keys) = []
            ∧ violations_3nf (nf_violations relation_attrs fds candidate_keys) = [])
      as [Hn2 Hn3].
    { destruct (verdict_cases relation_attrs fds candidate_keys)
        as [[Hv' _]|[[Hv' _]|[(_ & ? & ? & _)|(_ & ? & ? & _)]]]; try done;
        destruct Hv as [Hv|Hv]; rewrite Hv in Hv'; discriminate. }
    destruct (proper_part_dec candidate_keys lhs) as [Hp|Hp].
    + apply (proj1 H2 Hn2 (lhs, rhs) Hin Hviol Hp). set_solver.
    + apply (proj1 H3 Hn3 (lhs, rhs) Hin Hviol Hp). set_solver.
  - intros Hall.
    assert (∀ d, d ∈ fds → bcnf_violating relation_attrs fds d →
                 d.2 ∖ d.1 ⊆ prime_attributes_of candidate_keys) as Hprime.
    { intros [lhs rhs] Hin Hviol a [Ha Hna]%elem_of_difference.
      pose proof Hviol as (Hl & Hr & _ & Hns)%bcnf_violating_alt.
      destruct (Hall lhs rhs Hin Hl Hr) as [|Hk]; [done|].
      apply elem_of_prime_attributes. by apply Hk. }
    destruct (verdict_cases relation_attrs fds candidate_keys)
      as [(_ & Hne & _)|[(_ & _ & Hne & _)|[[Hv _]|[Hv _]]]];
      [exfalso..|by left|by right].
    + apply Hne, H2. intros d Hd Hviol _. by apply Hprime.
    + apply Hne, H3. intros d Hd Hviol _. by apply Hprime.
Qed.

(** X9. The verdict is ["1NF"] exactly when some dependency inside the
    relation has a determinant that is a proper part of a candidate key and
    does not cover the relation, and a dependent outside the determinant
    that is in no candidate key. *)
Theorem determine_normal_form_1nf_iff
    (relation_attrs : gset string) (fds : list fd)
    (candidate_keys : list (gset string)) :
  (determine_normal_form relation_attrs fds candidate_keys).1.1 = "1NF"
  ↔ ∃ lhs rhs key a,
      (lhs, rhs) ∈ fds ∧ lhs ⊆ relation_attrs ∧ rhs ⊆ relation_attrs
      ∧ ¬ relation_attrs ⊆ attribute_closure lhs fds
      ∧ key ∈ candidate_keys ∧ lhs ⊂ key
      ∧ a ∈ rhs ∧ (a ∉ lhs) ∧ ∀ key', key' ∈ candidate_keys → a ∉ key'.
Proof.
  split.
  - intros Hv.
    destruct (verdict_cases relation_attrs fds candidate_keys)
      as [(_ & Hne & _)|[[Hv' _]|[[Hv' _]|[Hv' _]]]];
      try (rewrite Hv in Hv'; discriminate).
    destruct (violations_2nf (nf_violations relation_attrs fds candidate_keys))
      as [|v vs] eqn:Hl; [done|].
    assert (v ∈ violations_2nf (nf_violations relation_attrs fds candidate_keys))
      as Hin by (rewrite Hl; by left).
    apply elem_of_violations_2nf
      in Hin as ([lhs rhs] & Hd & Hviol & (key & Hkey & Hsub) & Hnp & _).
    apply set_choose_L in Hnp as [a Ha]. simpl in Ha, Hsub.
    apply bcnf_violating_alt in Hviol as (Hlhs & Hrhs & _ & Hns).
    apply elem_of_difference in Ha as [[Ha Hna]%elem_of_difference Hnp].
    exists lhs, rhs, key, a.
    split; [exact Hd|]. split; [exact Hlhs|]. split; [exact Hrhs|].
    split; [exact Hns|]. split; [exact Hkey|]. split; [exact Hsub|].
    split; [exact Ha|]. split; [exact Hna|].
    intros key' Hkey' Hak. apply Hnp, elem_of_prime_attributes. eauto.
  - intros (lhs & rhs & key & a & Hd & Hl & Hr & Hns & Hkey & Hsub & Ha & Hna & Hnk).
    destruct (verdict_cases relation_attrs fds candidate_keys)
      as [[Hv _]|Hother]; [done|exfalso].
    assert (violations_2nf (nf_violations relation_attrs fds candidate_keys) = [])
      as Hnone by (by destruct Hother as [(_ & ? & _)|[(_ & ? & _)|(_ & ? & _)]]).
    assert (bcnf_violating relation_attrs fds (lhs, rhs)) as Hviol.
    { apply bcnf_violating_alt. split; [done|]. split; [done|].
      split; [|done]. intros Hsub'. by apply Hna, Hsub'. }
    assert (a ∈ prime_attributes_of candidate_keys) as Hp.
    { apply (proj1 (no_2nf_violation_iff relation_attrs fds candidate_keys)
               Hnone (lhs, rhs) Hd Hviol); [by exists key|].
      apply elem_of_difference. by split. }
    apply elem_of_prime_attributes in Hp as (key' & Hkey' & Hak).
    by apply (Hnk key').
Qed.

(** X10. Every violation that [determine_normal_form] reports comes from a
    dependency inside the relation whose determinant does not cover the
    relation: its left side is that determinant, its right side is a
    non-empty part of the dependents outside the determinant, and the reason
    goes with the verdict.  With ["1NF"] the determinant is a proper part of
    a candidate key, with ["2NF"] of none, and in both cases the right side
    holds attributes of no candidate key only. *)
Theorem determine_normal_form_reports
    (relation_attrs : gset string) (fds : list fd)
    (candidate_keys : list (gset string))
    (lhs rhs : gset string) (reason : string) :
  (lhs, rhs, reason)
    ∈ (determine_normal_form relation_attrs fds candidate_keys).2 →
  (∃ rhs0, (lhs, rhs0) ∈ fds ∧ rhs0 ⊆ relation_attrs ∧ rhs ⊆ rhs0 ∖ lhs)
  ∧ lhs ⊆ relation_attrs ∧ rhs ≠ ∅
  ∧ ¬ relation_attrs ⊆ attribute_closure lhs fds
  ∧ (((determine_normal_form relation_attrs fds candidate_keys).1.1 = "1NF"
      ∧ reason = "Partial dependency"
      ∧ (∃ key, key ∈ candidate_keys ∧ lhs ⊂ key)
      ∧ ∀ a key, a ∈ rhs → key ∈ candidate_keys → a ∉ key)
     ∨ ((determine_normal_form relation_attrs fds candidate_keys).1.1 = "2NF"
        ∧ reason = "Transitive dependency"
        ∧ (∀ key, key ∈ candidate_keys → ¬ lhs ⊂ key)
        ∧ ∀ a key, a ∈ rhs → key ∈ candidate_keys → a ∉ key)
     ∨ ((determine_normal_form relation_attrs fds candidate_keys).1.1 = "3NF"
        ∧ reason = "LHS is not a superkey")).
Proof.
  assert (∀ a key, a ∈ rhs → rhs ## prime_attributes_of candidate_keys →
                   key ∈ candidate_keys → a ∉ key) as Hnot_prime.
  { intros a key Ha Hdisj Hkey Hak. apply (Hdisj a Ha).
    apply elem_of_prime_attributes. eauto. }
  intros Hin.
  destruct (verdict_cases relation_attrs fds candidate_keys)
    as [(Hv & _ & Hrep)|[(Hv & _ & _ & Hrep)|[(Hv & _ & _ & _ & Hrep)
       |(_ & _ & _ & _ & Hrep)]]];
    rewrite Hrep in Hin.
  - apply elem_of_violations_2nf
      in Hin as ([l r] & Hd & Hviol & Hp & Hnp & [= -> -> ->]).
    pose proof Hviol as (Hl & Hr & _ & Hns)%bcnf_violating_alt. simpl in *.
    split; [exists r; repeat split; [done..|set_solver]|].
    repeat split; try done. left. repeat split; try done.
    intros a key Ha. apply Hnot_prime; set_solver.
  - apply elem_of_violations_3nf
      in Hin as ([l r] & Hd & Hviol & Hp & Hnp & [= -> -> ->]).
    pose proof Hviol as (Hl & Hr & _ & Hns)%bcnf_violating_alt. simpl in *.
    split; [exists r; repeat split; [done..|set_solver]|].
    repeat split; try done. right. left. repeat split; try done.
    intros a key Ha. apply Hnot_prime; set_solver.
  - apply elem_of_violations_bcnf in Hin as ([l r] & Hd & Hviol & [= -> -> ->]).
    pose proof Hviol as (Hl & Hr & _ & Hns)%bcnf_violating_alt.
    destruct Hviol as (_ & _ & Hne & _). simpl in *.
    split; [exists r; repeat split; done|].
    repeat split; try done. by right; right.
  - by apply elem_of_nil in Hin.
Qed.

Lemma determine_normal_form_reports_witness :
  (∃ rhs0, ({["GigID"]}, rhs0) ∈ ex_fds ∧ rhs0 ⊆ ex_attrs
           ∧ {["ClientID"; "FreelancerID"; "Title"; "Budget"]} ⊆ rhs0 ∖ {["GigID"]})
  ∧ {["GigID"]} ⊆ ex_attrs
  ∧ ({["ClientID"; "FreelancerID"; "Title"; "Budget"]} : gset string) ≠ ∅
  ∧ ¬ ex_attrs ⊆ attribute_closure {["GigID"]} ex_fds
  ∧ (((determine_normal_form ex_attrs ex_fds [ {["MilestoneID"]} ]).1.1 = "1NF"
      ∧ "Transitive dependency" = "Partial dependency"
      ∧ (∃ key, key ∈ [ ({["MilestoneID"]} : gset string) ] ∧ {["GigID"]} ⊂ key)
      ∧ ∀ a key,
          a ∈ ({["ClientID"; "FreelancerID"; "Title"; "Budget"]} : gset string) →
          key ∈ [ ({["MilestoneID"]} : gset string) ] → a ∉ key)
     ∨ ((determine_normal_form ex_attrs ex_fds [ {["MilestoneID"]} ]).1.1 = "2NF"
        ∧ "Transitive dependency" = "Transitive dependency"
        ∧ (∀ key, key ∈ [ ({["MilestoneID"]} : gset string) ] →
                  ¬ {["GigID"]} ⊂ key)
        ∧ ∀ a key,
            a ∈ ({["ClientID"; "FreelancerID"; "Title"; "Budget"]} : gset string) →
            key ∈ [ ({["MilestoneID"]} : gset string) ] → a ∉ key)
     ∨ ((determine_normal_form ex_attrs ex_fds [ {["MilestoneID"]} ]).1.1 = "3NF"
        ∧ "Transitive dependency" = "LHS is not a superkey")).
Proof.
  apply (determine_normal_form_reports ex_attrs ex_fds [ {["MilestoneID"]} ]
           {["GigID"]} {["ClientID"; "FreelancerID"; "Title"; "Budget"]}
           "Transitive dependency").
  compute_done.
Defined.

(** * Further properties of the decomposer *)

Lemma not_subseteq_witness (A C : gset string) :
  ¬ A ⊆ C → ∃ z, z ∈ A ∧ z ∉ C.
Proof.
  intros Hn. destruct (decide (A ∖ C = ∅)) as [Heq|Hne].
  - destruct Hn. intros x Hx. destruct (decide (x ∈ C)) as [|Hnx]; [done|].
    assert (x ∈ A ∖ C) as Hin by (apply elem_of_difference; by split).
    rewrite Heq in Hin. by apply not_elem_of_empty in Hin.
  - apply set_choose_L in Hne as [z [? ?]%elem_of_difference]. by exists z.
Qed.

Section decomposer_facts.

Variable fds : list fd.

Lemma decompose_while_preserves (P : decomp_state → Prop) :
  (∀ st schema rest,
     queue st = schema :: rest → P st → P (decompose_body fds st schema rest)) →
  ∀ turns st, P st → P (decompose_while turns fds st).
Proof.
  intros Hbody turns. induction turns as [|turns IH]; intros st HP; simpl;
    [done|].
  destruct (queue st) as [|schema rest] eqn:Hq; [done|].
  destruct (iterations st <? iteration_cap); [|done].
  by apply IH, Hbody.
Qed.

Lemma find_violation_None (pending : list fd) (A : gset string) :
  find_violation pending fds A = None
  ↔ ∀ lhs rhs, (lhs, rhs) ∈ pending → lhs ⊆ A →
      attribute_closure lhs fds ∩ A ⊆ lhs ∨ A ⊆ attribute_closure lhs fds.
Proof.
  induction pending as [|[l r] rest IH]; simpl.
  { split; [|done]. intros _ lhs rhs Hin. by apply elem_of_nil in Hin. }
  assert ((∀ lhs rhs, (lhs, rhs) ∈ (l, r) :: rest → lhs ⊆ A →
             attribute_closure lhs fds ∩ A ⊆ lhs
             ∨ A ⊆ attribute_closure lhs fds)
          ↔ ((l ⊆ A → attribute_closure l fds ∩ A ⊆ l
                       ∨ A ⊆ attribute_closure l fds)
             ∧ find_violation rest fds A = None)) as ->.
  { rewrite IH. split.
    - intros Hall. split.
      + apply (Hall l r). by left.
      + intros lhs rhs Hin. apply (Hall lhs rhs). by right.
    - intros [Hhead Hrest] lhs rhs [[= -> ->]|Hin]%elem_of_cons; [done|].
      by apply (Hrest lhs rhs). }
  case_bool_decide as Hl; simpl; [|tauto].
  case_bool_decide as Hdet.
  { split; [|tauto]. intros Hnone. split; [|done]. intros _. left.
    intros x Hx. destruct (decide (x ∈ l)) as [|Hnx]; [done|].
    assert (x ∈ attribute_closure l fds ∩ A ∖ l) as Hin
      by (apply elem_of_difference; by split).
    rewrite Hdet in Hin. by apply not_elem_of_empty in Hin. }
  case_bool_decide as Hkey; simpl.
  { split; [|tauto]. intros Hnone. split; [|done]. intros _. right.
    intros x Hx. by apply Hkey, elem_of_intersection in Hx as [? _]. }
  split; [done|]. intros [Hhead _]. exfalso. destruct (Hhead Hl) as [Hsub|Hsub].
  - apply Hdet. apply set_eq. intros x. split.
    + intros [Hx Hnx]%elem_of_difference. by destruct Hnx; apply Hsub.
    + by intros ?%not_elem_of_empty.
  - apply Hkey. intros x Hx. apply elem_of_intersection. split; [|done].
    by apply Hsub.
Qed.

(** How a violation cuts the schema [A]. *)
Lemma violation_cut (A X Y : gset string) :
  find_violation fds fds A = Some (X, Y) →
  X ∪ Y = attribute_closure X fds ∩ A
  ∧ A ∖ (Y ∖ X) = A ∖ Y
  ∧ (∀ a, a ∈ A ↔ a ∈ X ∪ Y ∨ a ∈ A ∖ (Y ∖ X))
  ∧ X ∪ Y ⊂ A ∧ A ∖ (Y ∖ X) ⊂ A
  ∧ X ∪ Y ≠ ∅ ∧ A ∖ (Y ∖ X) ≠ ∅.
Proof.
  intros (_ & HX & -> & Hne & Hns)%find_violation_spec.
  pose proof (attribute_closure_extensive X fds) as Hext.
  set (C := attribute_closure X fds) in *.
  assert (∃ y, y ∈ C ∧ y ∈ A ∧ y ∉ X) as (y & HyC & HyA & HyX).
  { apply set_choose_L in Hne as [y Hy]. exists y.
    apply elem_of_difference in Hy as [[? ?]%elem_of_intersection ?]. done. }
  assert (∃ z, z ∈ A ∧ z ∉ C) as (z & HzA & HzC).
  { destruct (decide (A ⊆ C)) as [Hsub|Hnsub].
    - destruct Hns. intros x Hx. apply elem_of_intersection. split; [|done].
      by apply Hsub.
    - by apply not_subseteq_witness. }
  assert (X ∪ (C ∩ A ∖ X) = C ∩ A) as Hcut1.
  { apply set_eq. intros a. rewrite elem_of_union, elem_of_difference,
      !elem_of_intersection. split.
    - intros [Ha|[[? ?] _]]; [|done]. split; [by apply Hext|by apply HX].
    - intros [? ?]. destruct (decide (a ∈ X)); [by left|by right]. }
  assert (A ∖ (C ∩ A ∖ X ∖ X) = A ∖ (C ∩ A ∖ X)) as Hcut2.
  { apply set_eq. intros a. rewrite !elem_of_difference. split.
    - intros [? Hn]. split; [done|]. intros [? ?]. apply Hn. done.
    - intros [? Hn]. split; [done|]. intros [[? ?] ?]. apply Hn. done. }
  split; [done|]. split; [done|]. rewrite Hcut1, Hcut2.
  split; [|split; [|split; [|split]]].
  - intros a. rewrite elem_of_difference, elem_of_difference,
      !elem_of_intersection. split.
    + intros Ha. destruct (decide (a ∈ C)) as [HaC|HaC].
      * by left.
      * right. split; [done|]. by intros [[? ?] _].
    + intros [[_ ?]|[? _]]; done.
  - apply strict_spec_alt. split.
    + intros a [_ ?]%elem_of_intersection. done.
    + intros Heq. apply HzC. rewrite <- Heq in HzA.
      by apply elem_of_intersection in HzA as [? _].
  - apply strict_spec_alt. split.
    + intros a [? _]%elem_of_difference. done.
    + intros Heq. rewrite <- Heq in HyA.
      apply elem_of_difference in HyA as [HyA Hn]. apply Hn.
      apply elem_of_difference. split; [|done].
      by apply elem_of_intersection.
  - intros Heq. assert (y ∈ C ∩ A) as Hy by by apply elem_of_intersection.
    rewrite Heq in Hy. by apply not_elem_of_empty in Hy.
  - intros Heq. assert (z ∈ A ∖ (C ∩ A ∖ X)) as Hz.
    { apply elem_of_difference. split; [done|].
      by intros [[? _]%elem_of_intersection _]%elem_of_difference. }
    rewrite Heq in Hz. by apply not_elem_of_empty in Hz.
Qed.

Lemma decompose_body_final_bcnf st schema rest :
  queue st = schema :: rest →
  Forall (λ s, find_violation fds fds (attrs s) = None) (final_schemas st) →
  Forall (λ s, find_violation fds fds (attrs s) = None)
         (final_schemas (decompose_body fds st schema rest)).
Proof.
  intros _ Hfin. unfold decompose_body.
  destruct (find_violation fds fds (attrs schema)) as [[X Y]|] eqn:Hv;
    simpl; [done|].
  apply Forall_app. split; [done|]. by apply Forall_singleton.
Qed.

Lemma decompose_body_cover (R : gset string) st schema rest :
  queue st = schema :: rest →
  (∀ a, a ∈ R ↔ ∃ s, s ∈ live_schemas st ∧ a ∈ attrs s) →
  ∀ a, a ∈ R
       ↔ ∃ s, s ∈ live_schemas (decompose_body fds st schema rest)
              ∧ a ∈ attrs s.
Proof.
  intros Hq Hcov a. rewrite (Hcov a). unfold live_schemas. rewrite Hq.
  unfold decompose_body.
  destruct (find_violation fds fds (attrs schema)) as [[X Y]|] eqn:Hv; simpl.
  - apply violation_cut in Hv as (_ & _ & Hsplit & _). split.
    + intros (s & [Hs|[->|Hs]%elem_of_cons]%elem_of_app & Ha).
      * exists s. split; [|done]. apply elem_of_app. by left.
      * apply Hsplit in Ha as [Ha|Ha].
        -- exists (Schema (name schema +:+ "_1") (X ∪ Y)). split; [|done].
           apply elem_of_app. right. apply elem_of_app. right. by left.
        -- exists (Schema (name schema +:+ "_2") (attrs schema ∖ (Y ∖ X))).
           split; [|done].
           apply elem_of_app. right. apply elem_of_app. right. right. by left.
      * exists s. split; [|done]. apply elem_of_app. right.
        apply elem_of_app. by left.
    + intros (s & [Hs|[Hs|Hs]%elem_of_app]%elem_of_app & Ha).
      * exists s. split; [|done]. apply elem_of_app. by left.
      * exists s. split; [|done]. apply elem_of_app. right. by right.
      * exists schema. split; [apply elem_of_app; right; by left|].
        apply Hsplit.
        apply elem_of_cons in Hs as [->|Hs]; [by left|].
        apply list_elem_of_singleton in Hs as ->. by right.
  - split.
    + intros (s & [Hs|[Hs|Hs]%elem_of_cons]%elem_of_app & Ha);
        exists s; (split; [|done]).
      * apply elem_of_app. left. apply elem_of_app. by left.
      * rewrite Hs. apply elem_of_app. left. apply elem_of_app. right. by left.
      * apply elem_of_app. by right.
    + intros (s & [[Hs|Hs]%elem_of_app|Hs]%elem_of_app & Ha);
        exists s; (split; [|done]).
      * apply elem_of_app. by left.
      * apply list_elem_of_singleton in Hs as ->. apply elem_of_app. right.
        by left.
      * apply elem_of_app. right. by right.
Qed.

Lemma decompose_body_shrinks st schema rest :
  queue st = schema :: rest →
  Forall (step_shrinks fds) (steps st) →
  Forall (step_shrinks fds) (steps (decompose_body fds st schema rest)).
Proof.
  intros _ Hst. unfold decompose_body.
  destruct (find_violation fds fds (attrs schema)) as [[X Y]|] eqn:Hv;
    simpl; [|done].
  apply Forall_app. split; [done|]. apply Forall_singleton.
  pose proof Hv as (_ & _ & HY & _)%find_violation_spec.
  apply violation_cut in Hv as (Hc1 & Hc2 & _ & Hs1 & Hs2 & Hn1 & Hn2).
  eexists _, _. split; [done|]. simpl.
  split; [done|]. split; [done|]. split; [done|]. split; [done|].
  split; [done|]. done.
Qed.

Lemma queue_weight_app q1 q2 :
  queue_weight (q1 ++ q2) = queue_weight q1 + queue_weight q2.
Proof.
  induction q1 as [|s q1 IH]; simpl; [done|]. rewrite IH. lia.
Qed.

Lemma schema_weight_pos s : 1 ≤ schema_weight s.
Proof. unfold schema_weight. lia. Qed.

Lemma schema_weight_split (A A1 A2 : gset string) n1 n2 :
  A1 ⊂ A → A2 ⊂ A → A1 ≠ ∅ → A2 ≠ ∅ →
  schema_weight (Schema n1 A1) + schema_weight (Schema n2 A2) + 1
  ≤ Nat.max 1 (2 ^ size A - 1).
Proof.
  intros Hs1%subset_size Hs2%subset_size Hn1 Hn2.
  assert (size A1 ≠ 0) as Hp1.
  { intros H0%size_empty_inv. by apply Hn1, leibniz_equiv. }
  assert (size A2 ≠ 0) as Hp2.
  { intros H0%size_empty_inv. by apply Hn2, leibniz_equiv. }
  unfold schema_weight. simpl.
  destruct (size A) as [|n] eqn:HA; [lia|].
  assert (2 ^ size A1 ≤ 2 ^ n) by (apply Nat.pow_le_mono_r; lia).
  assert (2 ^ size A2 ≤ 2 ^ n) by (apply Nat.pow_le_mono_r; lia).
  assert (2 ^ 1 ≤ 2 ^ size A1) as Hl1 by (apply Nat.pow_le_mono_r; lia).
  assert (2 ^ 1 ≤ 2 ^ size A2) as Hl2 by (apply Nat.pow_le_mono_r; lia).
  rewrite Nat.pow_succ_r'. simpl in Hl1, Hl2. lia.
Qed.

Lemma decompose_body_weight st schema rest :
  queue st = schema :: rest →
  queue_weight (queue (decompose_body fds st schema rest)) + 1
  ≤ queue_weight (queue st).
Proof.
  intros Hq. rewrite Hq. unfold decompose_body.
  destruct (find_violation fds fds (attrs schema)) as [[X Y]|] eqn:Hv; simpl.
  - apply violation_cut in Hv as (_ & _ & _ & Hs1 & Hs2 & Hn1 & Hn2).
    rewrite queue_weight_app. simpl.
    pose proof (schema_weight_split (attrs schema) _ _
                  (name schema +:+ "_1") (name schema +:+ "_2")
                  Hs1 Hs2 Hn1 Hn2) as Hw.
    fold (schema_weight schema) in Hw. lia.
  - pose proof (schema_weight_pos schema). lia.
Qed.

Lemma queue_weight_cons s q :
  queue_weight (s :: q) = schema_weight s + queue_weight q.
Proof. reflexivity. Qed.

Lemma decompose_body_iterations st schema rest :
  iterations (decompose_body fds st schema rest) = iterations st + 1.
Proof.
  unfold decompose_body.
  by destruct (find_violation fds fds (attrs schema)) as [[X Y]|].
Qed.

(** With enough turns left for the weight of the queue, the loop empties
    the queue. *)
Lemma decompose_while_empties turns st :
  queue_weight (queue st) ≤ turns →
  iterations st + queue_weight (queue st) ≤ iteration_cap →
  queue (decompose_while turns fds st) = [].
Proof.
  revert st. induction turns as [|turns IH]; intros st Hturns Hcap.
  - destruct (queue st) as [|s q] eqn:Hq; [by simpl; rewrite Hq|].
    rewrite queue_weight_cons in Hturns.
    pose proof (schema_weight_pos s). lia.
  - simpl. destruct (queue st) as [|s q] eqn:Hq; [done|].
    pose proof (decompose_body_weight st s q Hq) as Hw.
    pose proof (schema_weight_pos s) as Hpos.
    rewrite Hq, queue_weight_cons in Hw.
    rewrite queue_weight_cons in Hturns, Hcap.
    destruct (Nat.ltb_spec (iterations st) iteration_cap) as [Hlt|Hge]; [|lia].
    apply IH; [lia|]. rewrite decompose_body_iterations. lia.
Qed.

End decomposer_facts.

Lemma decompose_exit_cover (relation_name : string)
    (relation_attrs : gset string) (fds : list fd) :
  ∀ a, a ∈ relation_attrs
       ↔ ∃ s, s ∈ live_schemas (decompose_exit relation_name relation_attrs fds)
              ∧ a ∈ attrs s.
Proof.
  apply (decompose_while_preserves fds
           (λ st, ∀ a, a ∈ relation_attrs
                       ↔ ∃ s, s ∈ live_schemas st ∧ a ∈ attrs s)).
  - intros st schema rest. apply decompose_body_cover.
  - intros a. unfold live_schemas. simpl. split.
    + intros Ha. exists (Schema relation_name relation_attrs).
      split; [by left|done].
    + intros (s & ->%list_elem_of_singleton & Ha). done.
Qed.

Lemma decompose_exit_unfold (relation_name : string)
    (relation_attrs : gset string) (fds : list fd) :
  decompose_exit relation_name relation_attrs fds
  = decompose_while 49 fds
      (decompose_body fds
         (DecompState [] [] [Schema relation_name relation_attrs] 0)
         (Schema relation_name relation_attrs) []).
Proof. reflexivity. Qed.

Lemma decompose_while_done turns fds st :
  queue st = [] → decompose_while turns fds st = st.
Proof. intros Hq. destruct turns; simpl; [done|by rewrite Hq]. Qed.

Lemma decompose_body_root (relation_name : string)
    (relation_attrs : gset string) (fds : list fd) :
  let root := Schema relation_name relation_attrs in
  let first := decompose_body fds (DecompState [] [] [root] 0) root [] in
  match find_violation fds fds relation_attrs with
  | Some _ => steps first ≠ []
  | None => first = DecompState [] [root] [] 1
  end.
Proof.
  unfold decompose_body. simpl.
  by destruct (find_violation fds fds relation_attrs) as [[X Y]|].
Qed.

(** No step is recorded exactly when the relation itself has no violating
    dependency; the relation is then the one final schema. *)
Lemma decompose_steps_nil_iff (relation_name : string)
    (relation_attrs : gset string) (fds : list fd) :
  ((decompose_to_bcnf relation_name relation_attrs fds).1 = []
   ↔ find_violation fds fds relation_attrs = None)
  ∧ (find_violation fds fds relation_attrs = None →
     decompose_to_bcnf relation_name relation_attrs fds
     = ([], [Schema relation_name relation_attrs])).
Proof.
  pose proof (decompose_body_root relation_name relation_attrs fds) as Hroot.
  unfold decompose_to_bcnf. rewrite decompose_exit_unfold.
  cbv zeta in Hroot.
  destruct (find_violation fds fds relation_attrs) as [[X Y]|] eqn:Hv.
  - split; [|done]. split; [|done]. intros Hnil. exfalso. revert Hnil.
    change (steps (decompose_while 49 fds
                     (decompose_body fds
                        (DecompState [] []
                           [Schema relation_name relation_attrs] 0)
                        (Schema relation_name relation_attrs) [])) ≠ []).
    apply (decompose_while_preserves fds (λ st, steps st ≠ [])); [|done].
    intros st schema rest _ Hne. unfold decompose_body.
    destruct (find_violation fds fds (attrs schema)) as [[X' Y']|];
      simpl; [|done].
    intros Happ. apply app_eq_nil in Happ as [_ ?]. done.
  - rewrite Hroot, decompose_while_done by done. done.
Qed.

Lemma find_violation_None_no_bcnf_violating (R : gset string) (fds : list fd) :
  find_violation fds fds R = None → ∀ d, d ∈ fds → ¬ bcnf_violating R fds d.
Proof.
  intros Hnone [lhs rhs] Hin (Hl & Hr & Hnt & Hns)%bcnf_violating_alt.
  destruct (proj1 (find_violation_None fds fds R) Hnone lhs rhs Hin Hl)
    as [Hsub|Hsub]; [|done].
  apply Hnt. intros x Hx. apply Hsub. apply elem_of_intersection. split.
  - apply (closed_under_elem fds _ (lhs, rhs)
             (attribute_closure_closed lhs fds) Hin); [|done].
    apply attribute_closure_extensive.
  - by apply Hr.
Qed.

Lemma no_bcnf_violating_find_violation_None (R : gset string) (fds : list fd) :
  (∀ d : fd, d ∈ fds → d.1 ⊆ R ∧ d.2 ⊆ R) →
  (∀ d, d ∈ fds → ¬ bcnf_violating R fds d) →
  find_violation fds fds R = None.
Proof.
  intros Hwithin Hno. apply find_violation_None. intros lhs rhs Hin Hl.
  destruct (decide (R ⊆ attribute_closure lhs fds)) as [|Hns]; [by right|left].
  destruct (decide (closed_under fds lhs)) as [Hcl|Hncl].
  { etrans; [|apply (attribute_closure_least lhs fds lhs); done].
    intros x [? _]%elem_of_intersection. done. }
  exfalso. apply not_Forall_Exists in Hncl; [|apply _].
  apply Exists_exists in Hncl as ([l r] & Hd & Hfire). simpl in Hfire.
  destruct (decide (l ⊆ lhs)) as [Hll|Hll]; [|by destruct Hfire].
  destruct (Hwithin (l, r) Hd) as [Hlr Hrr]. simpl in Hlr, Hrr.
  apply (Hno (l, r) Hd). apply bcnf_violating_alt.
  split; [done|]. split; [done|]. split.
  - intros Hrl. apply Hfire. intros _. by etrans.
  - intros Hcov. apply Hns. etrans; [exact Hcov|].
    by apply attribute_closure_mono.
Qed.

(** X11. Every schema that [decompose_to_bcnf] returns as final is in BCNF
    for the decomposer: a dependency whose determinant lies in the schema
    either determines nothing more inside the schema or determines the whole
    schema. *)
Theorem decompose_final_schemas_bcnf
    (relation_name : string) (relation_attrs : gset string) (fds : list fd)
    (s : relation_schema) :
  s ∈ (decompose_to_bcnf relation_name relation_attrs fds).2 →
  ∀ lhs rhs, (lhs, rhs) ∈ fds → lhs ⊆ attrs s →
    attribute_closure lhs fds ∩ attrs s ⊆ lhs
    ∨ attrs s ⊆ attribute_closure lhs fds.
Proof.
  intros Hs. simpl in Hs.
  assert (Forall (λ s, find_violation fds fds (attrs s) = None)
            (final_schemas (decompose_exit relation_name relation_attrs fds)))
    as Hall.
  { apply (decompose_while_preserves fds
             (λ st, Forall (λ s, find_violation fds fds (attrs s) = None)
                           (final_schemas st))).
    - apply decompose_body_final_bcnf.
    - simpl. constructor. }
  rewrite Forall_forall in Hall. by apply find_violation_None, Hall.
Qed.

Lemma decompose_final_schemas_bcnf_witness :
  Schema "GigMix_2" {["GigID"; "MilestoneID"; "Amount"]}
    ∈ (decompose_to_bcnf "GigMix" ex_attrs ex_fds).2
  ∧ ∀ lhs rhs, (lhs, rhs) ∈ ex_fds →
      lhs ⊆ attrs (Schema "GigMix_2" {["GigID"; "MilestoneID"; "Amount"]}) →
      attribute_closure lhs ex_fds
        ∩ attrs (Schema "GigMix_2" {["GigID"; "MilestoneID"; "Amount"]}) ⊆ lhs
      ∨ attrs (Schema "GigMix_2" {["GigID"; "MilestoneID"; "Amount"]})
        ⊆ attribute_closure lhs ex_fds.
Proof.
  split; [compute_done|].
  apply (decompose_final_schemas_bcnf "GigMix" ex_attrs ex_fds
           (Schema "GigMix_2" {["GigID"; "MilestoneID"; "Amount"]})).
  compute_done.
Defined.

(** X12. The decomposition loses no attribute and invents none: an attribute
    belongs to the relation exactly when it belongs to a schema that is final
    or still queued when the loop ends; when the queue is empty then, the
    returned final schemas cover exactly the relation. *)
Theorem decompose_covers_relation
    (relation_name : string) (relation_attrs : gset string) (fds : list fd) :
  let st := decompose_exit relation_name relation_attrs fds in
  (∀ a, a ∈ relation_attrs
        ↔ ∃ s, (s ∈ final_schemas st ∨ s ∈ queue st) ∧ a ∈ attrs s)
  ∧ (queue st = [] →
     ∀ a, a ∈ relation_attrs
          ↔ ∃ s, s ∈ (decompose_to_bcnf relation_name relation_attrs fds).2
                 ∧ a ∈ attrs s).
Proof.
  intros st.
  pose proof (decompose_exit_cover relation_name relation_attrs fds) as Hcov.
  fold st in Hcov. unfold live_schemas in Hcov. split.
  - intros a. rewrite (Hcov a). split.
    + intros (s & Hs%elem_of_app & Ha). by exists s.
    + intros (s & Hs & Ha). exists s. split; [by apply elem_of_app|done].
  - intros Hq a. rewrite (Hcov a), Hq, app_nil_r. done.
Qed.

(** X13. Every recorded step cuts its schema at the closure of the violating
    determinant: the first child holds what the determinant determines
    inside the schema, the second child the schema without what was
    determined; both are named after the schema, are non-empty and have
    fewer attributes than the schema. *)
Theorem decompose_children_shrink
    (relation_name : string) (relation_attrs : gset string) (fds : list fd)
    (s : step) :
  s ∈ (decompose_to_bcnf relation_name relation_attrs fds).1 →
  step_shrinks fds s.
Proof.
  intros Hs. simpl in Hs.
  assert (Forall (step_shrinks fds)
            (steps (decompose_exit relation_name relation_attrs fds))) as Hall.
  { apply (decompose_while_preserves fds
             (λ st, Forall (step_shrinks fds) (steps st))).
    - apply decompose_body_shrinks.
    - simpl. constructor. }
  rewrite Forall_forall in Hall. by apply Hall.
Qed.

Lemma decompose_children_shrink_witness : step_shrinks ex_fds ex_step.
Proof.
  apply (decompose_children_shrink "GigMix" ex_attrs ex_fds ex_step).
  compute_done.
Defined.

(** X14. When every dependency lies inside the relation, the decomposer
    records no step exactly when the classifier's verdict is ["BCNF"], and
    the relation itself is then the only final schema. *)
Theorem decompose_no_step_iff_bcnf
    (relation_name : string) (relation_attrs : gset string) (fds : list fd)
    (candidate_keys : list (gset string)) :
  (∀ lhs rhs, (lhs, rhs) ∈ fds →
     lhs ⊆ relation_attrs ∧ rhs ⊆ relation_attrs) →
  ((decompose_to_bcnf relation_name relation_attrs fds).1 = []
   ↔ (determine_normal_form relation_attrs fds candidate_keys).1.1 = "BCNF")
  ∧ ((decompose_to_bcnf relation_name relation_attrs fds).1 = [] →
     (decompose_to_bcnf relation_name relation_attrs fds).2
     = [Schema relation_name relation_attrs]).
Proof.
  intros Hwithin.
  destruct (decompose_steps_nil_iff relation_name relation_attrs fds)
    as [Hiff Hres].
  split.
  - rewrite Hiff, verdict_bcnf_iff. split.
    + apply find_violation_None_no_bcnf_violating.
    + apply no_bcnf_violating_find_violation_None.
      intros [lhs rhs] Hin. by apply Hwithin.
  - intros Hnil. apply Hiff in Hnil. by rewrite (Hres Hnil).
Qed.

Lemma decompose_no_step_iff_bcnf_witness :
  ((decompose_to_bcnf "Gigs" gigs_attrs gigs_fds).1 = []
   ↔ (determine_normal_form gigs_attrs gigs_fds [ {["GigID"]} ]).1.1 = "BCNF")
  ∧ ((decompose_to_bcnf "Gigs" gigs_attrs gigs_fds).1 = [] →
     (decompose_to_bcnf "Gigs" gigs_attrs gigs_fds).2
     = [Schema "Gigs" gigs_attrs]).
Proof.
  apply (decompose_no_step_iff_bcnf "Gigs" gigs_attrs gigs_fds [ {["GigID"]} ]).
  intros lhs rhs Hin. apply list_elem_of_singleton in Hin as [= -> ->].
  split; compute_done.
Defined.

(** X15. A relation with at most five attributes never reaches the cap: the
    loop ends with an empty queue, so the returned final schemas cover the
    relation. *)
Theorem decompose_small_relation_converges
    (relation_name : string) (relation_attrs : gset string) (fds : list fd) :
  size relation_attrs ≤ 5 →
  queue (decompose_exit relation_name relation_attrs fds) = []
  ∧ ∀ a, a ∈ relation_attrs
         ↔ ∃ s, s ∈ (decompose_to_bcnf relation_name relation_attrs fds).2
                ∧ a ∈ attrs s.
Proof.
  intros Hsize.
  assert (queue (decompose_exit relation_name relation_attrs fds) = []) as Hq.
  { apply decompose_while_empties; simpl.
    - unfold schema_weight, iteration_cap. simpl.
      assert (2 ^ size relation_attrs ≤ 2 ^ 5)
        by (apply Nat.pow_le_mono_r; lia).
      simpl in *. lia.
    - unfold schema_weight, iteration_cap. simpl.
      assert (2 ^ size relation_attrs ≤ 2 ^ 5)
        by (apply Nat.pow_le_mono_r; lia).
      simpl in *. lia. }
  split; [done|]. intros a.
  rewrite (decompose_exit_cover relation_name relation_attrs fds a).
  unfold live_schemas. by rewrite Hq, app_nil_r.
Qed.

Lemma decompose_small_relation_converges_witness :
  queue (decompose_exit "R" r5_attrs r5_fds) = []
  ∧ ∀ a, a ∈ r5_attrs
         ↔ ∃ s, s ∈ (decompose_to_bcnf "R" r5_attrs r5_fds).2 ∧ a ∈ attrs s.
Proof.
  apply (decompose_small_relation_converges "R" r5_attrs r5_fds).
  compute_done.
Defined.

(** ** Names of the schemas *)

Lemma prefix_free_perm (l l' : list string) :
  l ≡ₚ l' → prefix_free l → prefix_free l'.
Proof.
  induction 1 as [|x l l' Hperm IH|x y l|l l' l'' _ IH1 _ IH2]; simpl.
  - done.
  - intros [Hx Hl]. split; [by rewrite <- Hperm|by apply IH].
  - intros [Hy [Hx Hl]]. apply Forall_cons in Hy as [[Hyx Hxy] Hy].
    split; [|by split]. apply Forall_cons. by split.
  - intros Hl. by apply IH2, IH1.
Qed.

Lemma prefix_free_app_l (l1 l2 : list string) :
  prefix_free (l1 ++ l2) → prefix_free l1.
Proof.
  induction l1 as [|a l1 IH]; simpl; [done|].
  intros [Ha Hl]. apply Forall_app in Ha as [Ha _]. split; [done|by apply IH].
Qed.

Lemma prefix_free_NoDup (l : list string) : prefix_free l → NoDup l.
Proof.
  induction l as [|a l IH]; simpl; [constructor|].
  intros [Ha Hl]. constructor; [|by apply IH].
  intros Hin. rewrite Forall_forall in Ha. destruct (Ha a Hin) as [Hn _].
  apply Hn. exists "". by rewrite append_nil_r.
Qed.

Lemma is_prefix_extend (n t b : string) : is_prefix (n +:+ t) b → is_prefix n b.
Proof. intros [r ->]. exists (t +:+ r). by rewrite append_assoc. Qed.

Lemma is_prefix_of_extended (n t b : string) :
  is_prefix b (n +:+ t) → is_prefix b n ∨ is_prefix n b.
Proof.
  intros [r Hr].
  destruct (decide (String.length b ≤ String.length n)) as [Hle|Hgt].
  - left. symmetry in Hr.
    destruct (append_split b r n t Hr Hle) as (w & -> & _). by exists w.
  - right. destruct (append_split n t b r Hr) as (w & -> & _); [lia|].
    by exists w.
Qed.

(** Replacing a name by its two children keeps a list of names prefix-free. *)
Lemma prefix_free_children (n : string) (others : list string) :
  prefix_free (n :: others) →
  prefix_free ((n +:+ "_1") :: (n +:+ "_2") :: others).
Proof.
  simpl. intros [Hn Hothers]. rewrite Forall_forall in Hn.
  assert (∀ t, Forall (λ b, ¬ is_prefix (n +:+ t) b ∧ ¬ is_prefix b (n +:+ t))
                      others) as Hchild.
  { intros t. apply Forall_forall. intros b Hb. destruct (Hn b Hb) as [Hnb Hbn].
    split.
    - intros Hp. by apply Hnb, (is_prefix_extend n t).
    - intros Hp. by destruct (is_prefix_of_extended n t b Hp). }
  split; [|by split]. apply Forall_cons. split; [|done]. split.
  - intros [r Hr]. rewrite append_assoc in Hr. apply String.app_inj in Hr.
    by vm_compute in Hr.
  - intros [r Hr]. rewrite append_assoc in Hr. apply String.app_inj in Hr.
    by vm_compute in Hr.
Qed.

Lemma decompose_body_names fds st schema rest :
  queue st = schema :: rest →
  prefix_free (map name (live_schemas st)) →
  prefix_free (map name (live_schemas (decompose_body fds st schema rest))).
Proof.
  unfold live_schemas. intros -> Hpf. unfold decompose_body.
  destruct (find_violation fds fds (attrs schema)) as [[X Y]|]; simpl.
  - rewrite map_app in Hpf. simpl in Hpf. rewrite !map_app. simpl.
    apply (prefix_free_perm
             ([name schema +:+ "_1"; name schema +:+ "_2"]
              ++ (map name (final_schemas st) ++ map name rest))).
    + rewrite (app_assoc (map name (final_schemas st))).
      apply Permutation_app_comm.
    + apply prefix_free_children.
      apply (prefix_free_perm
               (map name (final_schemas st) ++ name schema :: map name rest));
        [|done].
      symmetry. apply Permutation_middle.
  - by rewrite <- app_assoc.
Qed.

(** X16. The final schemas that [decompose_to_bcnf] returns have pairwise
    different names, whatever the name of the relation is. *)
Theorem decompose_final_names_distinct
    (relation_name : string) (relation_attrs : gset string) (fds : list fd) :
  NoDup (map name (decompose_to_bcnf relation_name relation_attrs fds).2).
Proof.
  apply prefix_free_NoDup. simpl.
  apply (prefix_free_app_l _
           (map name (queue (decompose_exit relation_name relation_attrs fds)))).
  rewrite <- map_app.
  apply (decompose_while_preserves fds
           (λ st, prefix_free (map name (live_schemas st)))).
  - apply decompose_body_names.
  - simpl. split; [constructor|done].
Qed.

(** * Further properties of the text input *)

Section strip_facts.

Implicit Types (s t p q d : string) (back : bool).

Lemma rev_app_append s acc : String.rev_app s acc = String.rev s +:+ acc.
Proof.
  unfold String.rev. revert acc. induction s as [|c s IH]; intros acc; simpl.
  - done.
  - rewrite IH, (IH (String c "")), append_assoc. done.
Qed.

Lemma rev_cons c s : String.rev (String c s) = String.rev s +:+ String c "".
Proof. unfold String.rev at 1. simpl. apply rev_app_append. Qed.

Lemma rev_append s t : String.rev (s +:+ t) = String.rev t +:+ String.rev s.
Proof.
  induction s as [|c s IH].
  - by rewrite append_nil_l, append_nil_r.
  - by rewrite append_cons, !rev_cons, IH, append_assoc.
Qed.

Lemma rev_involutive s : String.rev (String.rev s) = s.
Proof.
  induction s as [|c s IH]; [done|].
  by rewrite rev_cons, rev_append, IH.
Qed.

Lemma strip_front_clean_id back s : front_clean back s → strip_front back s = s.
Proof.
  destruct s as [|c [|c1 [|c2 s3]]]; simpl; [done|..].
  - by intros [-> _].
  - by intros (-> & -> & _).
  - by intros (-> & -> & ->).
Qed.

Lemma space1_bytes c : is_space1 c = true → nat_of_ascii c ≤ 32.
Proof.
  unfold is_space1, byte_in.
  repeat first [rewrite orb_true_iff|rewrite andb_true_iff|rewrite Nat.leb_le].
  intros H. lia.
Qed.

Lemma space2_bytes c c1 :
  is_space2 c c1 = true → 128 ≤ nat_of_ascii c ∧ 128 ≤ nat_of_ascii c1.
Proof.
  unfold is_space2, byte_in.
  repeat first [rewrite orb_true_iff|rewrite andb_true_iff|rewrite Nat.leb_le].
  intros H. lia.
Qed.

Lemma space3_bytes c c1 c2 :
  is_space3 c c1 c2 = true →
  128 ≤ nat_of_ascii c ∧ 128 ≤ nat_of_ascii c1 ∧ 128 ≤ nat_of_ascii c2.
Proof.
  unfold is_space3, byte_in.
  repeat first [rewrite orb_true_iff|rewrite andb_true_iff|rewrite Nat.leb_le].
  intros H. lia.
Qed.

Lemma printable_differs x c :
  printable x → nat_of_ascii c ≤ 32 ∨ 128 ≤ nat_of_ascii c →
  Ascii.eqb x c = false.
Proof.
  unfold printable. intros Hx Hc.
  destruct (Ascii.eqb_spec x c) as [->|]; [lia|done].
Qed.

(** One look of [strip_front] at the front of [s]: nothing to drop, or a
    character dropped, which is not a printable one, and the rest still to
    strip. *)
Lemma strip_front_step back s :
  front_clean back s
  ∨ ∃ d t, d ≠ "" ∧ s = d +:+ t ∧ strip_front back s = strip_front back t
           ∧ ∀ x, printable x → has_char x d = false.
Proof.
  destruct s as [|c s1]; [by left|]. simpl.
  destruct (is_space1 c) eqn:H1.
  { right. exists (String c ""), s1. do 3 (split; [done|]).
    intros x Hx. simpl. apply space1_bytes in H1.
    rewrite (printable_differs x c Hx) by lia. done. }
  destruct s1 as [|c1 s2]; [by left|].
  destruct (if back then is_space2 c1 c else is_space2 c c1) eqn:H2.
  { right. exists (String c (String c1 "")), s2. do 3 (split; [done|]).
    intros x Hx. simpl.
    assert (128 ≤ nat_of_ascii c ∧ 128 ≤ nat_of_ascii c1) as [??].
    { destruct back; apply space2_bytes in H2; lia. }
    rewrite (printable_differs x c Hx), (printable_differs x c1 Hx) by lia.
    done. }
  destruct s2 as [|c2 s3]; [by left|].
  destruct (if back then is_space3 c2 c1 c else is_space3 c c1 c2) eqn:H3.
  { right. exists (String c (String c1 (String c2 ""))), s3.
    do 3 (split; [done|]). intros x Hx. simpl.
    assert (128 ≤ nat_of_ascii c ∧ 128 ≤ nat_of_ascii c1
            ∧ 128 ≤ nat_of_ascii c2) as (? & ? & ?).
    { destruct back; apply space3_bytes in H3; lia. }
    rewrite (printable_differs x c Hx), (printable_differs x c1 Hx),
      (printable_differs x c2 Hx) by lia.
    done. }
  by left.
Qed.

Lemma strip_front_spec back s :
  (∃ d, s = d +:+ strip_front back s) ∧ front_clean back (strip_front back s).
Proof.
  remember (String.length s) as n eqn:Hn.
  revert s Hn. induction (lt_wf n) as [n _ IH]. intros s ->.
  destruct (strip_front_step back s) as [Hclean|(d & t & Hd & -> & Ht & _)].
  - rewrite (strip_front_clean_id back s Hclean). split; [by exists ""|done].
  - rewrite Ht.
    destruct (IH (String.length t)) with (s := t) as [[d' Hd'] Hc]; [|done|].
    { rewrite length_append. destruct d; [done|]. simpl. lia. }
    split; [|done]. exists (d +:+ d'). rewrite append_assoc. by rewrite <- Hd'.
Qed.

Lemma strip_front_fixed back s :
  strip_front back (strip_front back s) = strip_front back s.
Proof. apply strip_front_clean_id, strip_front_spec. Qed.

Lemma front_clean_prefix back p q : front_clean back (p +:+ q) → front_clean back p.
Proof.
  destruct p as [|c [|c1 [|c2 p3]]]; [done|..];
    rewrite ?append_cons, ?append_nil_l.
  - destruct q as [|? [|? ?]]; simpl; tauto.
  - destruct q as [|? ?]; simpl; tauto.
  - simpl. tauto.
Qed.

(** [strip] keeps a middle part of its argument ... *)
Lemma strip_substring s : ∃ p q, s = p +:+ strip s +:+ q.
Proof.
  unfold strip.
  destruct (strip_front_spec false s) as [[d Hd] _].
  destruct (strip_front_spec true (String.rev (strip_front false s)))
    as [[d' Hd'] _].
  exists d, (String.rev d'). rewrite <- rev_append, <- Hd', rev_involutive.
  done.
Qed.

(** ... that has no white space left at either end. *)
Lemma strip_idempotent s : strip (strip s) = strip s.
Proof.
  unfold strip.
  destruct (strip_front_spec false s) as [_ Hclean].
  destruct (strip_front_spec true (String.rev (strip_front false s)))
    as [[d' Hd'] _].
  set (u := strip_front false s) in *.
  set (v := strip_front true (String.rev u)) in *.
  assert (front_clean false (String.rev v)) as Hfront.
  { apply (front_clean_prefix false _ (String.rev d')).
    by rewrite <- rev_append, <- Hd', rev_involutive. }
  rewrite (strip_front_clean_id false _ Hfront), rev_involutive.
  unfold v. by rewrite strip_front_fixed.
Qed.

Lemma contains_substring sep p t q :
  contains sep t = true → contains sep (p +:+ t +:+ q) = true.
Proof.
  intros (b & a & ->)%contains_true. apply contains_true.
  exists (p +:+ b), (a +:+ q). by rewrite !append_assoc.
Qed.

Lemma contains_strip sep s : contains sep s = false → contains sep (strip s) = false.
Proof.
  intros Hs. destruct (contains sep (strip s)) eqn:Hc; [|done].
  destruct (strip_substring s) as (p & q & Heq).
  rewrite Heq, (contains_substring sep p (strip s) q Hc) in Hs. done.
Qed.

Lemma find_sep_before_clean sep s b a :
  sep ≠ "" → find_sep sep s = Some (b, a) → contains sep b = false.
Proof.
  intros Hsep Hf. destruct (contains sep b) eqn:Hc; [|done]. exfalso.
  apply contains_true in Hc as (x & y & ->).
  pose proof Hf as Hs%find_sep_Some.
  destruct (find_sep_leftmost sep s x (y +:+ sep +:+ a))
    as (b' & a' & Hf' & Hlen).
  { by rewrite Hs, !append_assoc. }
  rewrite Hf in Hf'. injection Hf' as <- <-.
  rewrite !length_append in Hlen. destruct sep; [done|]. simpl in Hlen. lia.
Qed.

Lemma split_upto_parts n sep s p :
  sep ≠ "" → String.length s ≤ n → p ∈ split_upto n sep s →
  contains sep p = false ∧ ∃ u v, s = u +:+ p +:+ v.
Proof.
  intros Hsep. revert s. induction n as [|n IH]; intros s Hlen.
  - destruct s; [|simpl in Hlen; lia]. simpl.
    intros ->%list_elem_of_singleton. split.
    + unfold contains. by rewrite find_sep_empty.
    + by exists "", "".
  - rewrite split_upto_S. destruct (find_sep sep s) as [[b a]|] eqn:Hf.
    + pose proof (find_sep_shorter _ _ _ _ Hsep Hf) as Hlt.
      pose proof Hf as Hs%find_sep_Some.
      intros [->|Hp]%elem_of_cons.
      * split; [by apply (find_sep_before_clean sep s b a)|].
        exists "", (sep +:+ a). by rewrite append_nil_l.
      * assert (String.length a ≤ n) as Ha' by lia.
        destruct (IH a Ha' Hp) as [Hc (u & v & Ha)].
        split; [done|]. exists (b +:+ sep +:+ u), v.
        rewrite Hs. rewrite Ha at 1. by rewrite !append_assoc.
    + intros ->%list_elem_of_singleton. split.
      * unfold contains. by rewrite Hf.
      * exists "", "". by rewrite append_nil_l, append_nil_r.
Qed.

(** A part of [s.split(sep)] is a piece of [s] without [sep] in it. *)
Lemma split_parts sep s p :
  sep ≠ "" → p ∈ split sep s →
  contains sep p = false ∧ ∃ u v, s = u +:+ p +:+ v.
Proof. intros Hsep. by apply split_upto_parts. Qed.

Lemma split_nonempty sep s : split sep s ≠ [].
Proof.
  unfold split. destruct (String.length s) as [|n]; simpl; [done|].
  by destruct (find_sep sep s) as [[??]|].
Qed.

Lemma contains_piece sep s p u v :
  s = u +:+ p +:+ v → contains sep s = false → contains sep p = false.
Proof.
  intros -> Hs. destruct (contains sep p) eqn:Hc; [|done].
  by rewrite (contains_substring sep u p v Hc) in Hs.
Qed.

Lemma elem_of_attr_set a side :
  a ∈ attr_set side ↔ ∃ p, p ∈ split "," side ∧ a = strip p.
Proof.
  unfold attr_set. rewrite elem_of_list_to_set, list_elem_of_In, in_map_iff.
  split.
  - intros (p & <- & Hp). exists p. split; [by apply list_elem_of_In|done].
  - intros (p & Hp & ->). exists p. split; [done|by apply list_elem_of_In].
Qed.

Lemma attr_set_nonempty side : attr_set side ≠ ∅.
Proof.
  destruct (split "," side) as [|p ps] eqn:Hs; [by apply split_nonempty in Hs|].
  intros Hempty. assert (strip p ∈ attr_set side) as Hin.
  { apply elem_of_attr_set. exists p. split; [|done]. rewrite Hs. by left. }
  rewrite Hempty in Hin. by apply not_elem_of_empty in Hin.
Qed.

(** What an attribute of a parsed side looks like. *)
Lemma attr_set_attribute a side :
  a ∈ attr_set side →
  strip a = a ∧ contains "," a = false ∧ ∃ u v, side = u +:+ a +:+ v.
Proof.
  intros (p & Hp & ->)%elem_of_attr_set.
  destruct (split_parts "," side p) as [Hc (u & v & Hside)]; [done|done|].
  split; [apply strip_idempotent|]. split; [by apply contains_strip|].
  destruct (strip_substring p) as (u' & v' & Hp').
  exists (u +:+ u'), (v' +:+ v). rewrite Hside. rewrite Hp' at 1.
  by rewrite !append_assoc.
Qed.

End strip_facts.

Section parse_results.

Implicit Types (raw line fd_str : string) (fds : list fd).

(** Three parts or more: the separator occurs twice. *)
Lemma split_three_parts sep s :
  sep ≠ "" → 3 ≤ length (split sep s) →
  ∃ a b c, s = a +:+ sep +:+ b +:+ sep +:+ c.
Proof.
  intros Hsep. rewrite split_unfold by done.
  destruct (find_sep sep s) as [[b1 a1]|] eqn:Hf; [|simpl; lia].
  simpl. rewrite split_unfold by done.
  destruct (find_sep sep a1) as [[b2 a2]|] eqn:Hf2; [|simpl; lia].
  intros _. exists b1, b2, a2.
  apply find_sep_Some in Hf. apply find_sep_Some in Hf2.
  by rewrite Hf, Hf2.
Qed.

(** The three ways in which the body of the loop ends. *)
Lemma parse_fd_line_cases fds raw :
  parse_fd_line fds raw = inr fds
  ∨ (∃ l r, split (select_arrow (strip raw)) (strip raw) = [l; r]
            ∧ parse_fd_line fds raw = inr (fds ++ [(attr_set l, attr_set r)]))
  ∨ (parse_fd_line fds raw = inl ValueError
     ∧ 3 ≤ length (split (select_arrow (strip raw)) (strip raw))).
Proof.
  pose proof (select_arrow_nonempty (strip raw)) as Hsep.
  unfold parse_fd_line. cbv zeta. case_bool_decide as Hnil; [by left|].
  destruct (contains (select_arrow (strip raw)) (strip raw)) eqn:Hc; [|by left].
  pose proof (split_has_sep _ _ Hsep Hc) as Hge.
  destruct (split (select_arrow (strip raw)) (strip raw))
    as [|p1 [|p2 [|p3 ps]]] eqn:Hs; simpl in Hge; try lia.
  - right; left. by exists p1, p2.
  - right; right. split; [done|simpl; lia].
Qed.

Lemma parse_fd_lines_Forall (P : fd → Prop) fds lines fds' :
  Forall P fds →
  (∀ raw l r, raw ∈ lines →
     split (select_arrow (strip raw)) (strip raw) = [l; r] →
     P (attr_set l, attr_set r)) →
  parse_fd_lines fds lines = inr fds' → Forall P fds'.
Proof.
  revert fds. induction lines as [|raw rest IH]; intros fds Hfds Hnew; simpl.
  { by intros [= <-]. }
  destruct (parse_fd_line_cases fds raw) as [Hl|[(l & r & Hs & Hl)|[Hl _]]];
    rewrite Hl; [..|done].
  - apply IH; [done|]. intros raw' l r Hin. apply Hnew. by right.
  - apply IH.
    + apply Forall_app. split; [done|]. apply Forall_singleton.
      apply (Hnew raw); [by left|done].
    + intros raw' l' r' Hin. apply Hnew. by right.
Qed.

Lemma parse_fd_lines_raised fds lines e :
  parse_fd_lines fds lines = inl e →
  ∃ raw, raw ∈ lines
         ∧ 3 ≤ length (split (select_arrow (strip raw)) (strip raw)).
Proof.
  revert fds. induction lines as [|raw rest IH]; intros fds; simpl; [done|].
  destruct (parse_fd_line_cases fds raw) as [Hl|[(l & r & Hs & Hl)|[Hl Hlen]]];
    rewrite Hl.
  - intros (raw' & Hin & Hraw')%IH. exists raw'. split; [by right|done].
  - intros (raw' & Hin & Hraw')%IH. exists raw'. split; [by right|done].
  - intros _. exists raw. split; [by left|done].
Qed.

(** A side of a line that was cut in two: what its attributes look like. *)
Lemma parsed_side_attribute fd_str raw l r side a :
  raw ∈ split newline (strip fd_str) →
  split (select_arrow (strip raw)) (strip raw) = [l; r] →
  side ∈ [l; r] → a ∈ attr_set side →
  strip a = a ∧ contains "," a = false ∧ contains newline a = false
  ∧ contains "→" a = false.
Proof.
  intros Hraw Hs Hside Ha.
  pose proof (select_arrow_nonempty (strip raw)) as Hsep.
  destruct (split_parts newline (strip fd_str) raw) as [Hnl _]; [done|done|].
  apply contains_strip in Hnl.
  destruct (split_parts (select_arrow (strip raw)) (strip raw) side)
    as [Harrow (u & v & Hline)]; [done|by rewrite Hs|].
  destruct (attr_set_attribute a side Ha) as (Hstrip & Hcomma & u' & v' & Hpiece).
  split; [done|]. split; [done|]. split.
  - apply (contains_piece newline side a u' v' Hpiece).
    by apply (contains_piece newline (strip raw) side u v Hline).
  - unfold select_arrow in Harrow. destruct (contains "→" (strip raw)) eqn:Hc.
    + by apply (contains_piece "→" side a u' v' Hpiece).
    + apply (contains_piece "→" side a u' v' Hpiece).
      by apply (contains_piece "→" (strip raw) side u v Hline).
Qed.

End parse_results.

(** X17. Both sides of every dependency that [parse_fds] returns are
    non-empty sets, whatever the text was; with such dependencies nothing
    follows from the empty set of attributes. *)
Theorem parse_fds_sides_nonempty (fd_str : string) (fds : list fd) :
  parse_fds fd_str = inr fds →
  (∀ lhs rhs, (lhs, rhs) ∈ fds → lhs ≠ ∅ ∧ rhs ≠ ∅)
  ∧ attribute_closure ∅ fds = ∅.
Proof.
  intros Hparse.
  assert (Forall (λ d : fd, d.1 ≠ ∅ ∧ d.2 ≠ ∅) fds) as Hall.
  { apply (parse_fd_lines_Forall _ [] (split newline (strip fd_str)));
      [constructor| |done].
    intros raw l r _ _. split; apply attr_set_nonempty. }
  rewrite Forall_forall in Hall. split.
  - intros lhs rhs Hin. apply (Hall (lhs, rhs) Hin).
  - apply leibniz_equiv, equiv_empty.
    apply attribute_closure_least; [done|].
    apply closed_under_alt. intros d Hd Hsub.
    destruct (Hall d Hd) as [Hne _]. exfalso. apply Hne.
    apply leibniz_equiv, equiv_empty, Hsub.
Qed.

Lemma parse_fds_sides_nonempty_witness :
  (∀ lhs rhs, (lhs, rhs) ∈ ex_fds → lhs ≠ ∅ ∧ rhs ≠ ∅)
  ∧ attribute_closure ∅ ex_fds = ∅.
Proof. apply (parse_fds_sides_nonempty ex_text ex_fds). compute_done. Defined.

(** X18. Every attribute of a dependency that [parse_fds] returns is a
    stripped text (it neither begins nor ends with white space) without a
    comma, without a line break and without the arrow ["→"]. *)
Theorem parse_fds_attributes
    (fd_str : string) (fds : list fd) (lhs rhs : gset string) (a : string) :
  parse_fds fd_str = inr fds → (lhs, rhs) ∈ fds → a ∈ lhs ∪ rhs →
  strip a = a ∧ contains "," a = false ∧ contains newline a = false
  ∧ contains "→" a = false.
Proof.
  intros Hparse Hin Ha.
  assert (Forall (λ d : fd, ∀ x, x ∈ d.1 ∪ d.2 →
            strip x = x ∧ contains "," x = false ∧ contains newline x = false
            ∧ contains "→" x = false) fds) as Hall.
  { apply (parse_fd_lines_Forall _ [] (split newline (strip fd_str)));
      [constructor| |done].
    intros raw l r Hraw Hs x [Hx|Hx]%elem_of_union.
    - apply (parsed_side_attribute fd_str raw l r l); [done|done| |done].
      by left.
    - apply (parsed_side_attribute fd_str raw l r r); [done|done| |done].
      right. by left. }
  rewrite Forall_forall in Hall. apply (Hall (lhs, rhs) Hin a Ha).
Qed.

Lemma parse_fds_attributes_witness :
  strip "Amount" = "Amount" ∧ contains "," "Amount" = false
  ∧ contains newline "Amount" = false ∧ contains "→" "Amount" = false.
Proof.
  apply (parse_fds_attributes ex_text ex_fds
           {["MilestoneID"]} {["GigID"; "Amount"]} "Amount"); compute_done.
Defined.

(** X19. [parse_fds] raises exactly when some line of the stripped text,
    stripped itself, holds its separator at two places; otherwise it returns
    a list. *)
Theorem parse_fds_raises_iff (fd_str : string) :
  parse_fds fd_str = inl ValueError
  ↔ ∃ raw a b c,
      raw ∈ split newline (strip fd_str)
      ∧ strip raw = a +:+ select_arrow (strip raw) +:+ b
                    +:+ select_arrow (strip raw) +:+ c.
Proof.
  split.
  - intros (raw & Hin & Hlen)%parse_fd_lines_raised.
    destruct (split_three_parts _ _ (select_arrow_nonempty (strip raw)) Hlen)
      as (a & b & c & Hline).
    by exists raw, a, b, c.
  - intros (raw & a & b & c & Hin & Hline).
    apply (parse_fd_lines_raises _ _ raw Hin). intros fds.
    by apply (parse_fd_line_raises fds raw a b c).
Qed.

(** * Further properties of the relation input *)

Section relation_facts.

Implicit Types (s t p : string) (x c : ascii).

Lemma has_char_append x s t :
  has_char x (s +:+ t) = has_char x s || has_char x t.
Proof.
  induction s as [|c s IH]; [done|].
  rewrite append_cons. simpl. by rewrite IH, orb_assoc.
Qed.

Lemma has_char_rev x s : has_char x (String.rev s) = has_char x s.
Proof.
  induction s as [|c s IH]; [done|].
  rewrite rev_cons, has_char_append, IH. simpl.
  by rewrite orb_false_r, orb_comm.
Qed.

Lemma has_char_cut x s :
  has_char x s = true → ∃ b a, s = b +:+ String x "" +:+ a.
Proof.
  induction s as [|c s IH]; [done|]. simpl.
  destruct (Ascii.eqb_spec x c) as [->|_]; simpl.
  - intros _. by exists "", s.
  - intros (b & a & ->)%IH. by exists (String c b), a.
Qed.

Lemma contains_has_char x s : contains (String x "") s = has_char x s.
Proof.
  apply eq_true_iff_eq. rewrite contains_true. split.
  - intros (b & a & ->). rewrite !has_char_append. simpl.
    rewrite Ascii.eqb_refl. by rewrite orb_true_r.
  - apply has_char_cut.
Qed.

Lemma strip_front_has_char back x s :
  printable x → has_char x (strip_front back s) = has_char x s.
Proof.
  intros Hx. remember (String.length s) as n eqn:Hn.
  revert s Hn. induction (lt_wf n) as [n _ IH]. intros s ->.
  destruct (strip_front_step back s) as [Hclean|(d & t & Hd & -> & Ht & Hdrop)].
  - by rewrite (strip_front_clean_id back s Hclean).
  - rewrite Ht, has_char_append, (Hdrop x Hx). simpl.
    apply (IH (String.length t)); [|done].
    rewrite length_append. destruct d; [done|]. simpl. lia.
Qed.

(** [strip] drops no printable character. *)
Lemma strip_has_char x s : printable x → has_char x (strip s) = has_char x s.
Proof.
  intros Hx. unfold strip.
  by rewrite has_char_rev, strip_front_has_char, has_char_rev,
    strip_front_has_char.
Qed.

Lemma has_char_nonempty x s : has_char x s = true → s ≠ "".
Proof. by destruct s. Qed.

Lemma split_upto_has_char n x sep s :
  sep ≠ "" → has_char x sep = false → String.length s ≤ n →
  has_char x s = true → ∃ p, p ∈ split_upto n sep s ∧ has_char x p = true.
Proof.
  intros Hsep Hx. revert s. induction n as [|n IH]; intros s Hlen Hs.
  - exists s. split; [by left|done].
  - rewrite split_upto_S. destruct (find_sep sep s) as [[b a]|] eqn:Hf.
    + pose proof (find_sep_shorter _ _ _ _ Hsep Hf) as Hlt.
      apply find_sep_Some in Hf. rewrite Hf, !has_char_append, Hx in Hs.
      simpl in Hs. apply orb_prop in Hs as [Hb|Ha].
      * exists b. split; [by left|done].
      * assert (String.length a ≤ n) as Ha' by lia.
        destruct (IH a Ha' Ha) as (p & Hp & Hxp).
        exists p. split; [by right|done].
    + exists s. split; [by left|done].
Qed.

(** A character that is not the separator stays in one of the parts. *)
Lemma split_has_char x sep s :
  sep ≠ "" → has_char x sep = false → has_char x s = true →
  ∃ p, p ∈ split sep s ∧ has_char x p = true.
Proof. intros Hsep Hx. by apply split_upto_has_char. Qed.

Lemma elem_of_parts a s :
  a ∈ map strip (filter (λ p, strip p ≠ "") (split "," s))
  ↔ ∃ p, p ∈ split "," s ∧ a = strip p ∧ a ≠ "".
Proof.
  rewrite list_elem_of_fmap. split.
  - intros (p & -> & [Hne Hp]%list_elem_of_filter). by exists p.
  - intros (p & Hp & -> & Hne). exists p. split; [done|].
    by apply list_elem_of_filter.
Qed.

End relation_facts.

(** X20. Whatever the pattern search of line 10 finds, a result of
    [parse_relation] never has an empty set of attributes, and each of its
    attributes is a stripped text without a comma. *)
Theorem parse_relation_attributes
    (re_search : string → option (string * string))
    (input_str name : string) (attrs : gset string) :
  parse_relation re_search input_str = inr (name, attrs) →
  attrs ≠ ∅ ∧ ∀ a, a ∈ attrs → strip a = a ∧ contains "," a = false.
Proof.
  unfold parse_relation. cbv zeta.
  set (text := strip input_str).
  destruct (re_search text) as [[name' attrs_str]|].
  { intros [= _ <-]. split; [apply attr_set_nonempty|].
    intros a Ha. destruct (attr_set_attribute a _ Ha) as (? & ? & _). done. }
  set (parts := map strip (filter (λ p, strip p ≠ "") (split "," text))).
  destruct (negb (contains "(" text) && negb (contains ")" text)
            && nonempty parts) eqn:Hfirst.
  - intros [= _ <-].
    apply andb_prop in Hfirst as [_ Hparts]. split.
    + destruct parts as [|p ps] eqn:Hp; [done|].
      intros Hempty. assert (p ∈ (list_to_set (p :: ps) : gset string)) as Hin.
      { apply elem_of_list_to_set. by left. }
      rewrite Hempty in Hin. by apply not_elem_of_empty in Hin.
    + intros a (p & Hp & -> & _)%elem_of_list_to_set%elem_of_parts.
      split; [apply strip_idempotent|]. apply contains_strip.
      by destruct (split_parts "," text p) as [? _].
  - destruct (contains ":" text); [|done].
    destruct (split_upto 1 ":" text) as [|n [|at' [|??]]]; try done.
    intros [= _ <-]. split; [apply attr_set_nonempty|].
    intros a Ha. destruct (attr_set_attribute a _ Ha) as (? & ? & _). done.
Qed.

Lemma parse_relation_attributes_witness :
  ({["A"; "B"; "C"]} : gset string) ≠ ∅
  ∧ ∀ a, a ∈ ({["A"; "B"; "C"]} : gset string) →
         strip a = a ∧ contains "," a = false.
Proof.
  apply (parse_relation_attributes (λ _, None) " A, B,, C " "R").
  compute_done.
Defined.

(** X21. A text without parentheses in which the pattern of line 10 is not
    found is never read in the form [Name: A, B]: every result has the name
    ["R"], and when the text holds a colon, the colon ends up inside an
    attribute. *)
Theorem parse_relation_colon_shadowed
    (re_search : string → option (string * string)) (input_str : string) :
  re_search (strip input_str) = None →
  contains "(" (strip input_str) = false →
  contains ")" (strip input_str) = false →
  (∀ name attrs,
     parse_relation re_search input_str = inr (name, attrs) → name = "R")
  ∧ (contains ":" (strip input_str) = true →
     ∃ attrs a, parse_relation re_search input_str = inr ("R", attrs)
                ∧ a ∈ attrs ∧ contains ":" a = true).
Proof.
  intros Hre Hopen Hclose. unfold parse_relation. cbv zeta.
  set (text := strip input_str) in *. rewrite Hre, Hopen, Hclose.
  set (parts := map strip (filter (λ p, strip p ≠ "") (split "," text))).
  change (negb false && negb false && nonempty parts) with (nonempty parts).
  assert (contains ":" text = true →
          ∃ a, a ∈ parts ∧ contains ":" a = true) as Hcolon.
  { rewrite contains_has_char. intros Hc.
    destruct (split_has_char ":" "," text) as (p & Hp & Hxp); [done..|].
    assert (printable ":") as Hpr by (unfold printable; vm_compute; lia).
    exists (strip p). rewrite contains_has_char, strip_has_char by done.
    split; [|done]. apply elem_of_parts. exists p. do 2 (split; [done|]).
    apply (has_char_nonempty ":"). by rewrite strip_has_char. }
  split.
  - intros name attrs. destruct (nonempty parts) eqn:Hparts.
    { by intros [= <- _]. }
    destruct (contains ":" text) eqn:Hc; [|done].
    destruct Hcolon as (a & Ha & _); [done|].
    destruct parts; [by apply elem_of_nil in Ha|done].
  - intros Hc. destruct (Hcolon Hc) as (a & Ha & Hca).
    destruct (nonempty parts) eqn:Hparts.
    + exists (list_to_set parts), a. split; [done|].
      split; [by apply elem_of_list_to_set|done].
    + destruct parts; [by apply elem_of_nil in Ha|done].
Qed.

Lemma parse_relation_colon_shadowed_witness :
  (∀ name attrs,
     parse_relation (λ _, None) "Gigs: GigID, Title" = inr (name, attrs) →
     name = "R")
  ∧ (contains ":" (strip "Gigs: GigID, Title") = true →
     ∃ attrs a, parse_relation (λ _, None) "Gigs: GigID, Title"
                = inr ("R", attrs)
                ∧ a ∈ attrs ∧ contains ":" a = true).
Proof.
  apply (parse_relation_colon_shadowed (λ _, None) "Gigs: GigID, Title");
    compute_done.
Defined.

(** * The cap of the decomposer *)

(** A queued schema is the relation itself before the first turn, and a
    child of a recorded step afterwards. *)
Lemma decompose_body_queued (fds : list fd) (root : relation_schema)
    (st : decomp_state) (schema : relation_schema)
    (rest : list relation_schema) :
  queue st = schema :: rest →
  (iterations st = 0 ∧ queue st = [root])
  ∨ (∀ s, s ∈ queue st → ∃ stp, stp ∈ steps st ∧ s ∈ new_relations stp) →
  ∀ s, s ∈ queue (decompose_body fds st schema rest) →
    ∃ stp, stp ∈ steps (decompose_body fds st schema rest)
           ∧ s ∈ new_relations stp.
Proof.
  intros Hq HP.
  assert (∀ s, s ∈ rest → ∃ stp, stp ∈ steps st ∧ s ∈ new_relations stp)
    as Hrest.
  { destruct HP as [[_ Hroot]|Hall].
    - rewrite Hq in Hroot. injection Hroot as _ ->.
      intros s Hs. by apply elem_of_nil in Hs.
    - intros s Hs. apply Hall. rewrite Hq. by right. }
  unfold decompose_body.
  destruct (find_violation fds fds (attrs schema)) as [[X Y]|]; simpl.
  - intros s [Hs|Hs]%elem_of_app.
    + destruct (Hrest s Hs) as (stp & Hstp & Hin).
      exists stp. split; [|done]. apply elem_of_app. by left.
    + eexists. split.
      * apply elem_of_app. right. by left.
      * exact Hs.
  - exact Hrest.
Qed.

Lemma decompose_exit_queued (relation_name : string)
    (relation_attrs : gset string) (fds : list fd) :
  let st := decompose_exit relation_name relation_attrs fds in
  iterations st ≠ 0 →
  ∀ s, s ∈ queue st → ∃ stp, stp ∈ steps st ∧ s ∈ new_relations stp.
Proof.
  intros st Hit.
  destruct (decompose_while_preserves fds
              (λ st, (iterations st = 0
                      ∧ queue st = [Schema relation_name relation_attrs])
                     ∨ (∀ s, s ∈ queue st →
                          ∃ stp, stp ∈ steps st ∧ s ∈ new_relations stp)))
    with (turns := iteration_cap)
         (st := DecompState [] [] [Schema relation_name relation_attrs] 0)
    as [[Hzero _]|Hall].
  - intros st0 schema rest Hq HP. right.
    by apply (decompose_body_queued fds (Schema relation_name relation_attrs)).
  - by left.
  - done.
  - exact Hall.
Qed.

Lemma decompose_exit_names (relation_name : string)
    (relation_attrs : gset string) (fds : list fd) :
  NoDup (map name
           (live_schemas (decompose_exit relation_name relation_attrs fds))).
Proof.
  apply prefix_free_NoDup.
  apply (decompose_while_preserves fds
           (λ st, prefix_free (map name (live_schemas st)))).
  - apply decompose_body_names.
  - simpl. split; [constructor|done].
Qed.

(** A schema still queued when the loop is left is not a final one. *)
Lemma decompose_exit_queued_not_final (relation_name : string)
    (relation_attrs : gset string) (fds : list fd) (s : relation_schema) :
  let st := decompose_exit relation_name relation_attrs fds in
  s ∈ queue st → s ∉ final_schemas st.
Proof.
  intros st Hq Hfin.
  pose proof (decompose_exit_names relation_name relation_attrs fds) as Hnd.
  fold st in Hnd. unfold live_schemas in Hnd. rewrite map_app in Hnd.
  apply NoDup_app in Hnd as (_ & Hdisj & _).
  apply (Hdisj (name s)); apply list_elem_of_fmap; by exists s.
Qed.

(** C4, as the source has it.  [decompose_to_bcnf] has no signal for the cap:
    it returns the [(steps, final_schemas)] built so far however the loop
    ends.  Each turn either records a step or finalises a schema, and at most
    [iteration_cap] turns are made.  When the loop stops with schemas still
    queued, the cap was reached; every queued schema is absent from the
    final schemas, and it is in the result as a child of a recorded step;
    fewer schemas are final than a finished run has ([steps + 1]). *)
Theorem decompose_cap_is_silent
    (relation_name : string) (relation_attrs : gset string) (fds : list fd) :
  let st := decompose_exit relation_name relation_attrs fds in
  decompose_to_bcnf relation_name relation_attrs fds
  = (steps st, final_schemas st)
  ∧ length (steps st) + length (final_schemas st) = iterations st
  ∧ iterations st ≤ iteration_cap
  ∧ (queue st ≠ [] →
       iterations st = iteration_cap
       ∧ length (final_schemas st) + length (queue st) = length (steps st) + 1
       ∧ length (final_schemas st) ≤ length (steps st)
       ∧ ∀ s, s ∈ queue st →
           (s ∉ final_schemas st)
           ∧ ∃ stp, stp ∈ steps st ∧ s ∈ new_relations stp)
  ∧ (queue st = [] → length (final_schemas st) = length (steps st) + 1).
Proof.
  intros st. split; [done|].
  destruct (decompose_while_inv iteration_cap fds
              (DecompState [] [] [Schema relation_name relation_attrs] 0))
    as ([Hit Hlen] & Hle & Hexit).
  { split; simpl; lia. }
  { simpl. lia. }
  { simpl. lia. }
  fold (decompose_exit relation_name relation_attrs fds) in Hit, Hlen, Hle, Hexit.
  fold st in Hit, Hlen, Hle, Hexit.
  split; [lia|]. split; [done|]. split.
  - intros Hne. destruct Hexit as [Hq|Hcap]; [done|].
    split; [done|]. split; [done|]. split.
    { destruct (queue st); [done|]. simpl in Hlen. lia. }
    intros s Hs. split.
    + by apply decompose_exit_queued_not_final.
    + apply (decompose_exit_queued relation_name relation_attrs fds); [|done].
      fold st. rewrite Hcap. done.
  - intros Hq. rewrite Hq in Hlen. simpl in Hlen. lia.
Qed.

Lemma decompose_cap_is_silent_witness :
  iterations (decompose_exit "R" cap_attrs cap_fds) = iteration_cap
  ∧ length (final_schemas (decompose_exit "R" cap_attrs cap_fds))
    + length (queue (decompose_exit "R" cap_attrs cap_fds))
    = length (steps (decompose_exit "R" cap_attrs cap_fds)) + 1
  ∧ length (final_schemas (decompose_exit "R" cap_attrs cap_fds))
    ≤ length (steps (decompose_exit "R" cap_attrs cap_fds))
  ∧ ∀ s, s ∈ queue (decompose_exit "R" cap_attrs cap_fds) →
      (s ∉ final_schemas (decompose_exit "R" cap_attrs cap_fds))
      ∧ ∃ stp, stp ∈ steps (decompose_exit "R" cap_attrs cap_fds)
               ∧ s ∈ new_relations stp.
Proof.
  apply (decompose_cap_is_silent "R" cap_attrs cap_fds). compute_done.
Defined.

(** * The separators of a line *)

Section line_results.

Implicit Types (raw line fd_str : string) (fds : list fd).

(** A list that the loop returns holds what it held before and what each
    line added. *)
Lemma parse_fd_lines_keeps fds lines fds' raw (d : fd) :
  parse_fd_lines fds lines = inr fds' →
  (∀ d0, d0 ∈ fds → d0 ∈ fds')
  ∧ (raw ∈ lines →
     (∀ fds0, parse_fd_line fds0 raw = inr (fds0 ++ [d])) → d ∈ fds').
Proof.
  revert fds. induction lines as [|l rest IH]; intros fds; simpl.
  { intros [= <-]. split; [done|]. intros Hin. by apply elem_of_nil in Hin. }
  destruct (parse_fd_line fds l) as [[]|fds1] eqn:Hl; [done|].
  intros Hres. destruct (IH fds1 Hres) as [Hkeep Hnew].
  assert (∀ d0, d0 ∈ fds → d0 ∈ fds1) as Hmono.
  { destruct (parse_fd_line_cases fds l) as [H|[(l0 & r0 & _ & H)|[H _]]];
      rewrite H in Hl; [..|done].
    - by injection Hl as <-.
    - injection Hl as <-. intros d0 Hd0. apply elem_of_app. by left. }
  split.
  - intros d0 Hd0. by apply Hkeep, Hmono.
  - intros [->|Hin]%elem_of_cons Hd; [|by apply Hnew].
    rewrite Hd in Hl. injection Hl as <-.
    apply Hkeep, elem_of_app. right. by left.
Qed.

(** The loop returns exactly when no line is cut into three parts or more. *)
Lemma parse_fd_lines_returns_iff lines :
  (∃ fds', parse_fd_lines [] lines = inr fds')
  ↔ ∀ raw, raw ∈ lines →
      length (split (select_arrow (strip raw)) (strip raw)) ≤ 2.
Proof.
  split.
  - intros [fds' Hres] raw Hin.
    destruct (le_lt_dec (length (split (select_arrow (strip raw)) (strip raw))) 2)
      as [Hle|Hgt]; [done|exfalso].
    destruct (split_three_parts _ _ (select_arrow_nonempty (strip raw)) Hgt)
      as (a & b & c & Hline).
    rewrite (parse_fd_lines_raises [] lines raw Hin
               (λ fds, parse_fd_line_raises fds raw a b c Hline)) in Hres.
    done.
  - intros Hok. destruct (parse_fd_lines_returns [] lines Hok) as (fds' & Hres & _).
    by exists fds'.
Qed.

(** A line with ["→"] at one place only is cut there. *)
Lemma parse_fd_line_one_arrow fds raw l r :
  strip raw = l +:+ "→" +:+ r →
  (∀ b a, strip raw = b +:+ "→" +:+ a → b = l) →
  select_arrow (strip raw) = "→"
  ∧ split "→" (strip raw) = [l; r]
  ∧ parse_fd_line fds raw = inr (fds ++ [(attr_set l, attr_set r)]).
Proof.
  intros Hline Honce.
  assert (select_arrow (strip raw) = "→") as Harrow.
  { unfold select_arrow.
    assert (contains "→" (strip raw) = true) as ->; [|done].
    apply contains_true. by exists l, r. }
  assert (split "→" (strip raw) = [l; r]) as Hs.
  { by apply split_unique_occurrence. }
  split; [done|]. split; [done|].
  apply parse_fd_line_two_parts. by rewrite Harrow.
Qed.

End line_results.

(** C9, as the source has it.  The separator of a line is ["→"] when the
    line contains ["→"], and ["->"] otherwise.  A line in which its separator
    occurs two or more times makes [parse_fds] raise [ValueError] (the
    two-variable unpacking of a longer split): the line is neither skipped
    nor parsed.  A line without its separator is passed over.  A line that
    holds ["→"] at one place only is cut there and parsed into a dependency,
    whatever else it holds, ["->"] included, and [parse_fds] returns that
    dependency whenever it returns. *)
Theorem parse_fds_repeated_separator (fd_str raw a b c : string) :
  raw ∈ split newline (strip fd_str) →
  strip raw
  = a +:+ select_arrow (strip raw) +:+ b +:+ select_arrow (strip raw) +:+ c →
  parse_fds fd_str = inl ValueError
  ∧ (∀ fds, parse_fd_line fds raw = inl ValueError)
  ∧ (∀ fds raw', contains (select_arrow (strip raw')) (strip raw') = false →
       parse_fd_line fds raw' = inr fds)
  ∧ (∀ raw' l r,
       strip raw' = l +:+ "→" +:+ r →
       (∀ b' a', strip raw' = b' +:+ "→" +:+ a' → b' = l) →
       select_arrow (strip raw') = "→"
       ∧ split "→" (strip raw') = [l; r]
       ∧ (∀ fds, parse_fd_line fds raw'
                 = inr (fds ++ [(attr_set l, attr_set r)]))
       ∧ ∀ fd_str' fds',
           raw' ∈ split newline (strip fd_str') →
           parse_fds fd_str' = inr fds' →
           (attr_set l, attr_set r) ∈ fds').
Proof.
  intros Hin Hline. split; [|split; [|split]].
  - apply (parse_fd_lines_raises _ _ raw Hin). intros fds.
    by apply (parse_fd_line_raises fds raw a b c).
  - intros fds. by apply (parse_fd_line_raises fds raw a b c).
  - intros fds raw'. apply parse_fd_line_skips.
  - intros raw' l r Hline' Honce.
    destruct (parse_fd_line_one_arrow [] raw' l r Hline' Honce)
      as (Harrow & Hs & _).
    split; [done|]. split; [done|].
    assert (∀ fds, parse_fd_line fds raw'
                   = inr (fds ++ [(attr_set l, attr_set r)])) as Hfd.
    { intros fds. by apply parse_fd_line_one_arrow. }
    split; [done|]. intros fd_str' fds' Hin' Hres.
    by apply (parse_fd_lines_keeps [] _ fds' raw' _ Hres).
Qed.

Lemma parse_fds_repeated_separator_witness :
  parse_fds ("A -> B" +:+ newline +:+ "A -> B -> C") = inl ValueError
  ∧ (∀ fds, parse_fd_line fds "A -> B -> C" = inl ValueError)
  ∧ (∀ fds raw', contains (select_arrow (strip raw')) (strip raw') = false →
       parse_fd_line fds raw' = inr fds)
  ∧ (∀ raw' l r,
       strip raw' = l +:+ "→" +:+ r →
       (∀ b' a', strip raw' = b' +:+ "→" +:+ a' → b' = l) →
       select_arrow (strip raw') = "→"
       ∧ split "→" (strip raw') = [l; r]
       ∧ (∀ fds, parse_fd_line fds raw'
                 = inr (fds ++ [(attr_set l, attr_set r)]))
       ∧ ∀ fd_str' fds',
           raw' ∈ split newline (strip fd_str') →
           parse_fds fd_str' = inr fds' →
           (attr_set l, attr_set r) ∈ fds').
Proof.
  apply (parse_fds_repeated_separator
           ("A -> B" +:+ newline +:+ "A -> B -> C") "A -> B -> C"
           "A " " B " " C"); compute_done.
Defined.

(** C10, as the source has it.  A line that holds its separator at one place
    only, with nothing before it or nothing after it, is neither skipped nor
    rejected by the loop: the body appends a dependency whose side for the
    empty part is the set holding just the empty string.  [parse_fds]
    returns that dependency whenever it returns a list, and it returns a
    list exactly when no line of the text is cut into more than two parts.
    The side is not the empty set: it is a set whose only member is the
    empty string. *)
Theorem parse_fds_keeps_empty_side (fd_str raw lhs_str rhs_str : string) :
  raw ∈ split newline (strip fd_str) →
  strip raw = lhs_str +:+ select_arrow (strip raw) +:+ rhs_str →
  (∀ b a, strip raw = b +:+ select_arrow (strip raw) +:+ a → b = lhs_str) →
  lhs_str = "" ∨ rhs_str = "" →
  (∀ fds, parse_fd_line fds raw
          = inr (fds ++ [(attr_set lhs_str, attr_set rhs_str)]))
  ∧ (∀ fds, parse_fds fd_str = inr fds →
            (attr_set lhs_str, attr_set rhs_str) ∈ fds)
  ∧ ((∃ fds, parse_fds fd_str = inr fds)
     ↔ ∀ raw', raw' ∈ split newline (strip fd_str) →
         length (split (select_arrow (strip raw')) (strip raw')) ≤ 2)
  ∧ (lhs_str = "" → attr_set lhs_str = {[""]})
  ∧ (rhs_str = "" → attr_set rhs_str = {[""]})
  ∧ attr_set lhs_str ≠ ∅ ∧ attr_set rhs_str ≠ ∅.
Proof.
  intros Hin Hline Honce Hempty.
  assert (∀ fds, parse_fd_line fds raw
                 = inr (fds ++ [(attr_set lhs_str, attr_set rhs_str)])) as Hfd.
  { intros fds. apply parse_fd_line_two_parts.
    apply split_unique_occurrence; [apply select_arrow_nonempty|done..]. }
  split; [done|]. split; [|split; [|split; [|split; [|split]]]].
  - intros fds Hres. by apply (parse_fd_lines_keeps [] _ fds raw _ Hres).
  - apply parse_fd_lines_returns_iff.
  - intros ->. apply attr_set_empty_text.
  - intros ->. apply attr_set_empty_text.
  - apply attr_set_nonempty.
  - apply attr_set_nonempty.
Qed.

Lemma parse_fds_keeps_empty_side_witness :
  (∀ fds, parse_fd_line fds "-> B"
          = inr (fds ++ [(attr_set "", attr_set " B")]))
  ∧ (∀ fds, parse_fds ("-> B" +:+ newline +:+ "A ->") = inr fds →
            (attr_set "", attr_set " B") ∈ fds)
  ∧ ((∃ fds, parse_fds ("-> B" +:+ newline +:+ "A ->") = inr fds)
     ↔ ∀ raw', raw' ∈ split newline (strip ("-> B" +:+ newline +:+ "A ->")) →
         length (split (select_arrow (strip raw')) (strip raw')) ≤ 2)
  ∧ ("" = "" → attr_set "" = {[""]})
  ∧ (" B" = "" → attr_set " B" = {[""]})
  ∧ attr_set "" ≠ ∅ ∧ attr_set " B" ≠ ∅.
Proof.
  apply (parse_fds_keeps_empty_side
           ("-> B" +:+ newline +:+ "A ->") "-> B" "" " B").
  - compute_done.
  - compute_done.
  - intros b a Hba. destruct b as [|c b]; [done|exfalso].
    rewrite append_cons in Hba. injection Hba as <- Hba.
    do 3 (destruct b as [|? b];
          [by vm_compute in Hba
          |rewrite append_cons in Hba; injection Hba as <- Hba]).
    destruct b; by vm_compute in Hba.
  - by left.
Defined.

(** C10 as claimed fails: the first line of the text below holds its
    separator once, with nothing before it, and the second line holds its
    separator twice; [parse_fds] raises and returns no dependency at all. *)
Lemma parse_fds_empty_side_line_lost :
  "-> B" ∈ split newline (strip ("-> B" +:+ newline +:+ "A -> B -> C"))
  ∧ select_arrow (strip "-> B") = "->"
  ∧ split "->" (strip "-> B") = [""; " B"]
  ∧ parse_fds ("-> B" +:+ newline +:+ "A -> B -> C") = inl ValueError.
Proof. repeat split; compute_done. Qed.
